(** * Steem WebSocket bridge: the polling / cache / broadcast engine

    A shallow embedding of [ProductionSteemBridge] (the production bridge
    script): the request queue with its spacing rule, the per-stream cache,
    the stream registry with its [setInterval] timers, and the broadcast to
    connected sockets.

    The engine is single threaded and event driven.  Every callback the
    event loop can run (a socket event, a timer firing, the upstream call
    settling) is one [step]; an [await] splits an async function into the
    part that runs before the suspension and a continuation stored in the
    state until its promise settles. *)

From stdpp Require Import gmap strings list fin_maps sorting.
From Stdlib Require Import ZArith Lia.

Local Open Scope string_scope.
Local Open Scope list_scope.
Local Open Scope Z_scope.

(** ** JavaScript property lookup on a plain object

    [this.apiMethods] and [this.cache] are object literals, so [obj[key]]
    first looks at the object's own properties and then at those of
    [Object.prototype]. *)

Definition objectPrototypeProps : list string :=
  [ "constructor"; "__proto__"; "hasOwnProperty"; "isPrototypeOf";
    "propertyIsEnumerable"; "toLocaleString"; "toString"; "valueOf";
    "__defineGetter__"; "__defineSetter__"; "__lookupGetter__";
    "__lookupSetter__" ].

Inductive JsProp (A : Type) : Type :=
  | Own (a : A)        (* an own property of the literal *)
  | Inherited          (* a function or object found on Object.prototype *)
  | Undefined.
Arguments Own {A} a.
Arguments Inherited {A}.
Arguments Undefined {A}.

Definition getProp {A : Type} (o : gmap string A) (key : string) : JsProp A :=
  match o !! key with
  | Some a => Own a
  | None => if bool_decide (key ∈ objectPrototypeProps) then Inherited else Undefined
  end.

(** [!x] for a looked-up property: own records and inherited functions are
    truthy, [undefined] is falsy. *)
Definition truthyProp {A : Type} (p : JsProp A) : bool :=
  match p with Undefined => false | _ => true end.

(** ** Stream names

    [data.stream] is whatever [JSON.parse] produced and is passed on
    unchecked.  The engine uses it in two ways: as a property key of the
    object literals [apiMethods] and [cache] (the value is converted to a
    string) and as a key of the [Map] [activeStreams] (primitives are
    compared by value, arrays and objects by reference). *)

(** The [stream] field of a message, as far as the engine can tell values
    apart. *)
Inductive Json : Type :=
  | JString (s : string)
  | JPrimitive (key : string)
      (* a number, a boolean, [null] or a missing field, given by its
         conversion to a string: "5", "true", "null", "undefined" *)
  | JObject (key : string).
      (* an array or an object, given by its conversion to a string:
         "block" for ["block"], "a,b" for ["a","b"], the empty string
         for [], "[object Object]" for {}.  (An object that has no conversion, as
         {"toString": 1}, makes [start_stream] throw, see [not_json]; in a
         [stop_stream] the value is never converted and any key stands
         for it.) *)

(** The same value in the running program: an array or object has the
    reference it got when [JSON.parse] built it. *)
Inductive Name : Type :=
  | NString (s : string)
  | NPrimitive (key : string)
  | NObject (ref : nat) (key : string).

(** Conversion to a property key ([obj[name]]) or to a string (a template
    literal). *)
Definition keyOf (n : Name) : string :=
  match n with
  | NString s => s
  | NPrimitive key => key
  | NObject _ key => key
  end.

#[global] Instance Json_eq_dec : EqDecision Json := ltac:(solve_decision).

#[global] Instance Name_eq_dec : EqDecision Name := ltac:(solve_decision).

Definition Name_encode (n : Name) : string + (string + nat * string) :=
  match n with
  | NString s => inl s
  | NPrimitive key => inr (inl key)
  | NObject ref key => inr (inr (ref, key))
  end.

Definition Name_decode (x : string + (string + nat * string)) : Name :=
  match x with
  | inl s => NString s
  | inr (inl key) => NPrimitive key
  | inr (inr (ref, key)) => NObject ref key
  end.

#[global] Instance Name_countable : Countable Name :=
  inj_countable' Name_encode Name_decode
    (λ n, match n with
          | NString _ | NPrimitive _ | NObject _ _ => eq_refl
          end).

(** ** Data model *)

(** The upstream [result]: opaque to the engine except for
    [head_block_number]; [None] is a missing field. *)
Record Payload : Type := {
  head_block_number : option Z;
  body : string
}.

Inductive Processor : Type :=
  | processDynamicGlobalProperties
  | processBlockHeader
  | processBlock.

(** A JSON-RPC positional parameter: [null] / [undefined] is [None]. *)
Definition Params : Type := list (option Z).

Module Config.
(** An entry of [apiMethods], or the copy [{ ...apiMethods[name] }];
    a field that is [undefined] is [None]. *)
Record t : Type := {
  method : option string;
  params : option Params;
  interval : option Z;
  processor : option Processor
}.
(** [{ ...f }] for an inherited function: no own enumerable property. *)
Definition empty : t :=
  {| method := None; params := None; interval := None; processor := None |}.
Definition set_params (p : option Params) (c : t) : t :=
  {| method := method c; params := p; interval := interval c;
     processor := processor c |}.
End Config.

Module Cache.
(** [{ data, timestamp, ttl }]; [data = None] is [null]. *)
Record t : Type := {
  data : option Payload;
  timestamp : Z;
  ttl : option Z
}.
End Cache.

Module Stream.
(** The value stored in [activeStreams]; [config] is a reference into the
    store of config copies, shared with the timer closure. *)
Record t : Type := {
  intervalId : nat;
  config : nat;
  startTime : Z;
  requestCount : Z
}.
Definition bump (s : t) : t :=
  {| intervalId := intervalId s; config := config s;
     startTime := startTime s; requestCount := requestCount s + 1 |}.
End Stream.

Module Request.
(** A queued request; [handle] stands for its [resolve] / [reject] pair. *)
Record t : Type := {
  method : option string;
  params : option Params;
  handle : nat
}.
End Request.

(** What an [await this.queueAPICall(...)] resumes into. *)
Inductive Awaiter : Type :=
  | AwaitGlobalProps (streamName : Name) (config : nat) (now : Z)
      (* fetchAndBroadcastOptimized, seeding currentBlock *)
  | AwaitFetch (streamName : Name) (config : nat) (now : Z)
      (* fetchAndBroadcastOptimized, the stream's own call *)
  | AwaitTest   (* testSteemConnection *)
  | AwaitAuto.  (* startAutomaticDataFetch *)

(** Callbacks handed to [setInterval] / [setTimeout]. *)
Inductive TimerTask : Type :=
  | StreamTick (streamName : Name) (config : nat)
  | ResetCounter
  | AutoFetch
  | TestConnection
  | ProcessQueue
  | QueueDelay (request : Request.t)   (* the spacing wait of the drain loop *)
  | QueueGap.                          (* the 200 ms pause after a call *)

Module Timer.
Record t : Type := {
  task : TimerTask;
  delay : Z;
  repeat : bool;
  armed : Z     (* clock value when the timer was (re)armed *)
}.
Definition rearm (now : Z) (x : t) : t :=
  {| task := task x; delay := delay x; repeat := repeat x; armed := now |}.
End Timer.

(** ** Messages

    The [stream] field of an outgoing message is serialised from the value
    the stream was started with; the reference of an array or object is
    kept here only to tell which stream the message is about. *)

Inductive Msg : Type :=
  | Welcome (current_block : option Z) (available_streams : list string)
            (max_requests_per_minute : Z) (timestamp : Z)
  | InvalidJson
  | UnknownType (message : string) (available_types : list string)
  | ErrorMessage (message : string)
  | StreamStarted (stream : Name) (interval : option Z)
  | StreamStopped (stream : Name) (requests_saved : Z)
  | CurrentBlock (block_number : option Z) (timestamp : Z)
  | ApiStats (requests_per_minute : Z) (active_streams : nat) (cache_hits : nat)
             (timestamp : Z)
  | LiveData (stream : Name) (data : Payload) (cached : bool)
             (cache_age : option Z) (timestamp : Z)
  | StreamError (stream : Name) (error : string) (timestamp : Z)
  | FetchError (stream : Name) (error : string) (timestamp : Z).

(** The [type] field of the serialised message. *)
Definition msgType (m : Msg) : string :=
  match m with
  | Welcome _ _ _ _ => "welcome"
  | InvalidJson | UnknownType _ _ | ErrorMessage _ => "error"
  | StreamStarted _ _ => "stream_started"
  | StreamStopped _ _ => "stream_stopped"
  | CurrentBlock _ _ => "current_block"
  | ApiStats _ _ _ _ => "api_stats"
  | LiveData _ _ _ _ _ => "live_data"
  | StreamError _ _ _ => "error"
  | FetchError _ _ _ => "fetch_error"
  end.

(** The stream a pushed message is about. *)
Definition msgStream (m : Msg) : option Name :=
  match m with
  | LiveData s _ _ _ _ | StreamError s _ _ | FetchError s _ _ => Some s
  | StreamStarted s _ | StreamStopped s _ => Some s
  | _ => None
  end.

(** A message from a client.  [not_json] stands for every message on which
    the [try] block of the message handler throws before anything is done:
    text that is not JSON, [null], and a [start_stream] whose [stream] is an
    object without a conversion to a string (as [{"toString": 1}]).
    [other_type] is any other [type], also a missing one. *)
Inductive ClientMsg : Type :=
  | start_stream (stream : Json)
  | stop_stream (stream : Json)
  | get_current_block
  | get_api_stats
  | other_type (type : string)
  | not_json.

(** Visible effects of one callback. *)
Inductive Action : Type :=
  | Send (ws : nat) (m : Msg)           (* ws.send(JSON.stringify(m)) *)
  | Upstream (request : Request.t).     (* https.request issued by makeAPICall *)

(** ** Engine state *)

Record State : Type := {
  clients : list nat;                    (* Set of sockets, insertion order *)
  openSockets : gset nat;                (* sockets with readyState OPEN *)
  currentBlock : option Z;
  activeStreams : gmap Name Stream.t;    (* Map keyed by the value itself *)
  requestCount : Z;
  lastRequestTime : Z;
  requestQueue : list Request.t;
  isProcessingQueue : bool;
  cache : gmap string Cache.t;
  configs : gmap nat Config.t;           (* config copies captured by closures *)
  timers : gmap nat Timer.t;
  awaiters : gmap nat Awaiter;           (* pending queueAPICall promises *)
  calling : option Request.t;            (* the makeAPICall being awaited *)
  nextId : nat                           (* fresh timer ids, handles, references *)
}.

Definition requestDelay : Z := 1000.
Definition maxRequestsPerMinute : Z := 60.

Definition apiMethods : gmap string Config.t :=
  <[ "dynamic_global_properties" :=
       {| Config.method := Some "condenser_api.get_dynamic_global_properties";
          Config.params := Some [];
          Config.interval := Some 8000;
          Config.processor := Some processDynamicGlobalProperties |} ]>
  (<[ "block_header" :=
       {| Config.method := Some "condenser_api.get_block_header";
          Config.params := Some [None];
          Config.interval := Some 6000;
          Config.processor := Some processBlockHeader |} ]>
  (<[ "block" :=
       {| Config.method := Some "condenser_api.get_block";
          Config.params := Some [None];
          Config.interval := Some 12000;
          Config.processor := Some processBlock |} ]> ∅)).

(** [Object.keys(this.apiMethods)], in definition order. *)
Definition apiMethodKeys : list string :=
  [ "dynamic_global_properties"; "block_header"; "block" ].

Definition initialCache : gmap string Cache.t :=
  <[ "dynamic_global_properties" :=
       {| Cache.data := None; Cache.timestamp := 0; Cache.ttl := Some 5000 |} ]>
  (<[ "block_header" :=
       {| Cache.data := None; Cache.timestamp := 0; Cache.ttl := Some 3000 |} ]>
  (<[ "block" :=
       {| Cache.data := None; Cache.timestamp := 0; Cache.ttl := Some 5000 |} ]> ∅)).


(** Field updates ([this.x = ...]). *)

Definition set_clients (f : list nat → list nat) (st : State) : State :=
  {| clients := f (clients st); openSockets := openSockets st;
     currentBlock := currentBlock st; activeStreams := activeStreams st;
     requestCount := requestCount st; lastRequestTime := lastRequestTime st;
     requestQueue := requestQueue st;
     isProcessingQueue := isProcessingQueue st; cache := cache st;
     configs := configs st; timers := timers st; awaiters := awaiters st;
     calling := calling st; nextId := nextId st |}.

Definition set_openSockets (f : gset nat → gset nat) (st : State) : State :=
  {| clients := clients st; openSockets := f (openSockets st);
     currentBlock := currentBlock st; activeStreams := activeStreams st;
     requestCount := requestCount st; lastRequestTime := lastRequestTime st;
     requestQueue := requestQueue st;
     isProcessingQueue := isProcessingQueue st; cache := cache st;
     configs := configs st; timers := timers st; awaiters := awaiters st;
     calling := calling st; nextId := nextId st |}.

Definition set_currentBlock (f : option Z → option Z) (st : State) : State :=
  {| clients := clients st; openSockets := openSockets st;
     currentBlock := f (currentBlock st); activeStreams := activeStreams st;
     requestCount := requestCount st; lastRequestTime := lastRequestTime st;
     requestQueue := requestQueue st;
     isProcessingQueue := isProcessingQueue st; cache := cache st;
     configs := configs st; timers := timers st; awaiters := awaiters st;
     calling := calling st; nextId := nextId st |}.

Definition set_activeStreams (f : gmap Name Stream.t → gmap Name Stream.t) (st : State) : State :=
  {| clients := clients st; openSockets := openSockets st;
     currentBlock := currentBlock st; activeStreams := f (activeStreams st);
     requestCount := requestCount st; lastRequestTime := lastRequestTime st;
     requestQueue := requestQueue st;
     isProcessingQueue := isProcessingQueue st; cache := cache st;
     configs := configs st; timers := timers st; awaiters := awaiters st;
     calling := calling st; nextId := nextId st |}.

Definition set_requestCount (f : Z → Z) (st : State) : State :=
  {| clients := clients st; openSockets := openSockets st;
     currentBlock := currentBlock st; activeStreams := activeStreams st;
     requestCount := f (requestCount st);
     lastRequestTime := lastRequestTime st; requestQueue := requestQueue st;
     isProcessingQueue := isProcessingQueue st; cache := cache st;
     configs := configs st; timers := timers st; awaiters := awaiters st;
     calling := calling st; nextId := nextId st |}.

Definition set_lastRequestTime (f : Z → Z) (st : State) : State :=
  {| clients := clients st; openSockets := openSockets st;
     currentBlock := currentBlock st; activeStreams := activeStreams st;
     requestCount := requestCount st;
     lastRequestTime := f (lastRequestTime st);
     requestQueue := requestQueue st;
     isProcessingQueue := isProcessingQueue st; cache := cache st;
     configs := configs st; timers := timers st; awaiters := awaiters st;
     calling := calling st; nextId := nextId st |}.

Definition set_requestQueue (f : list Request.t → list Request.t) (st : State) : State :=
  {| clients := clients st; openSockets := openSockets st;
     currentBlock := currentBlock st; activeStreams := activeStreams st;
     requestCount := requestCount st; lastRequestTime := lastRequestTime st;
     requestQueue := f (requestQueue st);
     isProcessingQueue := isProcessingQueue st; cache := cache st;
     configs := configs st; timers := timers st; awaiters := awaiters st;
     calling := calling st; nextId := nextId st |}.

Definition set_isProcessingQueue (f : bool → bool) (st : State) : State :=
  {| clients := clients st; openSockets := openSockets st;
     currentBlock := currentBlock st; activeStreams := activeStreams st;
     requestCount := requestCount st; lastRequestTime := lastRequestTime st;
     requestQueue := requestQueue st;
     isProcessingQueue := f (isProcessingQueue st); cache := cache st;
     configs := configs st; timers := timers st; awaiters := awaiters st;
     calling := calling st; nextId := nextId st |}.

Definition set_cache (f : gmap string Cache.t → gmap string Cache.t) (st : State) : State :=
  {| clients := clients st; openSockets := openSockets st;
     currentBlock := currentBlock st; activeStreams := activeStreams st;
     requestCount := requestCount st; lastRequestTime := lastRequestTime st;
     requestQueue := requestQueue st;
     isProcessingQueue := isProcessingQueue st; cache := f (cache st);
     configs := configs st; timers := timers st; awaiters := awaiters st;
     calling := calling st; nextId := nextId st |}.

Definition set_configs (f : gmap nat Config.t → gmap nat Config.t) (st : State) : State :=
  {| clients := clients st; openSockets := openSockets st;
     currentBlock := currentBlock st; activeStreams := activeStreams st;
     requestCount := requestCount st; lastRequestTime := lastRequestTime st;
     requestQueue := requestQueue st;
     isProcessingQueue := isProcessingQueue st; cache := cache st;
     configs := f (configs st); timers := timers st; awaiters := awaiters st;
     calling := calling st; nextId := nextId st |}.

Definition set_timers (f : gmap nat Timer.t → gmap nat Timer.t) (st : State) : State :=
  {| clients := clients st; openSockets := openSockets st;
     currentBlock := currentBlock st; activeStreams := activeStreams st;
     requestCount := requestCount st; lastRequestTime := lastRequestTime st;
     requestQueue := requestQueue st;
     isProcessingQueue := isProcessingQueue st; cache := cache st;
     configs := configs st; timers := f (timers st); awaiters := awaiters st;
     calling := calling st; nextId := nextId st |}.

Definition set_awaiters (f : gmap nat Awaiter → gmap nat Awaiter) (st : State) : State :=
  {| clients := clients st; openSockets := openSockets st;
     currentBlock := currentBlock st; activeStreams := activeStreams st;
     requestCount := requestCount st; lastRequestTime := lastRequestTime st;
     requestQueue := requestQueue st;
     isProcessingQueue := isProcessingQueue st; cache := cache st;
     configs := configs st; timers := timers st; awaiters := f (awaiters st);
     calling := calling st; nextId := nextId st |}.

Definition set_calling (f : option Request.t → option Request.t) (st : State) : State :=
  {| clients := clients st; openSockets := openSockets st;
     currentBlock := currentBlock st; activeStreams := activeStreams st;
     requestCount := requestCount st; lastRequestTime := lastRequestTime st;
     requestQueue := requestQueue st;
     isProcessingQueue := isProcessingQueue st; cache := cache st;
     configs := configs st; timers := timers st; awaiters := awaiters st;
     calling := f (calling st); nextId := nextId st |}.

Definition set_nextId (f : nat → nat) (st : State) : State :=
  {| clients := clients st; openSockets := openSockets st;
     currentBlock := currentBlock st; activeStreams := activeStreams st;
     requestCount := requestCount st; lastRequestTime := lastRequestTime st;
     requestQueue := requestQueue st;
     isProcessingQueue := isProcessingQueue st; cache := cache st;
     configs := configs st; timers := timers st; awaiters := awaiters st;
     calling := calling st; nextId := f (nextId st) |}.

(** ** Timers, queue and broadcast primitives *)

(** Node clamps a delay that is missing, not a number or below 1 to 1 ms. *)
Definition timerDelay (d : option Z) : Z :=
  match d with
  | Some d => if 1 <=? d then d else 1
  | None => 1
  end.

(** [setTimeout] / [setInterval]: the new timer's id is [nextId st]. *)
Definition setTimer (task : TimerTask) (delay : Z) (repeat : bool) (now : Z)
    (st : State) : State :=
  set_nextId S
    (set_timers
       (insert (nextId st)
          {| Timer.task := task; Timer.delay := delay;
             Timer.repeat := repeat; Timer.armed := now |}) st).

Definition clearInterval (id : nat) (st : State) : State :=
  set_timers (delete id) st.

(** [queueAPICall]: push the request, remember who awaits its promise. *)
Definition queueAPICall (method : option string) (params : option Params)
    (k : Awaiter) (st : State) : State :=
  let h := nextId st in
  set_nextId S
    (set_awaiters (insert h k)
       (set_requestQueue
          (λ q, q ++ [ {| Request.method := method; Request.params := params;
                          Request.handle := h |} ]) st)).

(** [broadcast(data)]: every socket of [clients] whose state is OPEN. *)
Definition broadcast (data : Msg) (st : State) : list Action :=
  if decide (length (clients st) = 0%nat) then []
  else map (λ ws, Send ws data)
           (filter (λ ws, ws ∈ openSockets st) (clients st)).

(** ** The upstream call *)

Definition apiEndpoint : string := "api.steemit.com".

(** How the HTTPS exchange ended. *)
Inductive HttpOutcome : Type :=
  | JsonBody (result : option Payload) (error : option string)
      (* a parsed body; a falsy [result] / [error] field is [None] *)
  | BadBody (message : string)           (* JSON.parse threw *)
  | ConnectionError (message : string)   (* req 'error' *)
  | TimedOut.                            (* req 'timeout' after 15 s *)

Module Response.
Record t : Type := { result : option Payload; error : option string }.
End Response.

Inductive Settled : Type :=
  | Resolved (response : Response.t)
  | Rejected (message : string).

(** How [makeAPICall] settles its promise. *)
Definition makeAPICall (o : HttpOutcome) : Settled :=
  match o with
  | JsonBody _ (Some e) => Rejected ("API Error: " +:+ e)
  | JsonBody r None => Resolved {| Response.result := r; Response.error := None |}
  | BadBody m => Rejected m
  | ConnectionError m => Rejected m
  | TimedOut => Rejected ("Timeout connecting to " +:+ apiEndpoint)
  end.

(** ** fetchAndBroadcastOptimized *)

Definition globalPropsMethod : string :=
  "condenser_api.get_dynamic_global_properties".

(** [streamName === 'block_header' || streamName === 'block']: strict
    equality, so only the strings themselves. *)
Definition isBlockStream (streamName : Name) : bool :=
  bool_decide (streamName = NString "block_header")
  || bool_decide (streamName = NString "block").

(** [cached.data && (now - cached.timestamp) < cached.ttl] *)
Definition cacheHit (now : Z) (cached : JsProp Cache.t) : option (Payload * Z) :=
  match cached with
  | Own e =>
      match Cache.data e, Cache.ttl e with
      | Some d, Some ttl =>
          if bool_decide (now - Cache.timestamp e < ttl)
          then Some (d, now - Cache.timestamp e) else None
      | _, _ => None
      end
  | _ => None
  end.

Definition lookupConfig (st : State) (config : nat) : Config.t :=
  default Config.empty (configs st !! config).

(** [config.params = [this.currentBlock]] on the shared config copy. *)
Definition setBlockParams (config : nat) (st : State) : State :=
  set_configs
    (insert config
       (Config.set_params (Some [currentBlock st]) (lookupConfig st config))) st.

(** [await this.queueAPICall(config.method, config.params)] *)
Definition requestStream (now : Z) (streamName : Name) (config : nat)
    (st : State) : State :=
  let cfg := lookupConfig st config in
  queueAPICall (Config.method cfg) (Config.params cfg)
    (AwaitFetch streamName config now) st.

(** The [catch] block; [clk] is the clock when it runs. *)
Definition catchFetch (clk : Z) (streamName : Name) (message : string)
    (st : State)
    : State * list Action :=
  (st, broadcast (FetchError streamName message clk) st).

(** From the call up to the first [await] (or the return on a cache hit). *)
Definition fetchAndBroadcastOptimized (now : Z) (streamName : Name)
    (config : nat) (st : State) : State * list Action :=
  match getProp (cache st) (keyOf streamName) with
  | Undefined =>
      catchFetch now streamName
        "Cannot read properties of undefined (reading 'data')" st
  | cached =>
      match cacheHit now cached with
      | Some (data, age) =>
          (st, broadcast (LiveData streamName data true (Some age) now) st)
      | None =>
          if isBlockStream streamName then
            if bool_decide (currentBlock st = Some 0) then
              (queueAPICall (Some globalPropsMethod) (Some [])
                 (AwaitGlobalProps streamName config now) st, [])
            else
              (requestStream now streamName config (setBlockParams config st), [])
          else (requestStream now streamName config st, [])
      end
  end.

(** After [await queueAPICall(get_dynamic_global_properties)]. *)
Definition resumeGlobalProps (clk : Z) (r : Settled) (streamName : Name)
    (config : nat) (now : Z) (st : State) : State * list Action :=
  match r with
  | Rejected m => catchFetch clk streamName m st
  | Resolved globalProps =>
      let st1 :=
        match Response.result globalProps with
        | Some p => set_currentBlock (λ _, head_block_number p) st
        | None => st
        end in
      (requestStream now streamName config (setBlockParams config st1), [])
  end.

(** The data processors return the raw result; the first one also records
    the chain head. *)
Definition runProcessor (f : Processor) (result : Payload) (st : State)
    : Payload * State :=
  match f with
  | processDynamicGlobalProperties =>
      (result, set_currentBlock (λ _, head_block_number result) st)
  | processBlockHeader => (result, st)
  | processBlock => (result, st)
  end.

(** After [await queueAPICall(config.method, config.params)]: [now] is the
    value captured when the cycle began, [clk] the clock at resumption. *)
Definition resumeFetch (clk : Z) (r : Settled) (streamName : Name)
    (config : nat) (now : Z) (st : State) : State * list Action :=
  match r with
  | Rejected m => catchFetch clk streamName m st
  | Resolved response =>
      match Response.result response with
      | Some result =>
          match Config.processor (lookupConfig st config) with
          | None => catchFetch clk streamName "config.processor is not a function" st
          | Some f =>
              let '(processedData, st1) := runProcessor f result st in
              match getProp (cache st1) (keyOf streamName) with
              | Undefined =>
                  catchFetch clk streamName
                    "Cannot read properties of undefined (reading 'ttl')" st1
              | old =>
                  let entry :=
                    {| Cache.data := Some processedData;
                       Cache.timestamp := now;
                       Cache.ttl := match old with
                                    | Own e => Cache.ttl e
                                    | _ => None
                                    end |} in
                  let st2 := set_cache (insert (keyOf streamName) entry) st1 in
                  let st3 :=
                    match activeStreams st2 !! streamName with
                    | Some _ => set_activeStreams (alter Stream.bump streamName) st2
                    | None => st2
                    end in
                  (st3, broadcast (LiveData streamName processedData false None clk) st3)
              end
          end
      | None =>
          match Response.error response with
          | Some e => (st, broadcast (StreamError streamName e clk) st)
          | None => (st, [])
          end
      end
  end.

(** Truthiness of [result.head_block_number]. *)
Definition truthyNumber (n : option Z) : bool :=
  match n with Some n => negb (n =? 0) | None => false end.

(** The continuation of the awaiting async function. *)
Definition resume (clk : Z) (r : Settled) (k : Awaiter) (st : State)
    : State * list Action :=
  match k with
  | AwaitGlobalProps streamName config now =>
      resumeGlobalProps clk r streamName config now st
  | AwaitFetch streamName config now =>
      resumeFetch clk r streamName config now st
  | AwaitTest =>
      match r with
      | Resolved testCall =>
          match Response.result testCall with
          | Some p =>
              if truthyNumber (head_block_number p) then
                (setTimer AutoFetch 10000 true clk
                   (set_currentBlock (λ _, head_block_number p) st), [])
              else (st, [])
          | None => (st, [])
          end
      | Rejected _ => (setTimer TestConnection 30000 false clk st, [])
      end
  | AwaitAuto =>
      match r with
      | Resolved response =>
          match Response.result response with
          | Some p => (set_currentBlock (λ _, head_block_number p) st, [])
          | None => (st, [])
          end
      | Rejected _ => (st, [])
      end
  end.

(** [request.resolve] / [request.reject]: run whoever awaits the handle. *)
Definition settle (clk : Z) (r : Settled) (request : Request.t) (st : State)
    : State * list Action :=
  match awaiters st !! Request.handle request with
  | Some k => resume clk r k (set_awaiters (delete (Request.handle request)) st)
  | None => (st, [])
  end.

(** ** processRequestQueue *)

(** [this.makeAPICall(request.method, request.params)] is issued. *)
Definition dispatch (request : Request.t) (st : State) : State * list Action :=
  (set_calling (λ _, Some request) st, [Upstream request]).

(** The [while] loop, from its test up to the next suspension. *)
Definition drainLoop (now : Z) (st : State) : State * list Action :=
  match requestQueue st with
  | [] =>
      (setTimer ProcessQueue 1000 false now
         (set_isProcessingQueue (λ _, false) st), [])
  | request :: rest =>
      let st1 := set_requestQueue (λ _, rest) st in
      let timeSinceLastRequest := now - lastRequestTime st1 in
      if bool_decide (timeSinceLastRequest < requestDelay) then
        (setTimer (QueueDelay request) (requestDelay - timeSinceLastRequest)
           false now st1, [])
      else dispatch request st1
  end.

Definition processRequestQueue (now : Z) (st : State) : State * list Action :=
  if isProcessingQueue st
     || match requestQueue st with [] => true | _ => false end
  then (setTimer ProcessQueue 1000 false now st, [])
  else drainLoop now (set_isProcessingQueue (λ _, true) st).

(** The tail of the [try] block: [lastRequestTime] and [requestCount] move
    only when the call did not throw. *)
Definition noteCall (clk : Z) (r : Settled) (st : State) : State :=
  match r with
  | Resolved _ => set_requestCount Z.succ (set_lastRequestTime (λ _, clk) st)
  | Rejected _ => st
  end.

(** The awaited call settles: the request's promise is settled, the counters
    are updated, the loop pauses 200 ms, and the awaiting function resumes. *)
Definition onSettled (clk : Z) (o : HttpOutcome) (st : State)
    : State * list Action :=
  match calling st with
  | None => (st, [])
  | Some request =>
      let r := makeAPICall o in
      settle clk r request
        (setTimer QueueGap 200 false clk
           (noteCall clk r (set_calling (λ _, None) st)))
  end.

(** ** Stream registry *)

Fixpoint join (sep : string) (l : list string) : string :=
  match l with
  | [] => ""
  | [x] => x
  | x :: r => x +:+ sep +:+ join sep r
  end.

Definition startStream (now : Z) (streamName : Name) (requestingClient : nat)
    (st : State) : State * list Action :=
  match getProp apiMethods (keyOf streamName) with
  | Undefined =>
      (st, [Send requestingClient
              (ErrorMessage ("Unknown stream: " +:+ keyOf streamName +:+
                             ". Available: " +:+ join ", " apiMethodKeys))])
  | found =>
      let config := match found with Own c => c | _ => Config.empty end in
      let '(st', out) :=
        match activeStreams st !! streamName with
        | Some _ => (st, [])
        | None =>
            let intervalId := nextId st in
            let st1 :=
              setTimer (StreamTick streamName intervalId)
                (timerDelay (Config.interval config)) true now st in
            let st2 := set_configs (insert intervalId config) st1 in
            let st3 :=
              set_activeStreams
                (insert streamName
                   {| Stream.intervalId := intervalId;
                      Stream.config := intervalId;
                      Stream.startTime := now;
                      Stream.requestCount := 0 |}) st2 in
            fetchAndBroadcastOptimized now streamName intervalId st3
        end in
      (st', out ++ [Send requestingClient
                      (StreamStarted streamName (Config.interval config))])
  end.

Definition stopStream (streamName : Name) (requestingClient : nat)
    (st : State) : State * list Action :=
  match activeStreams st !! streamName with
  | Some stream =>
      (set_activeStreams (delete streamName)
         (clearInterval (Stream.intervalId stream) st),
       [Send requestingClient
          (StreamStopped streamName (Stream.requestCount stream))])
  | None => (st, [])
  end.

Definition stopAllStreams (st : State) : State :=
  set_activeStreams (λ _, ∅)
    (set_timers
       (λ t, foldr (λ kv acc, delete (Stream.intervalId kv.2) acc) t
               (map_to_list (activeStreams st))) st).

Definition getCurrentBlock (now : Z) (requestingClient : nat) (st : State)
    : State * list Action :=
  (st, [Send requestingClient (CurrentBlock (currentBlock st) now)]).

Definition getAPIStats (now : Z) (requestingClient : nat) (st : State)
    : State * list Action :=
  (st, [Send requestingClient
          (ApiStats (requestCount st) (size (activeStreams st))
             (length (filter (λ kv, is_Some (Cache.data kv.2))
                        (map_to_list (cache st)))) now)]).

Definition messageTypes : list string :=
  [ "start_stream"; "stop_stream"; "get_current_block"; "get_api_stats" ].

(** [data.stream] as the value [JSON.parse] built for this message.  An
    array or object is new, so its reference is one that nothing in the
    state holds: the first unused id.  (The reference is used up only if
    the value is stored, which [startStream] does together with a
    [setInterval] that takes the same id.) *)
Definition streamValue (stream : Json) (st : State) : Name :=
  match stream with
  | JString s => NString s
  | JPrimitive key => NPrimitive key
  | JObject key => NObject (nextId st) key
  end.

Definition handleClientMessage (now : Z) (ws : nat) (data : ClientMsg)
    (st : State) : State * list Action :=
  match data with
  | start_stream stream => startStream now (streamValue stream st) ws st
  | stop_stream stream => stopStream (streamValue stream st) ws st
  | get_current_block => getCurrentBlock now ws st
  | get_api_stats => getAPIStats now ws st
  | other_type type =>
      (st, [Send ws (UnknownType ("Unknown message type: " +:+ type)
                       messageTypes)])
  | not_json => (st, [Send ws InvalidJson])
  end.

(** ** Socket events *)

Definition addClient (ws : nat) (l : list nat) : list nat :=
  if bool_decide (ws ∈ l) then l else l ++ [ws].

Definition deleteClient (ws : nat) (l : list nat) : list nat :=
  filter (λ x, x ≠ ws) l.

Definition onConnection (now : Z) (ws : nat) (st : State) : State * list Action :=
  let st1 := set_openSockets (λ o, {[ws]} ∪ o) (set_clients (addClient ws) st) in
  (st1, [Send ws (Welcome (currentBlock st1) apiMethodKeys
                    maxRequestsPerMinute now)]).

Definition onClose (ws : nat) (st : State) : State * list Action :=
  let st1 :=
    set_openSockets (λ o, o ∖ {[ws]}) (set_clients (deleteClient ws) st) in
  if decide (length (clients st1) = 0%nat) then (stopAllStreams st1, [])
  else (st1, []).

Definition onError (ws : nat) (st : State) : State * list Action :=
  (set_clients (deleteClient ws) st, []).

(** ** Timer callbacks *)

Definition onTimer (now : Z) (id : nat) (st : State) : State * list Action :=
  match timers st !! id with
  | None => (st, [])
  | Some t =>
      let st0 :=
        if Timer.repeat t then set_timers (insert id (Timer.rearm now t)) st
        else set_timers (delete id) st in
      match Timer.task t with
      | StreamTick streamName config =>
          fetchAndBroadcastOptimized now streamName config st0
      | ResetCounter => (set_requestCount (λ _, 0) st0, [])
      | AutoFetch =>
          (queueAPICall (Some globalPropsMethod) (Some []) AwaitAuto st0, [])
      | TestConnection =>
          (queueAPICall (Some globalPropsMethod) (Some []) AwaitTest st0, [])
      | ProcessQueue => processRequestQueue now st0
      | QueueDelay request => dispatch request st0
      | QueueGap => drainLoop now st0
      end
  end.

(** ** The event loop *)

Inductive Event : Type :=
  | Connect (ws : nat)                 (* wss 'connection' *)
  | Message (ws : nat) (m : ClientMsg) (* ws 'message' *)
  | Closing (ws : nat)                 (* the socket leaves the OPEN state *)
  | Close (ws : nat)                   (* ws 'close' *)
  | SocketError (ws : nat)             (* ws 'error' *)
  | Fire (id : nat)                    (* a timer is due *)
  | Settle (o : HttpOutcome).          (* the upstream exchange ends *)

Definition step (now : Z) (ev : Event) (st : State) : State * list Action :=
  match ev with
  | Connect ws => onConnection now ws st
  | Message ws m => handleClientMessage now ws m st
  | Closing ws => (set_openSockets (λ o, o ∖ {[ws]}) st, [])
  | Close ws => onClose ws st
  | SocketError ws => onError ws st
  | Fire id => onTimer now id st
  | Settle o => onSettled now o st
  end.

(** The state the constructor leaves: the counter-reset interval (timer 0),
    the first queue poll (timer 1), the connection test (timer 2). *)
Definition init : State :=
  let st :=
    {| clients := []; openSockets := ∅; currentBlock := Some 0;
       activeStreams := ∅; requestCount := 0; lastRequestTime := 0;
       requestQueue := []; isProcessingQueue := false;
       cache := initialCache; configs := ∅; timers := ∅; awaiters := ∅;
       calling := None; nextId := 0%nat |} in
  setTimer TestConnection 3000 false 0
    (setTimer ProcessQueue 1000 false 0
       (setTimer ResetCounter 60000 true 0 st)).

(** A run: the state after a list of timed events and the log of actions,
    each with the clock value of the callback that produced it. *)
Fixpoint run (tr : list (Z * Event)) (st : State) : State * list (Z * Action) :=
  match tr with
  | [] => (st, [])
  | (now, ev) :: tr' =>
      let '(st1, out) := step now ev st in
      let '(st2, log) := run tr' st1 in
      (st2, map (λ a, (now, a)) out ++ log)
  end.

(** Whether the event loop can deliver [ev] at clock [now]. *)
Definition enabled (now : Z) (ev : Event) (st : State) : bool :=
  match ev with
  | Connect ws => bool_decide (ws ∉ clients st)
  | Message ws _ => bool_decide (ws ∈ clients st) && bool_decide (ws ∈ openSockets st)
  | Closing ws => bool_decide (ws ∈ openSockets st)
  | Close ws => bool_decide (ws ∈ clients st)
  | SocketError ws => true
  | Fire id =>
      match timers st !! id with
      | Some t => bool_decide (Timer.armed t + Timer.delay t <= now)
      | None => false
      end
  | Settle _ => match calling st with Some _ => true | None => false end
  end.

(** No timer other than the one firing is overdue at [now]: the event loop
    runs a due timer before anything that happens later. *)
Definition punctual (now : Z) (ev : Event) (st : State) : bool :=
  forallb
    (λ kv, match ev with
           | Fire id => bool_decide (kv.1 = id)
           | _ => false
           end
           || bool_decide (now <= Timer.armed kv.2 + Timer.delay kv.2))
    (map_to_list (timers st)).

(** A trace is an execution from [st] after clock [clk]: the clock never
    goes back, every event is enabled when it is delivered, and no timer is
    left overdue. *)
Fixpoint execution (clk : Z) (tr : list (Z * Event)) (st : State) : bool :=
  match tr with
  | [] => true
  | (now, ev) :: tr' =>
      bool_decide (clk <= now) && enabled now ev st && punctual now ev st
      && execution now tr' (step now ev st).1
  end.

(** ** Observations used by the statements *)

(** Whether a pending continuation belongs to a refresh cycle of [s]. *)
Definition awaitsStream (s : Name) (k : Awaiter) : bool :=
  match k with
  | AwaitGlobalProps s' _ _ | AwaitFetch s' _ _ => bool_decide (s' = s)
  | AwaitTest | AwaitAuto => false
  end.

(** Refresh cycles of [s] that wait for an upstream answer. *)
Definition inFlight (s : Name) (st : State) : nat :=
  length (filter (λ kv, awaitsStream s kv.2) (map_to_list (awaiters st))).

(** Clock values at which upstream calls were issued. *)
Definition dispatchTimes (log : list (Z * Action)) : list Z :=
  omap (λ ta, match ta.2 with Upstream _ => Some ta.1 | Send _ _ => None end) log.

(** The subscribers of a stream in the sense of the specification: the
    sockets that asked for the stream and have neither asked to stop it nor
    closed.  The engine keeps no such set; this is computed from the trace. *)
Definition subscribe (s : Json) (ev : Event) (subs : list nat) : list nat :=
  match ev with
  | Message ws (start_stream s') =>
      if bool_decide (s' = s) then addClient ws subs else subs
  | Message ws (stop_stream s') =>
      if bool_decide (s' = s) then deleteClient ws subs else subs
  | Close ws => deleteClient ws subs
  | _ => subs
  end.

Definition subscribers (s : Json) (tr : list (Z * Event)) : list nat :=
  foldl (λ subs te, subscribe s te.2 subs) [] tr.

(** A failure below the JSON-RPC level, with the message the [catch] block
    receives. *)
Definition transportFailure (o : HttpOutcome) : option string :=
  match o with
  | ConnectionError m => Some m
  | BadBody m => Some m
  | TimedOut => Some ("Timeout connecting to " +:+ apiEndpoint)
  | JsonBody _ _ => None
  end.

(** The event [ev] delivers the answer of a refresh cycle that writes the
    cache entry [s] and is waiting at its own upstream call. *)
Definition completesFetch (s : string) (ev : Event) (st : State) : bool :=
  match ev, calling st with
  | Settle _, Some request =>
      match awaiters st !! Request.handle request with
      | Some (AwaitFetch s' _ _) => bool_decide (keyOf s' = s)
      | _ => false
      end
  | _, _ => false
  end.

(** No event of the trace delivers the answer of a refresh of [s]. *)
Fixpoint undisturbed (s : string) (tr : list (Z * Event)) (st : State) : bool :=
  match tr with
  | [] => true
  | (now, ev) :: tr' =>
      negb (completesFetch s ev st) && undisturbed s tr' (step now ev st).1
  end.

(** ** Invariant and reachability *)

(** Timer ids and promise handles at or above [nextId] are unused. *)
Definition fresh (st : State) : Prop :=
  ∀ i, (nextId st ≤ i)%nat → timers st !! i = None ∧ awaiters st !! i = None.

Inductive reachable : State → Prop :=
  | reachable_init : reachable init
  | reachable_step now ev st : reachable st → reachable (step now ev st).1.

(** ** Scenarios

    Timer ids and handles are allocated in order: the constructor takes 0,
    1 and 2, the first [start_stream] gets timer 3 and handle 4. *)

Definition connectFirst : list (Z * Event) := [ (5, Connect 0%nat) ].

Definition afterConnect : State := (run connectFirst init).1.

Definition samplePayload : Payload :=
  {| head_block_number := Some 90000000; body := "{...}" |}.

Definition answer : Event := Settle (JsonBody (Some samplePayload) None).

Definition refused : Event := Settle (ConnectionError "connect ECONNREFUSED").

Definition hangUp : Event := Settle (ConnectionError "socket hang up").

(** A stream is started at 100 and its call issued at 1000. *)
Definition fetchIssued : list (Z * Event) :=
  connectFirst
  ++ [ (100, Message 0%nat (start_stream (JString "dynamic_global_properties")));
       (1000, Fire 1%nat) ].

(** The answer arrives at 1300 and is written to the cache. *)
Definition warmState : State := (run (fetchIssued ++ [ (1300, answer) ]) init).1.

(** The upstream answers slowly: the call issued at 1000 is still
    unanswered when the connection test fires at 3000. *)
Definition slowUpstream : list (Z * Event) :=
  fetchIssued ++ [ (3000, Fire 2%nat) ].


(** After the value is cached the queue loop ends (timer 5), the only
    client stops the stream, a second client connects, the queue is polled
    (timers 6 and 7) and the connection test fires (timer 2). *)
Definition stopThenOthers : list (Z * Event) :=
  [ (1500, Fire 5%nat);
    (1600, Message 0%nat (stop_stream (JString "dynamic_global_properties")));
    (2000, Connect 1%nat);
    (2500, Fire 6%nat);
    (3000, Fire 2%nat);
    (3500, Fire 7%nat) ].

(** One client starts and stops a stream sixty-one times within 0.7 s; each
    start finds an empty cache and queues a request. *)
Definition startStopFlood : list (Z * Event) :=
  flat_map
    (λ i : nat,
       [ (10 + 10 * Z.of_nat i,
          Message 0%nat (start_stream (JString "dynamic_global_properties")));
         (15 + 10 * Z.of_nat i,
          Message 0%nat (stop_stream (JString "dynamic_global_properties"))) ])
    (seq 0 61).

(** [n] rounds of the drain loop against an upstream that refuses the
    connection after 5 ms: the call is rejected, the 200 ms pause (timer
    [id0 + k]) elapses, the next call is issued. *)
Definition refusedRounds (t0 : Z) (id0 : nat) (n : nat) : list (Z * Event) :=
  flat_map
    (λ k : nat,
       [ (t0 + 205 * Z.of_nat k + 5, refused);
         (t0 + 205 * Z.of_nat k + 205, Fire (id0 + k)%nat) ])
    (seq 0 n).

(** The flood, then the queue drained while the upstream refuses every
    call; the connection test (timer 2) fires on time at 3000. *)
Definition refusedBurst : list (Z * Event) :=
  connectFirst ++ startStopFlood ++ [ (1000, Fire 1%nat) ]
  ++ refusedRounds 1000 125 9
  ++ [ (2850, refused); (3000, Fire 2%nat); (3050, Fire 134%nat) ]
  ++ refusedRounds 3050 136 50.

(** Two clients ask for the same stream, then the first asks to stop it. *)
Definition twoClientsJoin : list (Z * Event) :=
  [ (5, Connect 0%nat); (6, Connect 1%nat);
    (100, Message 0%nat (start_stream (JString "block")));
    (200, Message 1%nat (start_stream (JString "block"))) ].

Definition firstClientStops : list (Z * Event) :=
  twoClientsJoin ++ [ (300, Message 0%nat (stop_stream (JString "block"))) ].

(** ** Further observations and invariants *)

(** The property key of a [stream] value. *)
Definition jsonKey (v : Json) : string :=
  match v with
  | JString s => s
  | JPrimitive key => key
  | JObject key => key
  end.

(** The config copy [startStream] makes for a name that passed its guard. *)
Definition catalogueConfig (s : string) : Config.t :=
  match getProp apiMethods s with
  | Own c => c
  | _ => Config.empty
  end.

(** Timers that carry the drain loop of the request queue from one
    suspension to the next. *)
Definition isDrainTask (k : TimerTask) : bool :=
  match k with
  | ProcessQueue | QueueDelay _ | QueueGap => true
  | _ => false
  end.

Definition drainTimers (tm : gmap nat Timer.t) : nat :=
  length (filter (λ kv, isDrainTask (Timer.task kv.2)) (map_to_list tm)).

Definition callCount (call : option Request.t) : nat :=
  match call with Some _ => 1%nat | None => 0%nat end.

(** There is one drain loop: it is either waiting on exactly one of its
    timers or awaiting exactly one upstream call; its timers are one-shot,
    and a spacing wait ends [requestDelay] after [lastRequestTime]. *)
Definition drainInv (tm : gmap nat Timer.t) (call : option Request.t)
    (last : Z) : Prop :=
  (drainTimers tm + callCount call = 1)%nat
  ∧ (∀ id t, tm !! id = Some t → isDrainTask (Timer.task t) = true →
             Timer.repeat t = false)
  ∧ (∀ id t r, tm !! id = Some t → Timer.task t = QueueDelay r →
               Timer.armed t + Timer.delay t = last + requestDelay).

Definition drainOK (st : State) : Prop :=
  drainInv (timers st) (calling st) (lastRequestTime st).

(** Registry and stream timers mirror each other: an active stream has its
    repeating timer, armed with the catalogue interval, and a stream timer
    belongs to the registry entry of its stream. *)
Definition registryInv (tm : gmap nat Timer.t) (act : gmap Name Stream.t)
    : Prop :=
  (∀ s a, act !! s = Some a →
     ∃ t, tm !! Stream.intervalId a = Some t
          ∧ Timer.task t = StreamTick s (Stream.config a)
          ∧ Timer.repeat t = true
          ∧ Timer.delay t
            = timerDelay (Config.interval (catalogueConfig (keyOf s))))
  ∧ (∀ id t s c, tm !! id = Some t → Timer.task t = StreamTick s c →
       ∃ a, act !! s = Some a ∧ Stream.intervalId a = id).

Definition registryOK (st : State) : Prop :=
  registryInv (timers st) (activeStreams st).

Definition consistent (st : State) : Prop :=
  fresh st ∧ registryOK st ∧ drainOK st ∧ NoDup (clients st).

(** Every action is a message to a socket that is connected and OPEN. *)
Definition pushesOnly (st : State) (out : list Action) : Prop :=
  Forall (λ a, ∃ ws m, a = Send ws m ∧ ws ∈ clients st ∧ ws ∈ openSockets st)
         out.

(** Handles of the requests handed to the upstream, in the order of the
    log.  Handles are allocated by [queueAPICall] from the increasing
    counter, so handle order is the order of queueing. *)
Definition dispatchedHandles (log : list (Z * Action)) : list nat :=
  omap (λ ta, match ta.2 with
              | Upstream r => Some (Request.handle r)
              | Send _ _ => None
              end) log.

(** The queue is ordered by handle, above the bound [b]; a request parked
    in a spacing wait precedes the whole queue. *)
Definition queueInv (b : nat) (st : State) : Prop :=
  StronglySorted lt (map Request.handle (requestQueue st))
  ∧ (∀ q, q ∈ requestQueue st → (b < Request.handle q < nextId st)%nat)
  ∧ (∀ id t r, timers st !! id = Some t → Timer.task t = QueueDelay r →
       (b < Request.handle r < nextId st)%nat
       ∧ ∀ q, q ∈ requestQueue st → (Request.handle r < Request.handle q)%nat)
  ∧ (b < nextId st)%nat.

(** From [st] to [st'] requests were only appended, with new handles, and
    no spacing wait was started. *)
Definition appendOnly (st st' : State) : Prop :=
  (nextId st ≤ nextId st')%nat
  ∧ (∃ new, requestQueue st' = requestQueue st ++ new
            ∧ StronglySorted lt (map Request.handle new)
            ∧ ∀ q, q ∈ new → (nextId st ≤ Request.handle q < nextId st')%nat)
  ∧ (∀ id t r, timers st' !! id = Some t → Timer.task t = QueueDelay r →
               timers st !! id = Some t).

(** ** Further scenarios *)

Definition streamStarted : list (Z * Event) :=
  connectFirst
  ++ [ (100, Message 0%nat (start_stream (JString "dynamic_global_properties"))) ].

Definition firstRequest : Request.t :=
  {| Request.method := Some "condenser_api.get_dynamic_global_properties";
     Request.params := Some []; Request.handle := 4 |}.

(** After the first answer (1300) a second stream is started; when the
    200 ms pause ends (timer 5, at 1500) its request has to wait until
    2300, a second after the answer (timer 8). *)
Definition secondCallParked : list (Z * Event) :=
  fetchIssued
  ++ [ (1300, answer);
       (1400, Message 0%nat (start_stream (JString "block_header")));
       (1500, Fire 5%nat) ].

Definition secondRequest : Request.t :=
  {| Request.method := Some "condenser_api.get_block_header";
     Request.params := Some [Some 90000000]; Request.handle := 7 |}.

(** Replies to the client that sent the message or just connected, as
    opposed to pushes about a stream. *)
Definition isReply (m : Msg) : bool :=
  match m with
  | LiveData _ _ _ _ _ | StreamError _ _ _ | FetchError _ _ _ => false
  | _ => true
  end.

Definition blockSeedIssued : list (Z * Event) :=
  twoClientsJoin ++ [ (1000, Fire 1%nat) ].

(** A pending continuation or a stream timer holds config copy [c] for
    stream [s]. *)
Definition refersTo (st : State) (s : Name) (c : nat) : Prop :=
  (∃ h n, awaiters st !! h = Some (AwaitFetch s c n)
          ∨ awaiters st !! h = Some (AwaitGlobalProps s c n))
  ∨ (∃ id t, timers st !! id = Some t ∧ Timer.task t = StreamTick s c).

(** A config copy in use was allocated, and its processor is still the one
    of the catalogue entry it was copied from. *)
Definition configHeld (st : State) (s : Name) (c : nat) : Prop :=
  (c < nextId st)%nat
  ∧ Config.processor (lookupConfig st c)
    = Config.processor (catalogueConfig (keyOf s)).

Definition configsOK (st : State) : Prop :=
  ∀ s c, refersTo st s c → configHeld st s c.

(** ** The start-up chain

    [initializeConnection] schedules the connection test;
    [testSteemConnection] awaits one call and then either starts the
    auto-fetch interval, schedules a retry, or (on an answer without a head
    block number) does neither. *)

Definition isStartupTask (k : TimerTask) : bool :=
  match k with
  | TestConnection | AutoFetch => true
  | _ => false
  end.

Definition isTestAwaiter (a : Awaiter) : bool :=
  match a with
  | AwaitTest => true
  | _ => false
  end.

(** What keeps the chain going: the timer of a scheduled connection test or
    of the auto-fetch interval ([inl id]), or a connection test that awaits
    its call ([inr handle]). *)
Definition startup (st : State) (x : nat + nat) : Prop :=
  match x with
  | inl id =>
      ∃ t, timers st !! id = Some t ∧ isStartupTask (Timer.task t) = true
  | inr h => ∃ a, awaiters st !! h = Some a ∧ isTestAwaiter a = true
  end.

(** The chain has ended: no such timer and no such awaiter is left. *)
Definition startupOver (st : State) : bool :=
  forallb (λ kv, negb (isStartupTask (Timer.task kv.2))) (map_to_list (timers st))
  && forallb (λ kv, negb (isTestAwaiter kv.2)) (map_to_list (awaiters st)).

(** A scheduled connection test is a [setTimeout]. *)
Definition testsOneShot (st : State) : Prop :=
  ∀ id t, timers st !! id = Some t → Timer.task t = TestConnection →
          Timer.repeat t = false.

(** [st'] has no start-up timer and no awaiting test that [st] lacks. *)
Definition quiet (st st' : State) : Prop :=
  (∀ id t, timers st' !! id = Some t → isStartupTask (Timer.task t) = true →
     ∃ t0, timers st !! id = Some t0 ∧ Timer.task t0 = Timer.task t
           ∧ Timer.repeat t0 = Timer.repeat t)
  ∧ (∀ h a, awaiters st' !! h = Some a → isTestAwaiter a = true →
            awaiters st !! h = Some a).

Definition startupInv (st : State) : Prop :=
  testsOneShot st ∧ ∀ x y, startup st x → startup st y → x = y.

(** The connection test runs at 3000 and its call is issued at once (the
    queue polls at 1000, 2000 and 3000 come first). *)
Definition testIssued : list (Z * Event) :=
  [ (1000, Fire 1%nat); (2000, Fire 3%nat); (3000, Fire 2%nat);
    (3000, Fire 4%nat) ].

(** The test is answered with a head block number. *)
Definition testPassed : list (Z * Event) := testIssued ++ [ (3300, answer) ].

(** The test is answered with a result that has no head block number. *)
Definition testUnexpected : list (Z * Event) :=
  testIssued
  ++ [ (3300, Settle (JsonBody (Some {| head_block_number := None;
                                        body := "{}" |}) None)) ].

(** ** Stream names that are not strings *)

(** The array [["block"]]: as a property key it is ["block"]. *)
Definition blockArray : Json := JObject "block".

(** One client sends [{"type":"start_stream","stream":["block"]}] twice. *)
Definition arrayStartedOnce : list (Z * Event) :=
  [ (5, Connect 0%nat); (100, Message 0%nat (start_stream blockArray)) ].

Definition arrayStartedTwice : list (Z * Event) :=
  arrayStartedOnce ++ [ (200, Message 0%nat (start_stream blockArray)) ].

(** No array or object in the registry has a reference that is still
    unused. *)
Definition refsOK (st : State) : Prop :=
  ∀ ref key a, activeStreams st !! NObject ref key = Some a →
               (ref < nextId st)%nat.

(** ** Overlapping fetches of one stream *)

Definition firstPayload : Payload :=
  {| head_block_number := Some 90000000; body := "first" |}.

Definition secondPayload : Payload :=
  {| head_block_number := Some 90000001; body := "second" |}.

(** A client starts a stream, stops it and starts it again before the
    queue is first polled: two refresh cycles of the stream are waiting.
    The first answer arrives at 1300; the second call has to wait until
    2300 and is answered at 2600.  The client re-joins at 2000 and at 2950
    and is served from the cache both times. *)
Definition firstWritten : list (Z * Event) :=
  [ (5, Connect 0%nat);
    (100, Message 0%nat (start_stream (JString "dynamic_global_properties")));
    (100, Message 0%nat (stop_stream (JString "dynamic_global_properties")));
    (100, Message 0%nat (start_stream (JString "dynamic_global_properties")));
    (1000, Fire 1%nat);
    (1300, Settle (JsonBody (Some firstPayload) None)) ].

Definition rejoin : Event :=
  Message 0%nat (start_stream (JString "dynamic_global_properties")).

Definition beforeFirstRejoin : list (Z * Event) :=
  firstWritten
  ++ [ (1500, Fire 7%nat);
       (1990, Message 0%nat (stop_stream (JString "dynamic_global_properties"))) ].

Definition beforeSecondRejoin : list (Z * Event) :=
  beforeFirstRejoin
  ++ [ (2000, rejoin);
       (2300, Fire 8%nat);
       (2600, Settle (JsonBody (Some secondPayload) None));
       (2800, Fire 10%nat);
       (2940, Message 0%nat (stop_stream (JString "dynamic_global_properties"))) ].

Definition overlappingFetches : list (Z * Event) :=
  beforeSecondRejoin ++ [ (2950, rejoin) ].

(** ** Refresh cycles in a trace *)

(** The callback run for [ev] calls [fetchAndBroadcastOptimized] for
    stream [s] with config copy [c]: [ev] is the tick of a stream timer, or
    a [start_stream] that passes the guard for a value that is not in the
    registry. *)
Definition beginsCycle (ev : Event) (st : State) (s : Name) (c : nat) : bool :=
  match ev with
  | Fire id =>
      match Timer.task <$> timers st !! id with
      | Some (StreamTick s' c') => bool_decide (s' = s) && bool_decide (c' = c)
      | _ => false
      end
  | Message _ (start_stream v) =>
      bool_decide (streamValue v st = s) && bool_decide (nextId st = c)
      && truthyProp (getProp apiMethods (keyOf s))
      && match activeStreams st !! s with None => true | Some _ => false end
  | _ => false
  end.

(** Some event of the trace, delivered at clock [t], begins a refresh cycle
    of [s] with config copy [c]. *)
Fixpoint cycleBegan (t : Z) (s : Name) (c : nat) (tr : list (Z * Event))
    (st : State) : bool :=
  match tr with
  | [] => false
  | (now, ev) :: tr' =>
      (bool_decide (now = t) && beginsCycle ev st s c)
      || cycleBegan t s c tr' (step now ev st).1
  end.

(** A refresh cycle of [s] that read the clock as [n] when it began is
    waiting for an upstream answer. *)
Definition pendingCycle (st : State) (s : Name) (c : nat) (n : Z) : Prop :=
  ∃ h, awaiters st !! h = Some (AwaitFetch s c n)
       ∨ awaiters st !! h = Some (AwaitGlobalProps s c n).



(** The clock of the last event of a trace that starts after [clk]. *)
Definition lastClock (clk : Z) (tr : list (Z * Event)) : Z :=
  foldl (λ _ te, te.1) clk tr.

(** No event of the trace is the close of the last connected socket. *)
Fixpoint someoneStays (tr : list (Z * Event)) (st : State) : bool :=
  match tr with
  | [] => true
  | (now, ev) :: tr' =>
      match ev with
      | Close ws => negb (bool_decide (deleteClient ws (clients st) = []))
      | _ => true
      end
      && someoneStays tr' (step now ev st).1
  end.
(** * Properties *)

(** In a proof about [handleClientMessage], name the value that
    [data.stream] stands for. *)
Ltac stream_name :=
  repeat match goal with
  | v : Json |- _ =>
      match goal with
      | |- context [streamValue v _] => idtac
      | _ : context [streamValue v _] |- _ => idtac
      end;
      let n := fresh "name" in
      set (n := streamValue v _) in *; clearbody n;
      first [clear v; rename n into v | idtac]
  end.

(** ** The catalogue and property lookup *)

Example apiMethods_block :
  Config.interval <$> (apiMethods !! "block") = Some (Some 12000).
Proof. vm_compute. reflexivity. Qed.

Example getProp_constructor :
  truthyProp (getProp apiMethods "constructor") = true.
Proof. vm_compute. reflexivity. Qed.

Example getProp_foo : truthyProp (getProp apiMethods "foo") = false.
Proof. vm_compute. reflexivity. Qed.

(** ** Handles and timer ids are fresh *)

Lemma fresh_setTimer task delay repeat now st :
  fresh st → fresh (setTimer task delay repeat now st).
Proof.
  intros H i Hi. cbn in *. destruct (H i ltac:(lia)) as [Ht Ha].
  split; [|done]. rewrite lookup_insert_ne; [done|lia].
Qed.

Lemma fresh_queueAPICall m p k st : fresh st → fresh (queueAPICall m p k st).
Proof.
  intros H i Hi. cbn in *. destruct (H i ltac:(lia)) as [Ht Ha].
  split; [done|]. rewrite lookup_insert_ne; [done|lia].
Qed.

Lemma fresh_frame st st' :
  nextId st' = nextId st → timers st' = timers st → awaiters st' = awaiters st →
  fresh st → fresh st'.
Proof. intros Hn Ht Ha H i Hi. rewrite Ht, Ha. apply H. lia. Qed.

Lemma fresh_delete_timer id st : fresh st → fresh (set_timers (delete id) st).
Proof.
  intros H i Hi. cbn in *. destruct (H i Hi) as [Ht Ha]. split; [|done].
  rewrite lookup_delete. case_decide; done.
Qed.

Lemma fresh_delete_awaiter h st : fresh st → fresh (set_awaiters (delete h) st).
Proof.
  intros H i Hi. cbn in *. destruct (H i Hi) as [Ht Ha]. split; [done|].
  rewrite lookup_delete. case_decide; done.
Qed.

Lemma fresh_rearm id t now st :
  timers st !! id = Some t → fresh st →
  fresh (set_timers (insert id (Timer.rearm now t)) st).
Proof.
  intros Hid H i Hi. cbn in *. destruct (H i Hi) as [Ht Ha]. split; [|done].
  rewrite lookup_insert_ne; [done|]. intros ->. congruence.
Qed.

Lemma foldr_delete_None {A B} (g : A → nat) (l : list A) (m : gmap nat B) i :
  m !! i = None → foldr (λ x acc, delete (g x) acc) m l !! i = None.
Proof.
  intros H. induction l as [|x l IH]; [done|]. cbn.
  rewrite lookup_delete. case_decide; done.
Qed.

Lemma fresh_stopAllStreams st : fresh st → fresh (stopAllStreams st).
Proof.
  intros H i Hi. cbn in *. destruct (H i Hi) as [Ht Ha]. split; [|done].
  by apply foldr_delete_None.
Qed.

Lemma fresh_fetchAndBroadcastOptimized now s c st :
  fresh st → fresh (fetchAndBroadcastOptimized now s c st).1.
Proof.
  intros H. unfold fetchAndBroadcastOptimized, catchFetch, requestStream.
  destruct (getProp (cache st) (keyOf s)); try done;
    (destruct (cacheHit now _) as [[??]|]; [done|]);
    repeat case_match; cbn [fst];
    try apply fresh_queueAPICall; try done.
Qed.

Lemma fresh_resumeFetch clk r s c now st :
  fresh st → fresh (resumeFetch clk r s c now st).1.
Proof.
  intros H. unfold resumeFetch, catchFetch.
  destruct r as [response|m]; [|done].
  destruct (Response.result response) as [result|]; [|by repeat case_match].
  destruct (Config.processor _) as [f|]; [|done].
  destruct (runProcessor f result st) as [processedData st1] eqn:Hp.
  assert (fresh st1) as H1.
  { destruct f; cbn in Hp; injection Hp as <- <-; done. }
  destruct (getProp (cache st1) (keyOf s)); [| |done];
    cbn; (destruct (activeStreams st1 !! s); done).
Qed.

Lemma fresh_resume clk r k st : fresh st → fresh (resume clk r k st).1.
Proof.
  intros H. destruct k; cbn [resume].
  - unfold resumeGlobalProps, catchFetch, requestStream.
    destruct r; [|done]. cbn [fst]. apply fresh_queueAPICall.
    by destruct (Response.result _).
  - by apply fresh_resumeFetch.
  - destruct r; [|by apply fresh_setTimer].
    repeat case_match; try done. by apply fresh_setTimer.
  - by repeat case_match.
Qed.

Lemma fresh_settle clk r request st : fresh st → fresh (settle clk r request st).1.
Proof.
  intros H. unfold settle. destruct (awaiters st !! _); [|done].
  by apply fresh_resume, fresh_delete_awaiter.
Qed.

Lemma fresh_drainLoop now st : fresh st → fresh (drainLoop now st).1.
Proof.
  intros H. unfold drainLoop, dispatch.
  destruct (requestQueue st); [by apply fresh_setTimer|].
  case_bool_decide; [by apply fresh_setTimer|done].
Qed.

Lemma fresh_onSettled clk o st : fresh st → fresh (onSettled clk o st).1.
Proof.
  intros H. unfold onSettled. destruct (calling st); [|done].
  apply fresh_settle, fresh_setTimer. unfold noteCall. by case_match.
Qed.

Lemma fresh_startStream now s ws st : fresh st → fresh (startStream now s ws st).1.
Proof.
  intros H. unfold startStream.
  destruct (getProp apiMethods (keyOf s)); [| |done];
    (destruct (activeStreams st !! s); [done|]);
    match goal with
    | |- context [fetchAndBroadcastOptimized ?n ?s ?c ?x] =>
        pose proof (fresh_fetchAndBroadcastOptimized n s c x) as Hf;
        destruct (fetchAndBroadcastOptimized n s c x); cbn [fst] in *;
        apply Hf
    end; by apply (fresh_setTimer _ _ _ _ st).
Qed.

Lemma fresh_stopStream s ws st : fresh st → fresh (stopStream s ws st).1.
Proof.
  intros H. unfold stopStream. destruct (activeStreams st !! s); [|done].
  by apply (fresh_delete_timer _ st).
Qed.

Lemma fresh_onTimer now id st : fresh st → fresh (onTimer now id st).1.
Proof.
  intros H. unfold onTimer. destruct (timers st !! id) as [t|] eqn:Ht; [|done].
  set (st0 := if Timer.repeat t then _ else _).
  assert (fresh st0) as H0.
  { subst st0. destruct (Timer.repeat t);
      [by apply fresh_rearm | by apply fresh_delete_timer]. }
  clearbody st0. destruct (Timer.task t).
  - by apply fresh_fetchAndBroadcastOptimized.
  - done.
  - by apply fresh_queueAPICall.
  - by apply fresh_queueAPICall.
  - unfold processRequestQueue. case_match; [by apply fresh_setTimer|].
    by apply fresh_drainLoop.
  - done.
  - by apply fresh_drainLoop.
Qed.

Lemma fresh_step now ev st : fresh st → fresh (step now ev st).1.
Proof.
  intros H. destruct ev as [ws|ws m|ws|ws|ws|id|o]; cbn [step].
  - done.
  - destruct m; cbn [handleClientMessage]; try done; stream_name.
    + by apply fresh_startStream.
    + by apply fresh_stopStream.
  - done.
  - unfold onClose. case_decide; [|done]. by apply fresh_stopAllStreams.
  - done.
  - by apply fresh_onTimer.
  - by apply fresh_onSettled.
Qed.

Lemma fresh_init : fresh init.
Proof.
  intros i Hi. cbn in Hi. split; [|done]. cbn.
  rewrite !lookup_insert_ne by lia. done.
Qed.

Lemma reachable_fresh st : reachable st → fresh st.
Proof. induction 1; [apply fresh_init | by apply fresh_step]. Qed.

(** ** What touches the cache *)

Lemma cache_fetchAndBroadcastOptimized now s c st :
  cache (fetchAndBroadcastOptimized now s c st).1 = cache st.
Proof.
  unfold fetchAndBroadcastOptimized, catchFetch, requestStream.
  by repeat case_match.
Qed.

Lemma cache_startStream now s ws st : cache (startStream now s ws st).1 = cache st.
Proof.
  unfold startStream.
  destruct (getProp apiMethods (keyOf s)); [| |done];
    (destruct (activeStreams st !! s); [done|]);
    match goal with
    | |- context [fetchAndBroadcastOptimized ?n ?s ?c ?x] =>
        pose proof (cache_fetchAndBroadcastOptimized n s c x) as Hf;
        destruct (fetchAndBroadcastOptimized n s c x); cbn [fst] in *;
        by rewrite Hf
    end.
Qed.

Lemma cache_stopStream s ws st : cache (stopStream s ws st).1 = cache st.
Proof. unfold stopStream. by case_match. Qed.

Lemma cache_drainLoop now st : cache (drainLoop now st).1 = cache st.
Proof. unfold drainLoop, dispatch. by repeat case_match. Qed.

Lemma cache_onTimer now id st : cache (onTimer now id st).1 = cache st.
Proof.
  unfold onTimer. destruct (timers st !! id) as [t|]; [|done].
  set (st0 := if Timer.repeat t then _ else _).
  assert (cache st0 = cache st) as <- by (subst st0; by case_match).
  clearbody st0. destruct (Timer.task t); try done.
  - apply cache_fetchAndBroadcastOptimized.
  - unfold processRequestQueue. case_match; [done|].
    by rewrite cache_drainLoop.
  - apply cache_drainLoop.
Qed.

Lemma cache_resumeFetch_other clk r s' c now st s :
  keyOf s' ≠ s → cache (resumeFetch clk r s' c now st).1 !! s = cache st !! s.
Proof.
  intros Hne. unfold resumeFetch, catchFetch.
  destruct r as [response|m]; [|done].
  destruct (Response.result response) as [result|]; [|by repeat case_match].
  destruct (Config.processor _) as [f|]; [|done].
  destruct (runProcessor f result st) as [processedData st1] eqn:Hp.
  assert (cache st1 = cache st) as Hc.
  { destruct f; cbn in Hp; injection Hp as <- <-; done. }
  rewrite <- Hc.
  destruct (getProp (cache st1) (keyOf s')); [| |done];
    cbn; (destruct (activeStreams st1 !! s'); cbn; by rewrite lookup_insert_ne).
Qed.

Lemma awaiters_noteCall clk r st : awaiters (noteCall clk r st) = awaiters st.
Proof. by destruct r. Qed.

Lemma cache_noteCall clk r st : cache (noteCall clk r st) = cache st.
Proof. by destruct r. Qed.

Lemma cache_step_other now ev st s :
  completesFetch s ev st = false → cache (step now ev st).1 !! s = cache st !! s.
Proof.
  intros Hq. destruct ev as [ws|ws m|ws|ws|ws|id|o]; cbn [step].
  - done.
  - destruct m; cbn [handleClientMessage]; try done; stream_name.
    + by rewrite cache_startStream.
    + by rewrite cache_stopStream.
  - done.
  - unfold onClose. by case_decide.
  - done.
  - by rewrite cache_onTimer.
  - unfold onSettled, completesFetch in *.
    destruct (calling st) as [request|]; [|done].
    set (r := makeAPICall o). unfold settle.
    cbn [awaiters setTimer set_nextId set_timers].
    rewrite awaiters_noteCall. cbn [awaiters set_calling].
    destruct (awaiters st !! Request.handle request) as [k|] eqn:Hk;
      [|cbn; by rewrite ?cache_noteCall].
    destruct k as [s' c n|s' c n| |]; cbn [resume].
    + unfold resumeGlobalProps, catchFetch, requestStream.
      repeat case_match; cbn; by rewrite ?cache_noteCall.
    + rewrite cache_resumeFetch_other by (by case_bool_decide).
      cbn. by rewrite ?cache_noteCall.
    + repeat case_match; cbn; by rewrite ?cache_noteCall.
    + repeat case_match; cbn; by rewrite ?cache_noteCall.
Qed.

(** ** Serving from the cache *)

Lemma broadcast_sends data st :
  broadcast data st =
  map (λ ws, Send ws data) (filter (λ ws, ws ∈ openSockets st) (clients st)).
Proof.
  unfold broadcast. case_decide as H; [|done].
  by destruct (clients st).
Qed.

Lemma fetch_on_fresh_cache now s c e d ttl st :
  cache st !! keyOf s = Some e → Cache.data e = Some d → Cache.ttl e = Some ttl →
  now - Cache.timestamp e < ttl →
  fetchAndBroadcastOptimized now s c st =
  (st, broadcast (LiveData s d true (Some (now - Cache.timestamp e)) now) st).
Proof.
  intros He Hd Ht Hlt. unfold fetchAndBroadcastOptimized, getProp, cacheHit.
  rewrite He, Hd, Ht. by rewrite bool_decide_eq_true_2.
Qed.

(** C3: a scheduler tick that finds a present cached value younger than its
    TTL enqueues nothing, dispatches nothing and leaves the cache alone; its
    only effect is to send the cached value, unchanged and flagged
    [cached: true], to the connected open sockets. *)
Theorem tick_on_fresh_cache_serves_cached
    (now : Z) (id : nat) (t : Timer.t) (s : Name) (c : nat)
    (e : Cache.t) (d : Payload) (ttl : Z) (st : State) :
  timers st !! id = Some t → Timer.task t = StreamTick s c →
  cache st !! keyOf s = Some e → Cache.data e = Some d → Cache.ttl e = Some ttl →
  now - Cache.timestamp e < ttl →
  let st' := (step now (Fire id) st).1 in
  let out := (step now (Fire id) st).2 in
  requestQueue st' = requestQueue st ∧ awaiters st' = awaiters st
  ∧ calling st' = calling st ∧ cache st' = cache st
  ∧ out = map (λ ws, Send ws (LiveData s d true
                                (Some (now - Cache.timestamp e)) now))
              (filter (λ ws, ws ∈ openSockets st) (clients st)).
Proof.
  intros Hid Htask He Hd Httl Hlt. cbn [step]. unfold onTimer.
  rewrite Hid, Htask.
  set (st0 := if Timer.repeat t then _ else _).
  assert (cache st0 = cache st ∧ requestQueue st0 = requestQueue st
          ∧ awaiters st0 = awaiters st ∧ calling st0 = calling st
          ∧ clients st0 = clients st ∧ openSockets st0 = openSockets st)
    as (Hc & Hq & Ha & Hcall & Hcl & Hop) by (subst st0; by case_match).
  rewrite (fetch_on_fresh_cache now s c e d ttl st0) by (by rewrite ?Hc).
  cbn [fst snd]. rewrite broadcast_sends, Hcl, Hop. done.
Qed.

Lemma tick_on_fresh_cache_serves_cached_witness :
  (step 4000 (Fire 3%nat) warmState).2 =
  [Send 0%nat (LiveData (NString "dynamic_global_properties") samplePayload true
                 (Some 3900) 4000)].
Proof.
  pose proof (tick_on_fresh_cache_serves_cached 4000 3%nat
    {| Timer.task := StreamTick (NString "dynamic_global_properties") 3;
       Timer.delay := 8000; Timer.repeat := true; Timer.armed := 100 |}
    (NString "dynamic_global_properties") 3%nat
    {| Cache.data := Some samplePayload; Cache.timestamp := 100;
       Cache.ttl := Some 5000 |}
    samplePayload 5000 warmState) as H.
  destruct H as (_ & _ & _ & _ & H);
    [vm_compute; reflexivity | reflexivity | vm_compute; reflexivity
    | reflexivity | reflexivity | reflexivity |].
  rewrite H. vm_compute. reflexivity.
Defined.

(** ** start_stream *)




Lemma keyOf_streamValue v st : keyOf (streamValue v st) = jsonKey v.
Proof. by destruct v. Qed.

(** A name that is neither a catalogue key nor a property of
    [Object.prototype] is refused and nothing changes. *)
Lemma start_stream_unknown_name now ws v st :
  apiMethods !! jsonKey v = None → jsonKey v ∉ objectPrototypeProps →
  ∃ message,
    step now (Message ws (start_stream v)) st =
    (st, [Send ws (ErrorMessage message)]).
Proof.
  intros Hnone Hproto. cbn [step handleClientMessage].
  unfold startStream, getProp. rewrite keyOf_streamValue, Hnone.
  rewrite bool_decide_eq_false_2 by done. eauto.
Qed.

(** A catalogue name is always acknowledged with the catalogue interval. *)
Lemma start_stream_catalogue_name now ws v cfg st :
  apiMethods !! jsonKey v = Some cfg →
  ∃ out, (step now (Message ws (start_stream v)) st).2 =
         out ++ [Send ws (StreamStarted (streamValue v st)
                            (Config.interval cfg))].
Proof.
  intros Hcfg. cbn [step handleClientMessage].
  unfold startStream, getProp. rewrite keyOf_streamValue, Hcfg.
  destruct (activeStreams st !! _); [by exists []|].
  destruct (fetchAndBroadcastOptimized _ _ _ _) as [st' out]. by exists out.
Qed.

(** C6: the message [{"type":"start_stream","stream":"constructor"}] names no
    catalogue stream, yet [this.apiMethods["constructor"]] is the inherited
    [Object] function, so the guard lets it through: the client gets
    [stream_started] (without an interval), a registry entry and a 1 ms
    timer are created and a request with no method is queued. *)
Theorem start_stream_constructor_is_activated :
  execution 0
    (connectFirst ++ [(20, Message 0%nat (start_stream (JString "constructor")))])
    init = true
  ∧ apiMethods !! "constructor" = None
  ∧ ("constructor" ∉ apiMethodKeys)
  ∧ (step 20 (Message 0%nat (start_stream (JString "constructor"))) afterConnect).2 =
    [Send 0%nat (StreamStarted (NString "constructor") None)]
  ∧ (let st' :=
       (step 20 (Message 0%nat (start_stream (JString "constructor"))) afterConnect).1 in
     activeStreams st' !! NString "constructor" =
       Some {| Stream.intervalId := 3; Stream.config := 3;
               Stream.startTime := 20; Stream.requestCount := 0 |}
     ∧ timers st' !! 3%nat =
       Some {| Timer.task := StreamTick (NString "constructor") 3; Timer.delay := 1;
               Timer.repeat := true; Timer.armed := 20 |}
     ∧ requestQueue st' =
       [ {| Request.method := None; Request.params := None;
            Request.handle := 4 |} ]).
Proof.
  split; [by vm_compute|]. split; [by vm_compute|]. split.
  { apply (bool_decide_unpack _). by vm_compute. }
  split; [by vm_compute|]. cbv zeta.
  split; [by vm_compute|]. split; by vm_compute.
Qed.

(** ** Fetches in flight *)

Lemma reachable_run tr st : reachable st → reachable (run tr st).1.
Proof.
  revert st. induction tr as [|[now ev] tr IH]; intros st H; [done|].
  cbn [run]. pose proof (reachable_step now ev st H) as H1.
  destruct (step now ev st) as [st1 out]. specialize (IH st1 H1).
  destruct (run tr st1) as [st2 log]. done.
Qed.

Lemma inFlight_queueAPICall s m p k st :
  awaiters st !! nextId st = None → awaitsStream s k = true →
  inFlight s (queueAPICall m p k st) = S (inFlight s st).
Proof.
  intros Hfresh Hk. unfold inFlight. cbn [awaiters queueAPICall set_nextId
    set_awaiters set_requestQueue].
  rewrite (map_to_list_insert _ _ _ Hfresh).
  rewrite filter_cons_True by (cbn; by rewrite Hk). done.
Qed.

Lemma length_queueAPICall m p k st :
  length (requestQueue (queueAPICall m p k st)) = S (length (requestQueue st)).
Proof. cbn. rewrite length_app. cbn. lia. Qed.

(** C1 (amended): the engine keeps no in-flight state.  A tick that finds
    the stream's cache entry not fresh queues one more upstream request and
    suspends one more refresh cycle, however many cycles of that stream are
    still waiting for their answer. *)
Theorem stale_tick_enqueues_despite_pending
    (now : Z) (id : nat) (t : Timer.t) (s : Name) (c : nat)
    (e : Cache.t) (st : State) :
  reachable st →
  timers st !! id = Some t → Timer.task t = StreamTick s c →
  cache st !! keyOf s = Some e → cacheHit now (Own e) = None →
  let st' := (step now (Fire id) st).1 in
  inFlight s st' = S (inFlight s st)
  ∧ length (requestQueue st') = S (length (requestQueue st)).
Proof.
  intros Hreach Hid Htask He Hmiss. cbn [step]. unfold onTimer.
  rewrite Hid, Htask.
  set (st0 := if Timer.repeat t then _ else _).
  assert (cache st0 = cache st ∧ requestQueue st0 = requestQueue st
          ∧ awaiters st0 = awaiters st ∧ nextId st0 = nextId st)
    as (Hc & Hq & Ha & Hn) by (subst st0; by case_match).
  assert (awaiters st0 !! nextId st0 = None) as Hfresh.
  { rewrite Ha, Hn. by apply (reachable_fresh st Hreach). }
  assert (inFlight s st0 = inFlight s st) as <- by (unfold inFlight; by rewrite Ha).
  rewrite <- Hq. clearbody st0. clear Hq Ha Hn.
  unfold fetchAndBroadcastOptimized, getProp. rewrite Hc, He, Hmiss.
  unfold requestStream.
  repeat case_match; cbn [fst];
    rewrite inFlight_queueAPICall, length_queueAPICall;
    try done; try exact Hfresh; cbn; by rewrite bool_decide_eq_true_2.
Qed.

Lemma stale_tick_enqueues_despite_pending_witness :
  let st := (run slowUpstream init).1 in
  inFlight (NString "dynamic_global_properties") st = 1%nat
  ∧ inFlight (NString "dynamic_global_properties")
      (step 8100 (Fire 3%nat) st).1 = 2%nat.
Proof.
  cbv zeta. split; [by vm_compute|].
  destruct (stale_tick_enqueues_despite_pending 8100 3%nat
    {| Timer.task := StreamTick (NString "dynamic_global_properties") 3;
       Timer.delay := 8000; Timer.repeat := true; Timer.armed := 100 |}
    (NString "dynamic_global_properties") 3%nat
    {| Cache.data := None; Cache.timestamp := 0; Cache.ttl := Some 5000 |}
    (run slowUpstream init).1) as [H _].
  - apply reachable_run, reachable_init.
  - vm_compute. reflexivity.
  - reflexivity.
  - vm_compute. reflexivity.
  - reflexivity.
  - rewrite H. vm_compute. reflexivity.
Defined.

(** C1 (as stated, refuted): with the call of the cycle begun at 100 still
    unanswered, the tick at 8100 is not skipped; it queues a second request
    for the same stream and two cycles are then in flight. *)
Lemma tick_overlaps_pending_fetch :
  execution 0 (slowUpstream ++ [(8100, Fire 3%nat)]) init = true
  ∧ (let st := (run slowUpstream init).1 in
     let st' := (step 8100 (Fire 3%nat) st).1 in
     inFlight (NString "dynamic_global_properties") st = 1%nat
     ∧ st' ≠ st
     ∧ inFlight (NString "dynamic_global_properties") st' = 2%nat
     ∧ length (requestQueue st') = S (length (requestQueue st))).
Proof.
  split; [by vm_compute|]. cbv zeta.
  split; [by vm_compute|]. split.
  { intros H. apply (f_equal nextId) in H. vm_compute in H. discriminate. }
  split; by vm_compute.
Qed.

(** ** The request queue *)

(** A rejected call leaves [lastRequestTime] and [requestCount] as they
    were, so the spacing test of the next round still measures from the last
    successful call. *)
Lemma rejected_call_not_noted clk m st :
  lastRequestTime (noteCall clk (Rejected m) st) = lastRequestTime st
  ∧ requestCount (noteCall clk (Rejected m) st) = requestCount st.
Proof. done. Qed.

(** The loop issues a call at once only when the spacing has elapsed. *)
Lemma drainLoop_dispatch_spaced now st st' request :
  drainLoop now st = (st', [Upstream request]) →
  requestDelay <= now - lastRequestTime st.
Proof.
  unfold drainLoop, dispatch. destruct (requestQueue st); [done|].
  cbn [lastRequestTime set_requestQueue]. case_bool_decide; [done|]. lia.
Qed.

(** C2: sixty-one queued requests against an upstream that refuses every
    connection are all dispatched between 1000 and 13300, about 205 ms
    apart: more than [maxRequestsPerMinute] calls inside one minute.  The
    trace is an execution of the engine from its initial state. *)
Theorem rejected_calls_exceed_ceiling :
  execution 0 refusedBurst init = true
  ∧ (let times := dispatchTimes (run refusedBurst init).2 in
     length times = 61%nat
     ∧ Forall (λ t, 1000 <= t <= 13300) times
     ∧ maxRequestsPerMinute < Z.of_nat (length times)).
Proof.
  split; [by vm_compute|]. cbv zeta.
  split; [by vm_compute|]. split.
  - apply (bool_decide_unpack _). by vm_compute.
  - by vm_compute.
Qed.

(** ** Deactivation *)

Lemma foldr_delete_elem {A B} (g : A → nat) (l : list A) (m : gmap nat B) x :
  x ∈ l → foldr (λ y acc, delete (g y) acc) m l !! g x = None.
Proof.
  induction 1 as [y l|y z l Hin IH]; cbn.
  - by rewrite lookup_delete_eq.
  - rewrite lookup_delete. by case_decide.
Qed.

(** ** An upstream call settles *)

Lemma onSettled_resume clk o request k st :
  calling st = Some request → awaiters st !! Request.handle request = Some k →
  onSettled clk o st =
  resume clk (makeAPICall o) k
    (set_awaiters (delete (Request.handle request))
       (setTimer QueueGap 200 false clk
          (noteCall clk (makeAPICall o) (set_calling (λ _, None) st)))).
Proof.
  intros Hc Hk. unfold onSettled, settle. rewrite Hc.
  cbn [awaiters setTimer set_nextId set_timers].
  rewrite awaiters_noteCall. cbn [awaiters set_calling]. by rewrite Hk.
Qed.

Lemma makeAPICall_transportFailure o m :
  transportFailure o = Some m → makeAPICall o = Rejected m.
Proof. destruct o; cbn; congruence. Qed.

(** [makeAPICall] never resolves with an [error] field: an upstream error
    body is turned into a rejection. *)
Lemma makeAPICall_resolved_no_error o response :
  makeAPICall o = Resolved response → Response.error response = None.
Proof. destruct o as [r [e|]| | |]; cbn; intros [= <-]; done. Qed.

(** C5 (amended): a transport-level failure of a stream's upstream call
    (connection error, timeout, unparseable body) is caught and sent to
    every connected open socket as one message of type [fetch_error]
    carrying the stream, the error text and the time; the registry, the
    cache and every timer that was armed stay as they were, and nothing is
    re-queued, so the stream retries on its next tick. *)
Theorem transport_failure_broadcasts_fetch_error
    (clk : Z) (o : HttpOutcome) (m : string) (request : Request.t)
    (k : Awaiter) (s : Name) (st : State) :
  reachable st →
  calling st = Some request → awaiters st !! Request.handle request = Some k →
  awaitsStream s k = true → transportFailure o = Some m →
  let st' := (step clk (Settle o) st).1 in
  let out := (step clk (Settle o) st).2 in
  out = map (λ ws, Send ws (FetchError s m clk))
            (filter (λ ws, ws ∈ openSockets st) (clients st))
  ∧ msgType (FetchError s m clk) = "fetch_error"
  ∧ activeStreams st' = activeStreams st
  ∧ cache st' = cache st
  ∧ requestQueue st' = requestQueue st
  ∧ ∀ id t, timers st !! id = Some t → timers st' !! id = Some t.
Proof.
  intros Hreach Hc Hk Hs Ho. cbn [step].
  rewrite (onSettled_resume clk o request k st Hc Hk).
  rewrite (makeAPICall_transportFailure o m Ho).
  assert (∀ id t, timers st !! id = Some t →
            <[nextId st := {| Timer.task := QueueGap; Timer.delay := 200;
                              Timer.repeat := false; Timer.armed := clk |}]>
              (timers st) !! id = Some t) as Htimers.
  { intros id t Hid. rewrite lookup_insert_ne; [done|]. intros <-.
    destruct (reachable_fresh st Hreach (nextId st)) as [Hn _]; [lia|].
    congruence. }
  destruct k as [s' c n|s' c n| |]; cbn in Hs; try done;
    apply bool_decide_eq_true_1 in Hs; subst s';
    cbn [resume resumeGlobalProps resumeFetch catchFetch fst snd];
    rewrite broadcast_sends; done.
Qed.

Lemma transport_failure_broadcasts_fetch_error_witness :
  (step 4000 hangUp (run slowUpstream init).1).2 =
  [Send 0%nat (FetchError (NString "dynamic_global_properties") "socket hang up" 4000)].
Proof.
  destruct (transport_failure_broadcasts_fetch_error 4000
    (ConnectionError "socket hang up") "socket hang up"
    {| Request.method := Some "condenser_api.get_dynamic_global_properties";
       Request.params := Some []; Request.handle := 4 |}
    (AwaitFetch (NString "dynamic_global_properties") 3 100)
    (NString "dynamic_global_properties") (run slowUpstream init).1) as [H _].
  - apply reachable_run, reachable_init.
  - vm_compute. reflexivity.
  - vm_compute. reflexivity.
  - reflexivity.
  - reflexivity.
  - unfold hangUp. rewrite H. vm_compute. reflexivity.
Defined.

(** C5 (as stated, refuted): the upstream call of the stream fails at the
    socket; the one message the subscriber receives has type [fetch_error],
    not [error]. *)
Lemma fetch_failure_is_not_typed_error :
  execution 0 (slowUpstream ++ [(4000, hangUp)]) init = true
  ∧ subscribers (JString "dynamic_global_properties") slowUpstream = [0%nat]
  ∧ (step 4000 hangUp (run slowUpstream init).1).2 =
    [Send 0%nat (FetchError (NString "dynamic_global_properties") "socket hang up" 4000)]
  ∧ msgType (FetchError (NString "dynamic_global_properties") "socket hang up" 4000)
    ≠ "error".
Proof.
  split; [by vm_compute|]. split; [by vm_compute|].
  split; [by vm_compute|]. by vm_compute.
Qed.

(** ** A fetch completes *)

(** The answer of a stream's own call carries a result: the result is
    stored unchanged under the stream's key, stamped with the [now] the
    cycle captured when it began, and sent to the connected open sockets. *)
Lemma onSettled_fetch_result clk result request s c now f e st :
  calling st = Some request →
  awaiters st !! Request.handle request = Some (AwaitFetch s c now) →
  Config.processor (lookupConfig st c) = Some f →
  cache st !! keyOf s = Some e →
  cache (onSettled clk (JsonBody (Some result) None) st).1 =
    <[keyOf s := {| Cache.data := Some result; Cache.timestamp := now;
              Cache.ttl := Cache.ttl e |}]> (cache st)
  ∧ (onSettled clk (JsonBody (Some result) None) st).2 =
    map (λ ws, Send ws (LiveData s result false None clk))
        (filter (λ ws, ws ∈ openSockets st) (clients st)).
Proof.
  intros Hc Hk Hf He.
  rewrite (onSettled_resume _ _ _ _ _ Hc Hk).
  cbn [makeAPICall resume]. unfold resumeFetch.
  cbn [Response.result].
  match goal with
  | |- context [Config.processor (lookupConfig ?x c)] =>
      change (Config.processor (lookupConfig x c))
        with (Config.processor (lookupConfig st c))
  end.
  rewrite Hf.
  match goal with
  | |- context [runProcessor f result ?x] =>
      assert (∃ st1, runProcessor f result x = (result, st1)
                     ∧ cache st1 = cache st ∧ clients st1 = clients st
                     ∧ openSockets st1 = openSockets st) as (st1 & -> & Hc1 & Hcl & Hop)
        by (destruct f; eexists; done)
  end.
  unfold getProp. rewrite Hc1, He.
  destruct (activeStreams _ !! s); cbn [fst snd];
    rewrite broadcast_sends; cbn; by rewrite Hc1, Hcl, Hop.
Qed.

(** ** Round trip through the cache *)

Lemma cache_run_undisturbed s tr st :
  undisturbed s tr st = true → cache (run tr st).1 !! s = cache st !! s.
Proof.
  revert st. induction tr as [|[now ev] tr IH]; intros st H; [done|].
  cbn [undisturbed] in H. apply andb_true_iff in H as [Hq Hrest].
  apply negb_true_iff in Hq.
  pose proof (cache_step_other now ev st s Hq) as Hstep.
  cbn [run]. destruct (step now ev st) as [st1 out]. cbn [fst] in *.
  specialize (IH st1 Hrest). destruct (run tr st1) as [st2 log].
  cbn [fst] in *. congruence.
Qed.

Lemma startStream_inactive_fresh_cache now s ws cfg e d ttl st :
  apiMethods !! keyOf s = Some cfg → activeStreams st !! s = None →
  cache st !! keyOf s = Some e → Cache.data e = Some d →
  Cache.ttl e = Some ttl →
  now - Cache.timestamp e < ttl →
  (startStream now s ws st).2 =
  broadcast (LiveData s d true (Some (now - Cache.timestamp e)) now) st
  ++ [Send ws (StreamStarted s (Config.interval cfg))].
Proof.
  intros Hcfg Ha He Hd Ht Hlt. unfold startStream, getProp.
  rewrite Hcfg, Ha.
  erewrite fetch_on_fresh_cache; [|exact He|exact Hd|exact Ht|exact Hlt].
  done.
Qed.

(** C8 (amended): the value a fetch of stream [s] brings back at [clk0] is
    stored as it is under the stream's key, stamped [t0].  Whatever happens
    next short of another fetch for the same key completing (ticks of other
    streams, clients coming and going, the stream being stopped, every
    stream being stopped), a refresh under that key at any [now] with
    [now - t0 < ttl] serves exactly that value, flagged cached; in
    particular a client that re-joins the deactivated stream in time gets it
    at once. *)
Theorem cache_round_trip
    (clk0 : Z) (result : Payload) (request : Request.t) (s : Name)
    (c0 : nat) (t0 : Z) (f : Processor) (e0 : Cache.t) (ttl : Z)
    (st0 : State) (tr : list (Z * Event)) (now : Z) (c : nat) (ws : nat)
    (cfg : Config.t) :
  calling st0 = Some request →
  awaiters st0 !! Request.handle request = Some (AwaitFetch s c0 t0) →
  Config.processor (lookupConfig st0 c0) = Some f →
  cache st0 !! keyOf s = Some e0 → Cache.ttl e0 = Some ttl →
  let st1 := (step clk0 (Settle (JsonBody (Some result) None)) st0).1 in
  undisturbed (keyOf s) tr st1 = true →
  let st2 := (run tr st1).1 in
  now - t0 < ttl →
  (∀ s', keyOf s' = keyOf s →
     fetchAndBroadcastOptimized now s' c st2 =
     (st2, broadcast (LiveData s' result true (Some (now - t0)) now) st2))
  ∧ (∀ v, jsonKey v = keyOf s → apiMethods !! keyOf s = Some cfg →
     activeStreams st2 !! streamValue v st2 = None →
     (step now (Message ws (start_stream v)) st2).2 =
     broadcast (LiveData (streamValue v st2) result true (Some (now - t0)) now)
       st2
     ++ [Send ws (StreamStarted (streamValue v st2) (Config.interval cfg))]).
Proof.
  intros Hc Hk Hf He Httl st1 Hquiet st2 Hlt.
  assert (cache st2 !! keyOf s =
          Some {| Cache.data := Some result; Cache.timestamp := t0;
                  Cache.ttl := Some ttl |}) as Hentry.
  { subst st2. rewrite (cache_run_undisturbed (keyOf s) tr st1 Hquiet).
    subst st1. cbn [step].
    destruct (onSettled_fetch_result clk0 result request s c0 t0 f e0 st0
                Hc Hk Hf He) as [-> _].
    by rewrite lookup_insert_eq, Httl. }
  split.
  - intros s' Hs'. rewrite <- Hs' in Hentry.
    by rewrite (fetch_on_fresh_cache now s' c _ result ttl st2 Hentry).
  - intros v Hv Hcfg Ha. cbn [step handleClientMessage].
    rewrite <- Hv, <- (keyOf_streamValue v st2) in Hentry, Hcfg.
    by rewrite (startStream_inactive_fresh_cache now _ ws cfg _ result ttl st2
                  Hcfg Ha Hentry).
Qed.

Lemma cache_round_trip_witness :
  execution 0
    (fetchIssued ++ [(1300, answer)] ++ stopThenOthers
     ++ [(4000, Message 0%nat
                  (start_stream (JString "dynamic_global_properties")))])
    init = true
  ∧ (let st2 :=
       (run stopThenOthers
          (step 1300 answer (run fetchIssued init).1).1).1 in
     (step 4000 (Message 0%nat
                   (start_stream (JString "dynamic_global_properties")))
        st2).2 =
     [ Send 0%nat (LiveData (NString "dynamic_global_properties")
                     samplePayload true (Some 3900) 4000);
       Send 1%nat (LiveData (NString "dynamic_global_properties")
                     samplePayload true (Some 3900) 4000);
       Send 0%nat (StreamStarted (NString "dynamic_global_properties")
                     (Some 8000)) ]).
Proof.
  split; [vm_compute; reflexivity|]. cbv zeta.
  destruct (cache_round_trip 1300 samplePayload
    {| Request.method := Some "condenser_api.get_dynamic_global_properties";
       Request.params := Some []; Request.handle := 4 |}
    (NString "dynamic_global_properties") 3%nat 100
    processDynamicGlobalProperties
    {| Cache.data := None; Cache.timestamp := 0; Cache.ttl := Some 5000 |}
    5000 (run fetchIssued init).1 stopThenOthers 4000 3%nat 0%nat
    {| Config.method := Some "condenser_api.get_dynamic_global_properties";
       Config.params := Some [];
       Config.interval := Some 8000;
       Config.processor := Some processDynamicGlobalProperties |}) as [_ H].
  - vm_compute. reflexivity.
  - vm_compute. reflexivity.
  - vm_compute. reflexivity.
  - vm_compute. reflexivity.
  - reflexivity.
  - vm_compute. reflexivity.
  - reflexivity.
  - unfold answer.
    rewrite (H (JString "dynamic_global_properties"));
      [vm_compute; reflexivity | reflexivity | vm_compute; reflexivity
      | vm_compute; reflexivity].
Defined.

(** C8 (as stated, refuted): fetches of one stream overlap.  Two refresh
    cycles of the same stream begin at 100; the first answer is written at
    1300 and served from the cache at 2000, the second answer overwrites it
    at 2600 and is served at 2950.  Both entries are stamped 100 and both
    are served within the TTL of 5000, yet the value served at 2950 is not
    the value written at 1300. *)
Lemma overlapping_fetch_replaces_cached_value :
  execution 0 overlappingFetches init = true
  ∧ (let key := "dynamic_global_properties" in
     let name := NString key in
     cache (run firstWritten init).1 !! key =
       Some {| Cache.data := Some firstPayload; Cache.timestamp := 100;
               Cache.ttl := Some 5000 |}
     ∧ (step 2000 rejoin (run beforeFirstRejoin init).1).2 =
       [ Send 0%nat (LiveData name firstPayload true (Some 1900) 2000);
         Send 0%nat (StreamStarted name (Some 8000)) ]
     ∧ cache (run beforeSecondRejoin init).1 !! key =
       Some {| Cache.data := Some secondPayload; Cache.timestamp := 100;
               Cache.ttl := Some 5000 |}
     ∧ (step 2950 rejoin (run beforeSecondRejoin init).1).2 =
       [ Send 0%nat (LiveData name secondPayload true (Some 2850) 2950);
         Send 0%nat (StreamStarted name (Some 8000)) ]
     ∧ 2950 - 1300 < 5000
     ∧ secondPayload ≠ firstPayload).
Proof.
  split; [by vm_compute|]. cbv zeta.
  repeat (split; [by vm_compute|]). discriminate.
Qed.

(** ** Frames *)

Lemma broadcast_frame data st1 st2 :
  clients st1 = clients st2 → openSockets st1 = openSockets st2 →
  broadcast data st1 = broadcast data st2.
Proof. intros Hc Ho. rewrite !broadcast_sends. by rewrite Hc, Ho. Qed.

Lemma runProcessor_fields f result st :
  (runProcessor f result st).1 = result
  ∧ clients (runProcessor f result st).2 = clients st
  ∧ openSockets (runProcessor f result st).2 = openSockets st
  ∧ cache (runProcessor f result st).2 = cache st
  ∧ activeStreams (runProcessor f result st).2 = activeStreams st.
Proof. by destruct f. Qed.



(** * Further properties of the engine *)

(** ** One drain loop *)

Lemma drainTimers_insert_fresh id t (m : gmap nat Timer.t) :
  m !! id = None →
  drainTimers (<[id:=t]> m)
  = ((if isDrainTask (Timer.task t) then 1 else 0) + drainTimers m)%nat.
Proof.
  intros H. unfold drainTimers. rewrite (map_to_list_insert _ _ _ H).
  destruct (isDrainTask (Timer.task t)) eqn:E.
  - rewrite filter_cons_True by (cbn; by rewrite E). done.
  - rewrite filter_cons_False by (cbn; rewrite E; exact (λ x, x)). done.
Qed.

Lemma drainTimers_delete id t (m : gmap nat Timer.t) :
  m !! id = Some t →
  drainTimers m
  = ((if isDrainTask (Timer.task t) then 1 else 0) + drainTimers (delete id m))%nat.
Proof.
  intros H. rewrite <- (drainTimers_insert_fresh id t (delete id m))
    by apply lookup_delete_eq.
  by rewrite insert_delete_eq, insert_id.
Qed.

Lemma drainTimers_zero (m : gmap nat Timer.t) id t :
  drainTimers m = 0%nat → m !! id = Some t → isDrainTask (Timer.task t) = false.
Proof.
  intros Hz Hid. rewrite (drainTimers_delete id t m Hid) in Hz.
  destruct (isDrainTask _); [discriminate|done].
Qed.

(** A timer outside the drain loop comes or goes. *)
Lemma drainInv_insert_other tm call last id t :
  tm !! id = None → isDrainTask (Timer.task t) = false →
  drainInv tm call last → drainInv (<[id:=t]> tm) call last.
Proof.
  intros Hid Ht (Hc & Hr & Hd). split; [|split].
  - rewrite drainTimers_insert_fresh, Ht by done. done.
  - intros id' t' H'. rewrite lookup_insert in H'. case_decide.
    + injection H' as <-. congruence.
    + by apply (Hr id').
  - intros id' t' r H' Hq. rewrite lookup_insert in H'. case_decide.
    + injection H' as <-. rewrite Hq in Ht. discriminate.
    + by apply (Hd id' t' r).
Qed.

Lemma drainInv_delete_other tm call last id :
  (∀ t, tm !! id = Some t → isDrainTask (Timer.task t) = false) →
  drainInv tm call last → drainInv (delete id tm) call last.
Proof.
  intros Ht (Hc & Hr & Hd). split; [|split].
  - destruct (tm !! id) as [t|] eqn:E.
    + rewrite (drainTimers_delete id t tm E), (Ht t eq_refl) in Hc. done.
    + by rewrite delete_id.
  - intros id' t' H'. apply lookup_delete_Some in H' as [_ H'].
    by apply (Hr id').
  - intros id' t' r H'. apply lookup_delete_Some in H' as [_ H'].
    by apply (Hd id' t' r).
Qed.

Lemma drainInv_rearm tm call last id t now :
  tm !! id = Some t → Timer.repeat t = true →
  drainInv tm call last → drainInv (<[id:=Timer.rearm now t]> tm) call last.
Proof.
  intros Hid Hrep Hinv.
  assert (isDrainTask (Timer.task t) = false) as Hnd.
  { destruct Hinv as (_ & Hr & _). destruct (isDrainTask _) eqn:E; [|done].
    rewrite (Hr id t Hid E) in Hrep. discriminate. }
  rewrite <- insert_delete_eq. apply drainInv_insert_other.
  - apply lookup_delete_eq.
  - done.
  - apply drainInv_delete_other; [|done]. intros t' H'. congruence.
Qed.

(** The drain loop's own timer fires and is consumed. *)
Lemma drainInv_fire tm call last id t :
  tm !! id = Some t → isDrainTask (Timer.task t) = true →
  drainInv tm call last →
  call = None ∧ drainTimers (delete id tm) = 0%nat
  ∧ (∀ id' t', delete id tm !! id' = Some t' →
               isDrainTask (Timer.task t') = false).
Proof.
  intros Hid Ht (Hc & Hr & Hd).
  rewrite (drainTimers_delete id t tm Hid), Ht in Hc.
  assert (drainTimers (delete id tm) = 0%nat) as Hz by lia.
  split; [destruct call; [cbn in Hc; lia|done]|]. split; [done|].
  intros id' t' H'. by apply (drainTimers_zero _ id' t' Hz).
Qed.

(** With no drain timer and no call, the loop takes its next step. *)
Lemma drainInv_next tm last id t :
  tm !! id = None → drainTimers tm = 0%nat →
  isDrainTask (Timer.task t) = true → Timer.repeat t = false →
  (∀ r, Timer.task t = QueueDelay r →
        Timer.armed t + Timer.delay t = last + requestDelay) →
  drainInv (<[id:=t]> tm) None last.
Proof.
  intros Hid Hz Ht Hrep Hdelay. split; [|split].
  - rewrite drainTimers_insert_fresh, Ht, Hz by done. done.
  - intros id' t' H' Hd'. rewrite lookup_insert in H'. case_decide.
    + by injection H' as <-.
    + rewrite (drainTimers_zero tm id' t' Hz H') in Hd'. discriminate.
  - intros id' t' r H' Hq. rewrite lookup_insert in H'. case_decide.
    + injection H' as <-. by apply (Hdelay r).
    + pose proof (drainTimers_zero tm id' t' Hz H') as Hn.
      rewrite Hq in Hn. discriminate.
Qed.

Lemma drainInv_call tm last request :
  drainTimers tm = 0%nat → drainInv tm (Some request) last.
Proof.
  intros Hz. split; [|split].
  - rewrite Hz. done.
  - intros id t H Hd. rewrite (drainTimers_zero tm id t Hz H) in Hd. discriminate.
  - intros id t r H Hq. pose proof (drainTimers_zero tm id t Hz H) as Hn.
    rewrite Hq in Hn. discriminate.
Qed.

Lemma foldr_delete_Some {A B} (g : A → nat) (l : list A) (m : gmap nat B) i x :
  foldr (λ y acc, delete (g y) acc) m l !! i = Some x →
  m !! i = Some x ∧ ∀ y, y ∈ l → g y ≠ i.
Proof.
  induction l as [|y l IH]; cbn.
  - intros H. split; [done|]. intros y Hy. by apply elem_of_nil in Hy.
  - intros H. apply lookup_delete_Some in H as [Hne H].
    destruct (IH H) as [Hm Hl]. split; [done|].
    intros z Hz. apply elem_of_cons in Hz as [->|Hz]; [done|by apply Hl].
Qed.

Lemma drainInv_foldr_delete {A} (g : A → nat) (l : list A) tm call last :
  (∀ x t, x ∈ l → tm !! g x = Some t → isDrainTask (Timer.task t) = false) →
  drainInv tm call last →
  drainInv (foldr (λ y acc, delete (g y) acc) tm l) call last.
Proof.
  intros Hl Hinv. induction l as [|y l IH]; [done|]. cbn.
  apply drainInv_delete_other.
  - intros t Ht. apply foldr_delete_Some in Ht as [Ht _].
    apply (Hl y t); [apply elem_of_cons; by left|done].
  - apply IH. intros x t Hx. apply Hl. apply elem_of_cons. by right.
Qed.

(** ** Registry and stream timers *)

Lemma registryInv_insert_other tm act id t :
  tm !! id = None → (∀ s c, Timer.task t ≠ StreamTick s c) →
  registryInv tm act → registryInv (<[id:=t]> tm) act.
Proof.
  intros Hid Ht [H1 H2]. split.
  - intros s a Ha. destruct (H1 s a Ha) as (t0 & Ht0 & Hrest).
    exists t0. split; [|done]. rewrite lookup_insert_ne; [done|]. congruence.
  - intros id' t' s c H' Htask. rewrite lookup_insert in H'. case_decide.
    + injection H' as <-. by destruct (Ht s c).
    + by apply (H2 id' t' s c).
Qed.

Lemma registryInv_delete_other tm act id :
  (∀ t s c, tm !! id = Some t → Timer.task t ≠ StreamTick s c) →
  registryInv tm act → registryInv (delete id tm) act.
Proof.
  intros Ht [H1 H2]. split.
  - intros s a Ha. destruct (H1 s a Ha) as (t0 & Ht0 & Htask & Hrest).
    exists t0. split; [|done]. rewrite lookup_delete_ne; [done|].
    intros ->. by destruct (Ht t0 s (Stream.config a) Ht0).
  - intros id' t' s c H'. apply lookup_delete_Some in H' as [_ H'].
    by apply (H2 id' t' s c).
Qed.

Lemma registryInv_rearm tm act id t now :
  tm !! id = Some t → registryInv tm act →
  registryInv (<[id:=Timer.rearm now t]> tm) act.
Proof.
  intros Hid [H1 H2]. split.
  - intros s a Ha. destruct (H1 s a Ha) as (t0 & Ht0 & Hrest).
    rewrite lookup_insert. case_decide as Heq.
    + subst id. exists (Timer.rearm now t). split; [done|].
      assert (t0 = t) as -> by congruence. done.
    + by exists t0.
  - intros id' t' s c H' Htask. rewrite lookup_insert in H'. case_decide.
    + injection H' as <-. subst id'. by apply (H2 id t s c).
    + by apply (H2 id' t' s c).
Qed.

Lemma registryInv_bump tm act s :
  registryInv tm act → registryInv tm (alter Stream.bump s act).
Proof.
  intros [H1 H2]. split.
  - intros s' a' Ha'. rewrite lookup_alter in Ha'. case_decide.
    + subst s'. destruct (act !! s) as [a|] eqn:Ha; [|done].
      injection Ha' as <-. by apply (H1 s a).
    + by apply H1.
  - intros id t s' c Hid Htask.
    destruct (H2 id t s' c Hid Htask) as (a & Ha & Hi).
    rewrite lookup_alter. case_decide.
    + subst s'. rewrite Ha. by exists (Stream.bump a).
    + by exists a.
Qed.

Lemma registryInv_start tm act id s now :
  tm !! id = None → act !! s = None →
  registryInv tm act →
  registryInv
    (<[id := {| Timer.task := StreamTick s id;
                Timer.delay :=
                  timerDelay (Config.interval (catalogueConfig (keyOf s)));
                Timer.repeat := true; Timer.armed := now |}]> tm)
    (<[s := {| Stream.intervalId := id; Stream.config := id;
               Stream.startTime := now; Stream.requestCount := 0 |}]> act).
Proof.
  intros Hid Hs [H1 H2]. split.
  - intros s' a' Ha'. rewrite lookup_insert in Ha'. case_decide.
    + injection Ha' as <-. subst s'. cbn. rewrite lookup_insert_eq. eauto.
    + destruct (H1 s' a' Ha') as (t0 & Ht0 & Hrest). exists t0.
      split; [|done]. rewrite lookup_insert_ne; [done|]. congruence.
  - intros id' t' s' c H' Htask. rewrite lookup_insert in H'. case_decide.
    + injection H' as <-. subst id'. cbn in Htask. injection Htask as <- <-.
      rewrite lookup_insert_eq. eauto.
    + destruct (H2 id' t' s' c H' Htask) as (a & Ha & Hi).
      exists a. split; [|done]. rewrite lookup_insert_ne; [done|]. congruence.
Qed.

Lemma registryInv_stop tm act s a :
  act !! s = Some a → registryInv tm act →
  registryInv (delete (Stream.intervalId a) tm) (delete s act).
Proof.
  intros Ha [H1 H2]. split.
  - intros s' a' Ha'. apply lookup_delete_Some in Ha' as [Hne Ha'].
    destruct (H1 s' a' Ha') as (t0 & Ht0 & Htask & Hrest).
    exists t0. split; [|done]. rewrite lookup_delete_ne; [done|].
    intros Heq. destruct (H1 s a Ha) as (t1 & Ht1 & Htask1 & _).
    rewrite <- Heq in Ht0. congruence.
  - intros id t s' c H' Htask. apply lookup_delete_Some in H' as [Hne H'].
    destruct (H2 id t s' c H' Htask) as (a' & Ha' & Hi).
    exists a'. split; [|done]. rewrite lookup_delete_ne; [done|].
    intros <-. congruence.
Qed.

Lemma registryInv_stopAll tm act :
  registryInv tm act →
  registryInv
    (foldr (λ kv acc, delete (Stream.intervalId kv.2) acc) tm (map_to_list act))
    ∅.
Proof.
  intros [H1 H2]. split; [done|].
  intros id t s c H' Htask. apply foldr_delete_Some in H' as [H' Hl].
  destruct (H2 id t s c H' Htask) as (a & Ha & Hi).
  destruct (Hl (s, a)); [by apply elem_of_map_to_list|done].
Qed.

Lemma drainInv_stopAll tm act call last :
  registryInv tm act → drainInv tm call last →
  drainInv
    (foldr (λ kv acc, delete (Stream.intervalId kv.2) acc) tm (map_to_list act))
    call last.
Proof.
  intros [H1 _] Hd.
  apply (drainInv_foldr_delete (λ kv : Name * Stream.t, Stream.intervalId kv.2));
    [|done].
  intros [s a] t Hin Ht. apply elem_of_map_to_list in Hin.
  destruct (H1 s a Hin) as (t0 & Ht0 & Htask & _). cbn in Ht.
  assert (t = t0) as -> by congruence. by rewrite Htask.
Qed.

(** ** What each handler leaves alone *)

Lemma fetch_frame now s c st :
  let st' := (fetchAndBroadcastOptimized now s c st).1 in
  timers st' = timers st ∧ activeStreams st' = activeStreams st
  ∧ calling st' = calling st ∧ lastRequestTime st' = lastRequestTime st
  ∧ clients st' = clients st ∧ openSockets st' = openSockets st
  ∧ isProcessingQueue st' = isProcessingQueue st.
Proof.
  cbv zeta. unfold fetchAndBroadcastOptimized, catchFetch, requestStream.
  by repeat case_match.
Qed.

Lemma resumeFetch_frame clk r s c now st :
  let st' := (resumeFetch clk r s c now st).1 in
  timers st' = timers st ∧ calling st' = calling st
  ∧ lastRequestTime st' = lastRequestTime st
  ∧ clients st' = clients st ∧ openSockets st' = openSockets st
  ∧ requestQueue st' = requestQueue st ∧ nextId st' = nextId st
  ∧ awaiters st' = awaiters st
  ∧ (activeStreams st' = activeStreams st
     ∨ activeStreams st' = alter Stream.bump s (activeStreams st)).
Proof.
  cbv zeta. unfold resumeFetch, catchFetch.
  destruct r as [response|m]; [|by repeat split; try left].
  destruct (Response.result response) as [result|];
    [|destruct (Response.error response); by repeat split; try left].
  destruct (Config.processor _) as [f|]; [|by repeat split; try left].
  destruct f; cbn [runProcessor];
    (destruct (getProp _ (keyOf s)); [| |by repeat split; try left]);
    cbn [activeStreams set_cache set_currentBlock];
    (destruct (activeStreams st !! s); cbn [fst];
     repeat split; try done; (by left) || (by right)).
Qed.

Lemma resume_shape clk r k st :
  let st' := (resume clk r k st).1 in
  calling st' = calling st ∧ lastRequestTime st' = lastRequestTime st
  ∧ clients st' = clients st ∧ openSockets st' = openSockets st
  ∧ (timers st' = timers st
     ∨ ∃ t, timers st' = <[nextId st := t]> (timers st)
            ∧ isDrainTask (Timer.task t) = false
            ∧ ∀ s c, Timer.task t ≠ StreamTick s c)
  ∧ (activeStreams st' = activeStreams st
     ∨ ∃ s, activeStreams st' = alter Stream.bump s (activeStreams st)).
Proof.
  cbv zeta. destruct k as [s c n|s c n| |]; cbn [resume].
  - unfold resumeGlobalProps, catchFetch, requestStream.
    destruct r as [response|m]; [destruct (Response.result response)|];
      cbn [fst]; repeat split; try done; by left.
  - destruct (resumeFetch_frame clk r s c n st)
      as (Ht & Hc & Hl & Hcl & Ho & _ & _ & _ & Ha).
    repeat split; try done; [by left|].
    destruct Ha; [by left|right; by exists s].
  - destruct r as [response|m].
    + destruct (Response.result response) as [p|];
        [|repeat split; try done; by left].
      destruct (truthyNumber _); cbn [fst];
        repeat split; try done; try (by left).
      right. eexists. split; [done|]. done.
    + cbn [fst]. repeat split; try done; [|by left].
      right. eexists. split; [done|]. done.
  - destruct r as [response|m]; [|repeat split; try done; by left].
    destruct (Response.result response); repeat split; try done; by left.
Qed.

(** The three ways the drain loop can go on. *)
Lemma drainLoop_shape now st :
  let st' := (drainLoop now st).1 in
  let out := (drainLoop now st).2 in
  activeStreams st' = activeStreams st
  ∧ lastRequestTime st' = lastRequestTime st
  ∧ clients st' = clients st
  ∧ ((requestQueue st = [] ∧ out = [] ∧ calling st' = calling st
      ∧ requestQueue st' = []
      ∧ timers st' =
        <[nextId st := {| Timer.task := ProcessQueue; Timer.delay := 1000;
                          Timer.repeat := false; Timer.armed := now |}]>
          (timers st))
     ∨ (∃ r rest, requestQueue st = r :: rest ∧ out = []
          ∧ now - lastRequestTime st < requestDelay
          ∧ calling st' = calling st ∧ requestQueue st' = rest
          ∧ timers st' =
            <[nextId st :=
                {| Timer.task := QueueDelay r;
                   Timer.delay := requestDelay - (now - lastRequestTime st);
                   Timer.repeat := false; Timer.armed := now |}]> (timers st))
     ∨ (∃ r rest, requestQueue st = r :: rest ∧ out = [Upstream r]
          ∧ requestDelay <= now - lastRequestTime st
          ∧ calling st' = Some r ∧ requestQueue st' = rest
          ∧ timers st' = timers st)).
Proof.
  cbv zeta. unfold drainLoop, dispatch.
  destruct (requestQueue st) as [|r rest] eqn:Hq.
  - repeat split; try done. left. done.
  - cbn [lastRequestTime set_requestQueue]. case_bool_decide as Hlt.
    + repeat split; try done. right. left. by exists r, rest.
    + repeat split; try done. right. right. exists r, rest.
      repeat split; try done. lia.
Qed.

Lemma registryOK_drainLoop now st :
  fresh st → registryOK st → registryOK (drainLoop now st).1.
Proof.
  intros Hf Hr. destruct (Hf (nextId st)) as [Hn _]; [lia|].
  destruct (drainLoop_shape now st) as (Ha & _ & _ & Hcase).
  unfold registryOK. rewrite Ha.
  destruct Hcase as [(_ & _ & _ & _ & ->)|[(r & rest & _ & _ & _ & _ & _ & ->)
                    |(r & rest & _ & _ & _ & _ & _ & ->)]]; [| |done];
    by apply registryInv_insert_other.
Qed.

Lemma drainOK_drainLoop now st :
  fresh st → calling st = None → drainTimers (timers st) = 0%nat →
  drainOK (drainLoop now st).1.
Proof.
  intros Hf Hc Hz. destruct (Hf (nextId st)) as [Hn _]; [lia|].
  destruct (drainLoop_shape now st) as (_ & Hl & _ & Hcase).
  unfold drainOK. rewrite Hl.
  destruct Hcase as [(_ & _ & -> & _ & ->)|[(r & rest & _ & _ & _ & -> & _ & ->)
                    |(r & rest & _ & _ & _ & -> & _ & ->)]].
  - rewrite Hc. by apply drainInv_next.
  - rewrite Hc. apply drainInv_next; try done.
    cbn. intros r' _. lia.
  - by apply drainInv_call.
Qed.

Lemma registryOK_processRequestQueue now st :
  fresh st → registryOK st → registryOK (processRequestQueue now st).1.
Proof.
  intros Hf Hr. unfold processRequestQueue. case_match.
  - destruct (Hf (nextId st)) as [Hn _]; [lia|].
    by apply (registryInv_insert_other (timers st)).
  - by apply registryOK_drainLoop.
Qed.

Lemma drainOK_processRequestQueue now st :
  fresh st → calling st = None → drainTimers (timers st) = 0%nat →
  drainOK (processRequestQueue now st).1.
Proof.
  intros Hf Hc Hz. unfold processRequestQueue. case_match.
  - destruct (Hf (nextId st)) as [Hn _]; [lia|].
    unfold drainOK. cbn. rewrite Hc. by apply drainInv_next.
  - by apply drainOK_drainLoop.
Qed.

Lemma registryOK_startStream now s ws st :
  fresh st → registryOK st → registryOK (startStream now s ws st).1.
Proof.
  intros Hf Hr. destruct (Hf (nextId st)) as [Hn _]; [lia|].
  unfold startStream.
  destruct (getProp apiMethods (keyOf s)) as [cfg| |] eqn:Hg; [| |done];
    (destruct (activeStreams st !! s) eqn:Ha; [done|]);
    match goal with
    | |- context [fetchAndBroadcastOptimized ?n ?s ?c ?x] =>
        destruct (fetch_frame n s c x) as (Ht & Hact & _);
        destruct (fetchAndBroadcastOptimized n s c x) as [st' out];
        cbn [fst] in *; unfold registryOK; rewrite Ht, Hact
    end;
    cbn [timers activeStreams setTimer set_nextId set_timers set_configs
           set_activeStreams];
    pose proof (registryInv_start (timers st) (activeStreams st) (nextId st)
                  s now Hn Ha Hr) as Hs;
    unfold catalogueConfig in Hs; rewrite Hg in Hs; exact Hs.
Qed.

Lemma drainOK_startStream now s ws st :
  fresh st → drainOK st → drainOK (startStream now s ws st).1.
Proof.
  intros Hf Hd. destruct (Hf (nextId st)) as [Hn _]; [lia|].
  unfold startStream.
  destruct (getProp apiMethods (keyOf s)) as [cfg| |] eqn:Hg; [| |done];
    (destruct (activeStreams st !! s) eqn:Ha; [done|]);
    match goal with
    | |- context [fetchAndBroadcastOptimized ?n ?s ?c ?x] =>
        destruct (fetch_frame n s c x) as (Ht & _ & Hc & Hl & _);
        destruct (fetchAndBroadcastOptimized n s c x) as [st' out];
        cbn [fst] in *; unfold drainOK; rewrite Ht, Hc, Hl
    end;
    by apply (drainInv_insert_other (timers st)).
Qed.

Lemma registryOK_stopStream s ws st :
  registryOK st → registryOK (stopStream s ws st).1.
Proof.
  intros Hr. unfold stopStream. destruct (activeStreams st !! s) eqn:Ha; [|done].
  by apply (registryInv_stop (timers st) (activeStreams st)).
Qed.

Lemma drainOK_stopStream s ws st :
  registryOK st → drainOK st → drainOK (stopStream s ws st).1.
Proof.
  intros [H1 _] Hd. unfold stopStream.
  destruct (activeStreams st !! s) as [a|] eqn:Ha; [|done].
  apply (drainInv_delete_other (timers st)); [|done].
  intros t Ht. destruct (H1 s a Ha) as (t0 & Ht0 & Htask & _).
  assert (t = t0) as -> by congruence. by rewrite Htask.
Qed.

Lemma registryOK_onTimer now id st :
  fresh st → registryOK st → registryOK (onTimer now id st).1.
Proof.
  intros Hf Hr. unfold onTimer.
  destruct (timers st !! id) as [t|] eqn:Hid; [|done].
  set (st0 := if Timer.repeat t then _ else _).
  assert (fresh st0) as Hf0.
  { subst st0. destruct (Timer.repeat t);
      [by apply fresh_rearm | by apply fresh_delete_timer]. }
  assert (registryOK st0) as Hr0.
  { subst st0. destruct (Timer.repeat t) eqn:Hrep.
    - by apply (registryInv_rearm (timers st)).
    - apply (registryInv_delete_other (timers st)); [|done].
      intros t' s c Ht' Htask. destruct Hr as [H1 H2].
      destruct (H2 id t' s c Ht' Htask) as (a & Ha & Hi).
      destruct (H1 s a Ha) as (t0 & Ht0 & _ & Hrep0 & _).
      rewrite Hi in Ht0. congruence. }
  clearbody st0. destruct (Timer.task t).
  - destruct (fetch_frame now streamName config st0) as (Ht & Ha & _).
    unfold registryOK. by rewrite Ht, Ha.
  - done.
  - done.
  - done.
  - by apply registryOK_processRequestQueue.
  - done.
  - by apply registryOK_drainLoop.
Qed.

Lemma drainOK_onTimer now id st :
  fresh st → drainOK st → drainOK (onTimer now id st).1.
Proof.
  intros Hf Hd. unfold onTimer.
  destruct (timers st !! id) as [t|] eqn:Hid; [|done].
  destruct (isDrainTask (Timer.task t)) eqn:Hdrain.
  - (* the drain loop resumes *)
    assert (Timer.repeat t = false) as -> by (by apply (proj1 (proj2 Hd)) with id).
    destruct (drainInv_fire _ _ _ id t Hid Hdrain Hd) as (Hc & Hz & _).
    pose proof (fresh_delete_timer id st Hf) as Hf0.
    destruct (Timer.task t); try discriminate.
    + by apply drainOK_processRequestQueue.
    + unfold dispatch. cbn [fst]. by apply drainInv_call.
    + by apply drainOK_drainLoop.
  - (* some other timer *)
    set (st0 := if Timer.repeat t then _ else _).
    assert (drainOK st0) as Hd0.
    { subst st0. destruct (Timer.repeat t) eqn:Hrep.
      - by apply (drainInv_rearm (timers st)).
      - apply (drainInv_delete_other (timers st)); [|done].
        intros t' Ht'. congruence. }
    clearbody st0. destruct (Timer.task t); try discriminate.
    + destruct (fetch_frame now streamName config st0) as (Ht & _ & Hc & Hl & _).
      unfold drainOK. by rewrite Ht, Hc, Hl.
    + done.
    + done.
    + done.
Qed.

Lemma registryOK_onSettled clk o st :
  fresh st → registryOK st → registryOK (onSettled clk o st).1.
Proof.
  intros Hf Hr. unfold onSettled. destruct (calling st) as [request|]; [|done].
  unfold settle. cbn [awaiters setTimer set_nextId set_timers].
  rewrite awaiters_noteCall. cbn [awaiters set_calling].
  destruct (awaiters st !! Request.handle request) as [k|].
  - match goal with
    | |- registryOK (resume ?c ?r ?k ?x).1 =>
        destruct (resume_shape c r k x) as (_ & _ & _ & _ & Ht & Ha);
        assert (registryOK x) as Hx;
        [|assert (timers x !! nextId x = None) as Hn;
          [|destruct (resume c r k x) as [st' out]; cbn [fst] in *]]
    end.
    + unfold registryOK. cbn. destruct (makeAPICall o); cbn;
        (apply registryInv_insert_other; [by apply Hf| done | done]).
    + cbn. destruct (makeAPICall o); cbn;
        (rewrite lookup_insert_ne by lia; apply Hf; lia).
    + unfold registryOK in *.
      destruct Ht as [->|(t & -> & _ & Htask)].
      * destruct Ha as [->|[s ->]]; [done|by apply registryInv_bump].
      * destruct Ha as [->|[s ->]].
        -- by apply registryInv_insert_other.
        -- apply registryInv_bump. by apply registryInv_insert_other.
  - unfold registryOK. cbn. destruct (makeAPICall o); cbn;
      (apply registryInv_insert_other; [by apply Hf| done | done]).
Qed.

Lemma drainOK_onSettled clk o st :
  fresh st → drainOK st → drainOK (onSettled clk o st).1.
Proof.
  intros Hf Hd. unfold onSettled.
  destruct (calling st) as [request|] eqn:Hcall; [|done].
  assert (drainTimers (timers st) = 0%nat) as Hz.
  { destruct Hd as [Hc _]. rewrite Hcall in Hc. cbn in Hc. lia. }
  destruct (Hf (nextId st)) as [Hn _]; [lia|].
  destruct (Hf (S (nextId st))) as [Hn1 _]; [lia|].
  unfold settle. cbn [awaiters setTimer set_nextId set_timers].
  rewrite awaiters_noteCall. cbn [awaiters set_calling].
  assert (∀ x, timers x = <[nextId st :=
                 {| Timer.task := QueueGap; Timer.delay := 200;
                    Timer.repeat := false; Timer.armed := clk |}]> (timers st) →
               calling x = None → drainOK x) as Hgap.
  { intros x Ht Hc. unfold drainOK. rewrite Ht, Hc. by apply drainInv_next. }
  destruct (awaiters st !! Request.handle request) as [k|].
  - match goal with
    | |- drainOK (resume ?c ?r ?k ?x).1 =>
        destruct (resume_shape c r k x) as (Hc & Hl & _ & _ & Ht & _);
        assert (drainOK x) as Hx;
        [|assert (timers x !! nextId x = None) as Hnx;
          [|destruct (resume c r k x) as [st' out]; cbn [fst] in *]]
    end.
    + apply Hgap; destruct (makeAPICall o); done.
    + cbn. destruct (makeAPICall o); cbn; by rewrite lookup_insert_ne by lia.
    + unfold drainOK in *. rewrite Hc, Hl.
      destruct Ht as [->|(t & -> & Htask & _)]; [done|].
      by apply drainInv_insert_other.
  - apply Hgap; destruct (makeAPICall o); done.
Qed.

Lemma consistent_step now ev st : consistent st → consistent (step now ev st).1.
Proof.
  intros (Hf & Hr & Hd & Hnd). split; [by apply fresh_step|].
  destruct ev as [ws|ws m|ws|ws|ws|id|o]; cbn [step].
  - split; [done|]. split; [done|]. cbn. unfold addClient.
    case_bool_decide as Hin; [done|].
    apply NoDup_app. split; [done|]. split.
    + intros x Hx Hx'. apply list_elem_of_singleton in Hx'. by subst x.
    + apply NoDup_singleton.
  - destruct m; cbn [handleClientMessage]; try done; stream_name.
    + split; [by apply registryOK_startStream|].
      split; [by apply drainOK_startStream|].
      unfold startStream.
      destruct (getProp apiMethods (keyOf stream)); [| |done];
        (destruct (activeStreams st !! stream); [done|]);
        match goal with
        | |- context [fetchAndBroadcastOptimized ?n ?s ?c ?x] =>
            destruct (fetch_frame n s c x) as (_ & _ & _ & _ & Hcl & _);
            destruct (fetchAndBroadcastOptimized n s c x) as [st' out];
            cbn [fst] in *; by rewrite Hcl
        end.
    + split; [by apply registryOK_stopStream|].
      split; [by apply drainOK_stopStream|].
      unfold stopStream. by destruct (activeStreams st !! stream).
  - done.
  - unfold onClose. cbn [clients set_openSockets set_clients].
    assert (NoDup (deleteClient ws (clients st))) as Hnd'
      by (by apply NoDup_filter).
    case_decide; [|done]. split; [|split; [|done]].
    + by apply (registryInv_stopAll (timers st)).
    + by apply (drainInv_stopAll (timers st) (activeStreams st)).
  - split; [done|]. split; [done|]. by apply NoDup_filter.
  - split; [by apply registryOK_onTimer|]. split; [by apply drainOK_onTimer|].
    unfold onTimer. destruct (timers st !! id) as [t|]; [|done].
    set (st0 := if Timer.repeat t then _ else _).
    assert (clients st0 = clients st) as Hcl0 by (subst st0; by case_match).
    clearbody st0. rewrite <- Hcl0 in Hnd. destruct (Timer.task t); try done.
    + destruct (fetch_frame now streamName config st0) as (_ & _ & _ & _ & Hcl & _).
      by rewrite Hcl.
    + unfold processRequestQueue. case_match; [done|].
      destruct (drainLoop_shape now (set_isProcessingQueue (λ _, true) st0))
        as (_ & _ & Hcl & _). by rewrite Hcl.
    + destruct (drainLoop_shape now st0) as (_ & _ & Hcl & _). by rewrite Hcl.
  - split; [by apply registryOK_onSettled|]. split; [by apply drainOK_onSettled|].
    unfold onSettled. destruct (calling st) as [request|]; [|done].
    unfold settle. cbn [awaiters setTimer set_nextId set_timers].
    rewrite awaiters_noteCall. cbn [awaiters set_calling].
    destruct (awaiters st !! Request.handle request) as [k|].
    + match goal with
      | |- NoDup (clients (resume ?c ?r ?k ?x).1) =>
          destruct (resume_shape c r k x) as (_ & _ & Hcl & _);
          rewrite Hcl
      end.
      cbn. by destruct (makeAPICall o).
    + cbn. by destruct (makeAPICall o).
Qed.

Lemma consistent_init : consistent init.
Proof.
  split; [apply fresh_init|]. split; [|split; [|apply NoDup_nil_2]].
  - split; [done|]. intros id t s c Hid Htask. exfalso.
    cbn in Hid. repeat (rewrite lookup_insert in Hid; case_decide;
      [injection Hid as <-; discriminate|]). done.
  - unfold drainOK. split; [by vm_compute|]. split.
    + intros id t Hid Hdr. cbn in Hid.
      repeat (rewrite lookup_insert in Hid; case_decide;
        [injection Hid as <-; try done; discriminate|]). done.
    + intros id t r Hid Htask. exfalso. cbn in Hid.
      repeat (rewrite lookup_insert in Hid; case_decide;
        [injection Hid as <-; discriminate|]). done.
Qed.

(** Every reachable state has fresh ids, a registry that mirrors the stream
    timers, a single drain loop and no socket listed twice. *)
Lemma reachable_consistent st : reachable st → consistent st.
Proof. induction 1; [apply consistent_init | by apply consistent_step]. Qed.

(** ** The queue is first in, first out *)

Lemma appendOnly_refl st : appendOnly st st.
Proof.
  split; [done|]. split; [|done]. exists []. rewrite app_nil_r.
  split; [done|]. split; [constructor|]. intros q Hq. by apply elem_of_nil in Hq.
Qed.

Lemma StronglySorted_app_lt (l1 l2 : list nat) :
  StronglySorted lt l1 → StronglySorted lt l2 →
  (∀ x y, x ∈ l1 → y ∈ l2 → (x < y)%nat) →
  StronglySorted lt (l1 ++ l2).
Proof.
  intros H1 H2 H. induction H1 as [|x l1 Hs IH Hx]; [done|]. cbn.
  constructor.
  - apply IH. intros a b Ha Hb. apply H; [by apply elem_of_cons; right|done].
  - apply Forall_app. split; [done|]. apply Forall_forall. intros y Hy.
    apply H; [by apply elem_of_cons; left|done].
Qed.

Lemma appendOnly_trans st1 st2 st3 :
  appendOnly st1 st2 → appendOnly st2 st3 → appendOnly st1 st3.
Proof.
  intros (Hn1 & (new1 & Hq1 & Hs1 & Hb1) & Ht1)
         (Hn2 & (new2 & Hq2 & Hs2 & Hb2) & Ht2).
  split; [lia|]. split.
  - exists (new1 ++ new2). rewrite Hq2, Hq1, app_assoc. split; [done|]. split.
    + rewrite map_app. apply StronglySorted_app_lt; [done|done|].
      intros x y Hx Hy. apply list_elem_of_fmap in Hx as (q1 & -> & Hq1').
      apply list_elem_of_fmap in Hy as (q2 & -> & Hq2').
      specialize (Hb1 q1 Hq1'). specialize (Hb2 q2 Hq2'). lia.
    + intros q Hq. apply elem_of_app in Hq as [Hq|Hq].
      * specialize (Hb1 q Hq). lia.
      * specialize (Hb2 q Hq). lia.
  - intros id t r H3 Htask. apply (Ht1 id t r); [|done]. by apply (Ht2 id t r).
Qed.

Lemma appendOnly_frame st st' :
  nextId st' = nextId st → requestQueue st' = requestQueue st →
  (∀ id t r, timers st' !! id = Some t → Timer.task t = QueueDelay r →
             timers st !! id = Some t) →
  appendOnly st st'.
Proof.
  intros Hn Hq Ht. split; [lia|]. split; [|done].
  exists []. rewrite app_nil_r. split; [done|]. split; [constructor|].
  intros q Hin. by apply elem_of_nil in Hin.
Qed.

Lemma appendOnly_queueAPICall m p k st : appendOnly st (queueAPICall m p k st).
Proof.
  split; [cbn; lia|]. split; [|done]. eexists. split; [done|].
  split; [repeat constructor|].
  intros q Hq. apply list_elem_of_singleton in Hq as ->. cbn. lia.
Qed.

Lemma appendOnly_setTimer task delay repeat now st :
  fresh st → (∀ r, task ≠ QueueDelay r) →
  appendOnly st (setTimer task delay repeat now st).
Proof.
  intros Hf Htask. split; [cbn; lia|]. split.
  - exists []. cbn. rewrite app_nil_r. split; [done|]. split; [constructor|].
    intros q Hq. by apply elem_of_nil in Hq.
  - intros id t r Hid Hq. cbn in Hid. rewrite lookup_insert in Hid.
    case_decide; [|done]. injection Hid as <-. by destruct (Htask r).
Qed.

Lemma appendOnly_fetch now s c st :
  appendOnly st (fetchAndBroadcastOptimized now s c st).1.
Proof.
  unfold fetchAndBroadcastOptimized, catchFetch, requestStream.
  repeat case_match; cbn [fst];
    try apply appendOnly_refl; try apply appendOnly_queueAPICall.
  all: apply (appendOnly_trans _ (setBlockParams c st));
    [by apply appendOnly_frame | apply appendOnly_queueAPICall].
Qed.

Lemma appendOnly_resume clk r k st :
  fresh st → appendOnly st (resume clk r k st).1.
Proof.
  intros Hf. destruct k as [s c n|s c n| |]; cbn [resume].
  - unfold resumeGlobalProps, catchFetch, requestStream.
    destruct r as [response|m]; [|apply appendOnly_refl]. cbn [fst].
    match goal with
    | |- appendOnly _ (queueAPICall _ _ _ ?x) =>
        apply (appendOnly_trans _ x); [|apply appendOnly_queueAPICall]
    end.
    apply appendOnly_frame; by destruct (Response.result response).
  - destruct (resumeFetch_frame clk r s c n st)
      as (Ht & _ & _ & _ & _ & Hq & Hn & _).
    apply appendOnly_frame; try done. by rewrite Ht.
  - destruct r as [response|m].
    + destruct (Response.result response) as [p|]; [|apply appendOnly_refl].
      destruct (truthyNumber _); [|apply appendOnly_refl]. cbn [fst].
      apply (appendOnly_trans _
               (set_currentBlock (λ _, head_block_number p) st)).
      * by apply appendOnly_frame.
      * by apply appendOnly_setTimer.
    + by apply appendOnly_setTimer.
  - destruct r as [response|m]; [|apply appendOnly_refl].
    destruct (Response.result response); [|apply appendOnly_refl].
    by apply appendOnly_frame.
Qed.

Lemma queueInv_appendOnly b st st' :
  appendOnly st st' → queueInv b st → queueInv b st'.
Proof.
  intros (Hn & (new & Hq & Hs & Hb) & Ht) (Hsorted & Hrange & Hwait & Hbn).
  split; [|split; [|split; [|lia]]].
  - rewrite Hq, map_app. apply StronglySorted_app_lt; [done|done|].
    intros x y Hx Hy. apply list_elem_of_fmap in Hx as (q1 & -> & Hq1).
    apply list_elem_of_fmap in Hy as (q2 & -> & Hq2).
    specialize (Hrange q1 Hq1). specialize (Hb q2 Hq2). lia.
  - intros q Hin. rewrite Hq in Hin. apply elem_of_app in Hin as [Hin|Hin].
    + specialize (Hrange q Hin). lia.
    + specialize (Hb q Hin). lia.
  - intros id t r Hid Htask.
    destruct (Hwait id t r (Ht id t r Hid Htask) Htask) as [Hr Hall].
    split; [lia|]. intros q Hin. rewrite Hq in Hin.
    apply elem_of_app in Hin as [Hin|Hin]; [by apply Hall|].
    specialize (Hb q Hin). lia.
Qed.

(** ** Who is written to *)

Lemma pushesOnly_broadcast data st : pushesOnly st (broadcast data st).
Proof.
  rewrite broadcast_sends. apply Forall_forall. intros a Ha.
  apply list_elem_of_fmap in Ha as (ws & -> & Hws).
  apply list_elem_of_filter in Hws as [Hopen Hin]. by exists ws, data.
Qed.

Lemma pushesOnly_frame st st' out :
  clients st' = clients st → openSockets st' = openSockets st →
  pushesOnly st' out → pushesOnly st out.
Proof. unfold pushesOnly. by intros -> ->. Qed.

Lemma pushesOnly_nil st : pushesOnly st [].
Proof. constructor. Qed.

Lemma pushesOnly_no_upstream st out r : pushesOnly st out → Upstream r ∉ out.
Proof.
  intros H Hin. eapply Forall_forall in H as (ws & m & Heq & _); [|exact Hin].
  discriminate.
Qed.

Lemma pushesOnly_fetch now s c st :
  pushesOnly st (fetchAndBroadcastOptimized now s c st).2.
Proof.
  unfold fetchAndBroadcastOptimized, catchFetch.
  repeat case_match; cbn [snd];
    try apply pushesOnly_nil; apply pushesOnly_broadcast.
Qed.

Lemma pushesOnly_resumeFetch clk r s c now st :
  pushesOnly st (resumeFetch clk r s c now st).2.
Proof.
  unfold resumeFetch, catchFetch.
  destruct r as [response|m]; [|apply pushesOnly_broadcast].
  destruct (Response.result response) as [result|];
    [|destruct (Response.error response);
      [apply pushesOnly_broadcast|apply pushesOnly_nil]].
  destruct (Config.processor _) as [f|]; [|apply pushesOnly_broadcast].
  destruct (runProcessor_fields f result st) as (_ & Hcl & Hop & _).
  destruct (runProcessor f result st) as [d x]. cbn [fst snd] in *.
  destruct (getProp (cache x) (keyOf s)); cbn [snd].
  - destruct (activeStreams _ !! s); cbn [snd];
      (eapply pushesOnly_frame; [| |apply pushesOnly_broadcast]); done.
  - destruct (activeStreams _ !! s); cbn [snd];
      (eapply pushesOnly_frame; [| |apply pushesOnly_broadcast]); done.
  - eapply pushesOnly_frame; [| |apply pushesOnly_broadcast]; done.
Qed.

Lemma pushesOnly_resume clk r k st : pushesOnly st (resume clk r k st).2.
Proof.
  destruct k as [s c n|s c n| |]; cbn [resume].
  - unfold resumeGlobalProps, catchFetch.
    destruct r; [apply pushesOnly_nil|apply pushesOnly_broadcast].
  - apply pushesOnly_resumeFetch.
  - repeat case_match; apply pushesOnly_nil.
  - repeat case_match; apply pushesOnly_nil.
Qed.

Lemma pushesOnly_onSettled clk o st : pushesOnly st (onSettled clk o st).2.
Proof.
  unfold onSettled. destruct (calling st) as [request|]; [|apply pushesOnly_nil].
  unfold settle. destruct (awaiters _ !! _) as [k|]; [|apply pushesOnly_nil].
  eapply pushesOnly_frame; [| |apply pushesOnly_resume];
    cbn; by destruct (makeAPICall o).
Qed.

Lemma onTimer_outputs now id st :
  pushesOnly st (onTimer now id st).2
  ∨ ∃ r t, (onTimer now id st).2 = [Upstream r]
           ∧ timers st !! id = Some t
           ∧ isDrainTask (Timer.task t) = true
           ∧ calling (onTimer now id st).1 = Some r.
Proof.
  unfold onTimer. destruct (timers st !! id) as [t|] eqn:Hid;
    [|left; apply pushesOnly_nil].
  set (st0 := if Timer.repeat t then _ else _).
  assert (clients st0 = clients st ∧ openSockets st0 = openSockets st)
    as [Hcl Hop] by (subst st0; by case_match).
  clearbody st0. destruct (Timer.task t) eqn:Htask;
    try (left; apply pushesOnly_nil).
  - left. eapply pushesOnly_frame; [| |apply pushesOnly_fetch]; done.
  - unfold processRequestQueue.
    case_match; [left; apply pushesOnly_nil|].
    destruct (drainLoop_shape now (set_isProcessingQueue (λ _, true) st0))
      as (_ & _ & _ & [(_ & -> & _)|[(r & rest & _ & -> & _)
                                    |(r & rest & _ & -> & _ & Hc & _)]]);
      [left; apply pushesOnly_nil|left; apply pushesOnly_nil|].
    right. exists r, t. by rewrite Htask.
  - right. exists request, t. by rewrite Htask.
  - destruct (drainLoop_shape now st0)
      as (_ & _ & _ & [(_ & -> & _)|[(r & rest & _ & -> & _)
                                    |(r & rest & _ & -> & _ & Hc & _)]]);
      [left; apply pushesOnly_nil|left; apply pushesOnly_nil|].
    right. exists r, t. by rewrite Htask.
Qed.

(** X8: A message is written either to the socket whose event is being
    handled or, as a push, to a socket that is connected and OPEN. *)
Theorem sends_reach_requester_or_open_sockets
    (now : Z) (ev : Event) (st : State) (ws : nat) (m : Msg) :
  Send ws m ∈ (step now ev st).2 →
  ev = Connect ws ∨ (∃ cm, ev = Message ws cm)
  ∨ (ws ∈ clients st ∧ ws ∈ openSockets st).
Proof.
  assert (∀ out, pushesOnly st out → Send ws m ∈ out →
                 ws ∈ clients st ∧ ws ∈ openSockets st) as Hpush.
  { intros out Hout Hin.
    eapply Forall_forall in Hout as (ws' & m' & Heq & Hcl & Hop); [|exact Hin].
    by injection Heq as <- <-. }
  destruct ev as [ws'|ws' cm|ws'|ws'|ws'|id|o]; cbn [step].
  - cbn. intros Hin. apply list_elem_of_singleton in Hin. injection Hin as <- _.
    by left.
  - intros Hin. destruct cm; cbn [handleClientMessage] in Hin; stream_name.
    + unfold startStream in Hin.
      destruct (getProp apiMethods (keyOf name)).
      1,2: destruct (activeStreams st !! name);
        [apply list_elem_of_singleton in Hin; injection Hin as <- _;
         right; left; eauto|];
        match type of Hin with
        | context [fetchAndBroadcastOptimized ?n ?s ?c ?x] =>
            pose proof (pushesOnly_fetch n s c x) as Hp;
            destruct (fetchAndBroadcastOptimized n s c x) as [st' out];
            cbn [fst snd] in *
        end;
        (apply elem_of_app in Hin as [Hin|Hin];
         [right; right; by apply (Hpush out)
         |apply list_elem_of_singleton in Hin; injection Hin as <- _;
          right; left; eauto]).
      apply list_elem_of_singleton in Hin. injection Hin as <- _.
      right; left; eauto.
    + unfold stopStream in Hin. destruct (activeStreams st !! name);
        [|by apply elem_of_nil in Hin].
      apply list_elem_of_singleton in Hin. injection Hin as <- _.
      right; left; eauto.
    + apply list_elem_of_singleton in Hin. injection Hin as <- _.
      right; left; eauto.
    + apply list_elem_of_singleton in Hin. injection Hin as <- _.
      right; left; eauto.
    + apply list_elem_of_singleton in Hin. injection Hin as <- _.
      right; left; eauto.
    + apply list_elem_of_singleton in Hin. injection Hin as <- _.
      right; left; eauto.
  - intros Hin. by apply elem_of_nil in Hin.
  - unfold onClose. case_decide; intros Hin; by apply elem_of_nil in Hin.
  - intros Hin. by apply elem_of_nil in Hin.
  - intros Hin. right; right.
    destruct (onTimer_outputs now id st) as [Hp|(r & t & Hout & _)];
      [by apply (Hpush _ Hp)|].
    rewrite Hout in Hin. apply list_elem_of_singleton in Hin. discriminate.
  - intros Hin. right; right. by apply (Hpush _ (pushesOnly_onSettled now o st)).
Qed.

Lemma sends_reach_requester_or_open_sockets_witness :
  answer = Connect 0%nat ∨ (∃ cm, answer = Message 0%nat cm)
  ∨ (0%nat ∈ clients (run fetchIssued init).1
     ∧ 0%nat ∈ openSockets (run fetchIssued init).1).
Proof.
  apply (sends_reach_requester_or_open_sockets 1300 answer
           (run fetchIssued init).1 0%nat
           (LiveData (NString "dynamic_global_properties") samplePayload false None 1300)).
  replace (step 1300 answer (run fetchIssued init).1).2
    with [Send 0%nat (LiveData (NString "dynamic_global_properties") samplePayload false
                        None 1300)] by (vm_compute; reflexivity).
  apply list_elem_of_singleton. reflexivity.
Defined.

(** ** Upstream calls: one at a time, spaced, in order *)

Lemma handleClientMessage_no_upstream now ws cm st r :
  Upstream r ∉ (handleClientMessage now ws cm st).2.
Proof.
  intros Hin.
  assert (∃ ws' m, Upstream r = Send ws' m) as (? & ? & ?); [|discriminate].
  destruct cm; cbn [handleClientMessage] in Hin; stream_name.
  - unfold startStream in Hin. destruct (getProp apiMethods (keyOf stream)).
    1,2: destruct (activeStreams st !! stream);
      [apply list_elem_of_singleton in Hin; eauto|];
      match type of Hin with
      | context [fetchAndBroadcastOptimized ?n ?s ?c ?x] =>
          pose proof (pushesOnly_fetch n s c x) as Hp;
          destruct (fetchAndBroadcastOptimized n s c x) as [st' out];
          cbn [fst snd] in *
      end;
      (apply elem_of_app in Hin as [Hin|Hin];
       [by destruct (pushesOnly_no_upstream _ _ r Hp)
       |apply list_elem_of_singleton in Hin; eauto]).
    apply list_elem_of_singleton in Hin. eauto.
  - unfold stopStream in Hin. destruct (activeStreams st !! stream);
      [|by apply elem_of_nil in Hin].
    apply list_elem_of_singleton in Hin. eauto.
  - apply list_elem_of_singleton in Hin. eauto.
  - apply list_elem_of_singleton in Hin. eauto.
  - apply list_elem_of_singleton in Hin. eauto.
  - apply list_elem_of_singleton in Hin. eauto.
Qed.

Lemma step_upstream now ev st r :
  Upstream r ∈ (step now ev st).2 →
  ∃ id t, ev = Fire id ∧ timers st !! id = Some t
          ∧ isDrainTask (Timer.task t) = true
          ∧ (step now ev st).2 = [Upstream r]
          ∧ calling (step now ev st).1 = Some r.
Proof.
  destruct ev as [ws|ws cm|ws|ws|ws|id|o]; cbn [step]; intros Hin.
  - apply list_elem_of_singleton in Hin. discriminate.
  - by destruct (handleClientMessage_no_upstream now ws cm st r).
  - by apply elem_of_nil in Hin.
  - unfold onClose in Hin. case_decide; by apply elem_of_nil in Hin.
  - by apply elem_of_nil in Hin.
  - destruct (onTimer_outputs now id st) as [Hp|(r' & t & Hout & Hid & Hd & Hc)].
    + by destruct (pushesOnly_no_upstream _ _ r Hp).
    + rewrite Hout in Hin. apply list_elem_of_singleton in Hin.
      injection Hin as ->. by exists id, t.
  - by destruct (pushesOnly_no_upstream _ _ r (pushesOnly_onSettled now o st)).
Qed.

(** X1: No two upstream calls are in progress at once: in every reachable
    state a call is issued only when none is being awaited, a step issues at
    most one, and the call issued becomes the one in progress. *)
Theorem upstream_calls_are_sequential
    (now : Z) (ev : Event) (st : State) (r : Request.t) :
  reachable st → Upstream r ∈ (step now ev st).2 →
  calling st = None
  ∧ (step now ev st).2 = [Upstream r]
  ∧ calling (step now ev st).1 = Some r.
Proof.
  intros Hreach Hin.
  destruct (step_upstream now ev st r Hin) as (id & t & -> & Hid & Hd & Hout & Hc).
  destruct (reachable_consistent st Hreach) as (_ & _ & Hdrain & _).
  destruct (drainInv_fire _ _ _ id t Hid Hd Hdrain) as (Hnone & _).
  done.
Qed.

Lemma upstream_calls_are_sequential_witness :
  calling (run streamStarted init).1 = None
  ∧ calling (step 1000 (Fire 1%nat) (run streamStarted init).1).1
    = Some firstRequest.
Proof.
  destruct (upstream_calls_are_sequential 1000 (Fire 1%nat)
              (run streamStarted init).1 firstRequest) as (Hnone & _ & Hcall).
  - apply reachable_run, reachable_init.
  - replace (step 1000 (Fire 1%nat) (run streamStarted init).1).2
      with [Upstream firstRequest] by (vm_compute; reflexivity).
    apply list_elem_of_singleton. reflexivity.
  - split; [exact Hnone|exact Hcall].
Defined.

(** X2: A call is never issued less than [requestDelay] after the completion
    of the last call that succeeded: whenever an enabled event of a
    reachable state issues a call, the clock is at least
    [lastRequestTime + requestDelay]. *)
Theorem upstream_call_waits_for_spacing
    (now : Z) (ev : Event) (st : State) (r : Request.t) :
  reachable st → enabled now ev st = true →
  Upstream r ∈ (step now ev st).2 →
  lastRequestTime st + requestDelay <= now.
Proof.
  intros Hreach Hen Hin.
  destruct (step_upstream now ev st r Hin) as (id & t & -> & Hid & Hd & Hout & _).
  destruct (reachable_consistent st Hreach) as (_ & _ & Hdrain & _).
  assert (Timer.repeat t = false) as Hrep
    by (by apply (proj1 (proj2 Hdrain)) with id).
  cbn [step enabled] in *. rewrite Hid in Hen.
  apply bool_decide_eq_true_1 in Hen.
  unfold onTimer in Hout. rewrite Hid, Hrep in Hout.
  destruct (Timer.task t) eqn:Htask; try discriminate.
  - unfold processRequestQueue in Hout.
    case_match; [discriminate|].
    match type of Hout with
    | (drainLoop ?n ?x).2 = _ =>
        destruct (drainLoop_shape n x)
          as (_ & _ & _ & [(_ & Ho & _)|[(r' & rest & _ & Ho & _)
                                        |(r' & rest & _ & _ & Hsp & _)]])
    end; [congruence|congruence|]. cbn in Hsp. lia.
  - destruct Hdrain as (_ & _ & Hdelay).
    specialize (Hdelay id t request Hid Htask). lia.
  - match type of Hout with
    | (drainLoop ?n ?x).2 = _ =>
        destruct (drainLoop_shape n x)
          as (_ & _ & _ & [(_ & Ho & _)|[(r' & rest & _ & Ho & _)
                                        |(r' & rest & _ & _ & Hsp & _)]])
    end; [congruence|congruence|]. cbn in Hsp. lia.
Qed.

Lemma upstream_call_waits_for_spacing_witness :
  execution 0 (secondCallParked ++ [(2300, Fire 8%nat)]) init = true
  ∧ lastRequestTime (run secondCallParked init).1 = 1300
  ∧ lastRequestTime (run secondCallParked init).1 + requestDelay <= 2300.
Proof.
  split; [vm_compute; reflexivity|]. split; [vm_compute; reflexivity|].
  apply (upstream_call_waits_for_spacing 2300 (Fire 8%nat)
           (run secondCallParked init).1 secondRequest).
  - apply reachable_run, reachable_init.
  - vm_compute. reflexivity.
  - replace (step 2300 (Fire 8%nat) (run secondCallParked init).1).2
      with [Upstream secondRequest] by (vm_compute; reflexivity).
    apply list_elem_of_singleton. reflexivity.
Defined.

Lemma StronglySorted_head_lt (x : nat) (l : list nat) y :
  StronglySorted lt (x :: l) → y ∈ l → (x < y)%nat.
Proof.
  intros H Hy. apply StronglySorted_inv in H as [_ H].
  by eapply Forall_forall in H.
Qed.

Lemma queueInv_drainLoop now st b :
  drainTimers (timers st) = 0%nat → queueInv b st →
  ((drainLoop now st).2 = [] ∧ queueInv b (drainLoop now st).1)
  ∨ ∃ r, (drainLoop now st).2 = [Upstream r]
         ∧ (b < Request.handle r)%nat
         ∧ queueInv (Request.handle r) (drainLoop now st).1.
Proof.
  intros Hz (Hsorted & Hrange & Hwait & Hbn).
  assert (∀ id t r, timers st !! id = Some t → Timer.task t = QueueDelay r → False)
    as Hnone.
  { intros id t r Hid Htask. pose proof (drainTimers_zero _ id t Hz Hid) as Hd.
    rewrite Htask in Hd. discriminate. }
  unfold drainLoop, dispatch.
  destruct (requestQueue st) as [|r rest] eqn:Hq.
  - left. split; [done|]. cbn [fst]. unfold queueInv. cbn. rewrite Hq.
    split; [constructor|]. split.
    { intros q Hin. by apply elem_of_nil in Hin. }
    split; [|lia].
    intros id t r Hid Htask. rewrite lookup_insert in Hid. case_decide.
    + injection Hid as <-. discriminate.
    + by destruct (Hnone id t r).
  - assert (b < Request.handle r < nextId st)%nat as Hr
      by (apply Hrange; apply elem_of_cons; by left).
    assert (∀ q, q ∈ rest → (Request.handle r < Request.handle q < nextId st)%nat)
      as Hrest.
    { intros q Hin. split.
      - apply (StronglySorted_head_lt _ (map Request.handle rest)); [done|].
        apply list_elem_of_fmap. by exists q.
      - apply Hrange. apply elem_of_cons. by right. }
    apply StronglySorted_inv in Hsorted as [Hsorted _].
    cbn [lastRequestTime set_requestQueue]. case_bool_decide.
    + left. split; [done|]. cbn [fst]. unfold queueInv. cbn.
      split; [done|]. split.
      { intros q Hin. specialize (Hrest q Hin). lia. }
      split; [|lia].
      intros id t r' Hid Htask. rewrite lookup_insert in Hid. case_decide.
      * injection Hid as <-. cbn in Htask. injection Htask as <-.
        split; [lia|]. intros q Hin. specialize (Hrest q Hin). lia.
      * by destruct (Hnone id t r').
    + right. exists r. split; [done|]. split; [lia|]. cbn [fst].
      unfold queueInv. cbn. split; [done|]. split.
      { intros q Hin. specialize (Hrest q Hin). lia. }
      split; [|lia].
      intros id t r' Hid Htask. by destruct (Hnone id t r').
Qed.

Lemma appendOnly_startStream now s ws st :
  fresh st → appendOnly st (startStream now s ws st).1.
Proof.
  intros Hf. unfold startStream.
  destruct (getProp apiMethods (keyOf s)); [| |apply appendOnly_refl];
    (destruct (activeStreams st !! s); [apply appendOnly_refl|]);
    match goal with
    | |- context [fetchAndBroadcastOptimized ?n ?s ?c ?x] =>
        pose proof (appendOnly_fetch n s c x) as Hx;
        destruct (fetchAndBroadcastOptimized n s c x) as [st' out];
        cbn [fst] in *;
        apply (appendOnly_trans _ x); [|exact Hx]
    end;
    match goal with
    | |- appendOnly _ (set_activeStreams _ (set_configs _ ?y)) =>
        apply (appendOnly_trans _ y);
        [by apply appendOnly_setTimer|by apply appendOnly_frame]
    end.
Qed.

Lemma appendOnly_onSettled clk o st :
  fresh st → appendOnly st (onSettled clk o st).1.
Proof.
  intros Hf. unfold onSettled.
  destruct (calling st) as [request|]; [|apply appendOnly_refl].
  unfold settle. cbn [awaiters setTimer set_nextId set_timers].
  rewrite awaiters_noteCall. cbn [awaiters set_calling].
  assert (∀ x, nextId x = S (nextId st) → requestQueue x = requestQueue st →
               timers x = <[nextId st :=
                 {| Timer.task := QueueGap; Timer.delay := 200;
                    Timer.repeat := false; Timer.armed := clk |}]> (timers st) →
               appendOnly st x) as Hgap.
  { intros x Hn Hq Ht. split; [lia|]. split.
    - exists []. rewrite app_nil_r. split; [done|]. split; [constructor|].
      intros q Hin. by apply elem_of_nil in Hin.
    - intros id t r Hid Htask. rewrite Ht, lookup_insert in Hid.
      case_decide; [|done]. injection Hid as <-. discriminate. }
  destruct (awaiters st !! Request.handle request) as [k|].
  - match goal with
    | |- appendOnly _ (resume ?c ?r ?k ?x).1 =>
        apply (appendOnly_trans _ x); [|apply appendOnly_resume]
    end.
    + apply Hgap; by destruct (makeAPICall o).
    + apply fresh_delete_awaiter, fresh_setTimer. unfold noteCall.
      by case_match.
  - apply Hgap; by destruct (makeAPICall o).
Qed.

Lemma queueInv_step now ev st b :
  consistent st → queueInv b st →
  ((∀ r, Upstream r ∉ (step now ev st).2) ∧ queueInv b (step now ev st).1)
  ∨ ∃ r, (step now ev st).2 = [Upstream r]
         ∧ (b < Request.handle r)%nat
         ∧ queueInv (Request.handle r) (step now ev st).1.
Proof.
  intros (Hf & Hr & Hd & _) Hq.
  assert (∀ st', appendOnly st st' → (∀ r, Upstream r ∉ (step now ev st).2) →
     ((∀ r, Upstream r ∉ (step now ev st).2) ∧ queueInv b st')
     ∨ ∃ r, (step now ev st).2 = [Upstream r]
            ∧ (b < Request.handle r)%nat
            ∧ queueInv (Request.handle r) st') as Hquiet.
  { intros st' Ha Hno. left. split; [done|]. by apply (queueInv_appendOnly b st). }
  destruct ev as [ws|ws cm|ws|ws|ws|id|o].
  - apply Hquiet; [by apply appendOnly_frame|].
    intros r Hin. cbn in Hin. apply list_elem_of_singleton in Hin. discriminate.
  - apply Hquiet; [|intros r; apply handleClientMessage_no_upstream].
    cbn [step]. destruct cm; cbn [handleClientMessage];
      try apply appendOnly_refl; stream_name.
    + by apply appendOnly_startStream.
    + unfold stopStream. destruct (activeStreams st !! name) as [a|];
        [|apply appendOnly_refl].
      apply appendOnly_frame; try done.
      intros id t r Hid _. cbn in Hid. by apply lookup_delete_Some in Hid as [_ ?].
  - apply Hquiet; [by apply appendOnly_frame|].
    intros r Hin. by apply elem_of_nil in Hin.
  - apply Hquiet.
    + cbn [step]. unfold onClose. case_decide; [|by apply appendOnly_frame].
      apply appendOnly_frame; try done.
      intros id t r Hid _. cbn in Hid. by apply foldr_delete_Some in Hid as [? _].
    + intros r Hin. cbn [step] in Hin. unfold onClose in Hin.
      case_decide; by apply elem_of_nil in Hin.
  - apply Hquiet; [by apply appendOnly_frame|].
    intros r Hin. by apply elem_of_nil in Hin.
  - cbn [step]. unfold onTimer.
    destruct (timers st !! id) as [t|] eqn:Hid.
    2:{ left. split; [|done]. intros r Hin. by apply elem_of_nil in Hin. }
    destruct (isDrainTask (Timer.task t)) eqn:Hdrain.
    + assert (Timer.repeat t = false) as ->
        by (by apply (proj1 (proj2 Hd)) with id).
      destruct (drainInv_fire _ _ _ id t Hid Hdrain Hd) as (Hc & Hz & _).
      assert (queueInv b (set_timers (delete id) st)) as Hq0.
      { apply (queueInv_appendOnly b st); [|done].
        apply appendOnly_frame; try done.
        intros id' t' r Hid' _. cbn in Hid'.
        by apply lookup_delete_Some in Hid' as [_ ?]. }
      assert (∀ x, ((drainLoop now x).2 = [] ∧ queueInv b (drainLoop now x).1)
         ∨ (∃ r, (drainLoop now x).2 = [Upstream r] ∧ (b < Request.handle r)%nat
                 ∧ queueInv (Request.handle r) (drainLoop now x).1) →
         ((∀ r, Upstream r ∉ (drainLoop now x).2) ∧ queueInv b (drainLoop now x).1)
         ∨ (∃ r, (drainLoop now x).2 = [Upstream r] ∧ (b < Request.handle r)%nat
                 ∧ queueInv (Request.handle r) (drainLoop now x).1)) as Hconv.
      { intros x [[Ho Hi]|H]; [left|by right]. split; [|done].
        intros r Hin. rewrite Ho in Hin. by apply elem_of_nil in Hin. }
      destruct (Timer.task t) eqn:Htask; try discriminate.
      * unfold processRequestQueue. case_match.
        -- left. split; [intros r Hin; by apply elem_of_nil in Hin|].
           apply (queueInv_appendOnly b (set_timers (delete id) st)); [|done].
           apply appendOnly_setTimer; [by apply fresh_delete_timer|done].
        -- apply Hconv. by apply queueInv_drainLoop.
      * right. exists request. cbn [dispatch fst snd]. split; [done|].
        destruct Hq as (Hs & Hrange & Hwait & Hbn).
        destruct (Hwait id t request Hid Htask) as [Hb Hall].
        split; [lia|]. split; [done|]. split; [|split; [|cbn; lia]].
        -- intros q Hin. specialize (Hrange q Hin). specialize (Hall q Hin).
           cbn in *. lia.
        -- intros id' t' r' Hid' Htask'. cbn in Hid'.
           pose proof (drainTimers_zero _ id' t' Hz Hid') as Hn.
           rewrite Htask' in Hn. discriminate.
      * apply Hconv. by apply queueInv_drainLoop.
    + set (st0 := if Timer.repeat t then _ else _).
      assert (appendOnly st st0) as Ha0.
      { subst st0. destruct (Timer.repeat t) eqn:Hrep.
        - apply appendOnly_frame; try done.
          intros id' t' r Hid' Htask'. cbn in Hid'.
          rewrite lookup_insert in Hid'. case_decide; [|done].
          injection Hid' as <-. cbn in Htask'. rewrite Htask' in Hdrain.
          discriminate.
        - apply appendOnly_frame; try done.
          intros id' t' r Hid' _. cbn in Hid'.
          by apply lookup_delete_Some in Hid' as [_ ?]. }
      assert (fresh st0) as Hf0.
      { subst st0. destruct (Timer.repeat t);
          [by apply fresh_rearm | by apply fresh_delete_timer]. }
      assert (clients st0 = clients st ∧ openSockets st0 = openSockets st)
        as [Hcl Hop] by (subst st0; by case_match).
      clearbody st0. left.
      destruct (Timer.task t) eqn:Htask; try discriminate; cbn [fst snd].
      * split.
        -- intros r. apply (pushesOnly_no_upstream st0), pushesOnly_fetch.
        -- apply (queueInv_appendOnly b st); [|done].
           apply (appendOnly_trans _ st0); [done|apply appendOnly_fetch].
      * split; [intros r Hin; by apply elem_of_nil in Hin|].
        apply (queueInv_appendOnly b st); [|done].
        apply (appendOnly_trans _ st0); [done|by apply appendOnly_frame].
      * split; [intros r Hin; by apply elem_of_nil in Hin|].
        apply (queueInv_appendOnly b st); [|done].
        apply (appendOnly_trans _ st0); [done|apply appendOnly_queueAPICall].
      * split; [intros r Hin; by apply elem_of_nil in Hin|].
        apply (queueInv_appendOnly b st); [|done].
        apply (appendOnly_trans _ st0); [done|apply appendOnly_queueAPICall].
  - apply Hquiet; [by apply appendOnly_onSettled|].
    intros r. apply (pushesOnly_no_upstream st), pushesOnly_onSettled.
Qed.

Lemma dispatchedHandles_app l1 l2 :
  dispatchedHandles (l1 ++ l2) = dispatchedHandles l1 ++ dispatchedHandles l2.
Proof. unfold dispatchedHandles. apply omap_app. Qed.

Lemma dispatchedHandles_quiet (now : Z) (out : list Action) :
  (∀ r, Upstream r ∉ out) → dispatchedHandles (map (λ a, (now, a)) out) = [].
Proof.
  induction out as [|a out IH]; intros H; [done|].
  destruct a as [ws m|r].
  - cbn. apply IH. intros r Hin. apply (H r). by apply elem_of_cons; right.
  - destruct (H r). by apply elem_of_cons; left.
Qed.

Lemma run_dispatch_sorted tr st b :
  consistent st → queueInv b st →
  StronglySorted lt (dispatchedHandles (run tr st).2)
  ∧ Forall (λ h, (b < h)%nat) (dispatchedHandles (run tr st).2).
Proof.
  revert st b. induction tr as [|[now ev] tr IH]; intros st b Hc Hq.
  { split; constructor. }
  cbn [run]. pose proof (consistent_step now ev st Hc) as Hc1.
  pose proof (queueInv_step now ev st b Hc Hq) as Hstep.
  destruct (step now ev st) as [st1 out]. cbn [fst snd] in *.
  destruct Hstep as [[Hno Hq1]|(r & -> & Hb & Hq1)].
  - destruct (IH st1 b Hc1 Hq1) as [Hs Hall].
    destruct (run tr st1) as [st2 log]. cbn [snd] in *.
    by rewrite dispatchedHandles_app, dispatchedHandles_quiet.
  - destruct (IH st1 (Request.handle r) Hc1 Hq1) as [Hs Hall].
    destruct (run tr st1) as [st2 log]. cbn [snd] in *.
    change (StronglySorted lt (Request.handle r :: dispatchedHandles log)
            ∧ Forall (λ h, (b < h)%nat)
                (Request.handle r :: dispatchedHandles log)).
    split; [by constructor|]. constructor; [done|].
    eapply Forall_impl; [exact Hall|]. intros h Hh. cbn in Hh. lia.
Qed.

(** X3: The queue is first in, first out: in every run from the initial state
    the upstream calls are issued in increasing order of their handles,
    that is in the order in which [queueAPICall] queued them. *)
Theorem requests_dispatched_in_queue_order (tr : list (Z * Event)) :
  StronglySorted lt (dispatchedHandles (run tr init).2).
Proof.
  apply (run_dispatch_sorted tr init 0%nat); [apply consistent_init|].
  split; [constructor|]. split.
  { intros q Hin. by apply elem_of_nil in Hin. }
  split; [|cbn; lia].
  intros id t r Hid Htask. exfalso. cbn in Hid.
  repeat (rewrite lookup_insert in Hid; case_decide;
    [injection Hid as <-; discriminate|]). done.
Qed.

(** ** Registry and timers in reachable states *)

(** X4: An active stream has its repeating timer, armed with the interval of
    its catalogue entry (1 ms when the entry has none). *)
Theorem active_stream_has_its_timer
    (st : State) (s : Name) (a : Stream.t) :
  reachable st → activeStreams st !! s = Some a →
  ∃ t, timers st !! Stream.intervalId a = Some t
       ∧ Timer.task t = StreamTick s (Stream.config a)
       ∧ Timer.repeat t = true
       ∧ Timer.delay t
         = timerDelay (Config.interval (catalogueConfig (keyOf s))).
Proof.
  intros Hreach Ha.
  destruct (reachable_consistent st Hreach) as (_ & [H1 _] & _). by apply H1.
Qed.

Lemma active_stream_has_its_timer_witness :
  ∃ t, timers (run twoClientsJoin init).1 !! 3%nat = Some t
       ∧ Timer.task t = StreamTick (NString "block") 3
       ∧ Timer.repeat t = true
       ∧ Timer.delay t = 12000.
Proof.
  apply (active_stream_has_its_timer (run twoClientsJoin init).1
           (NString "block")
           {| Stream.intervalId := 3; Stream.config := 3;
              Stream.startTime := 100; Stream.requestCount := 0 |}).
  - apply reachable_run, reachable_init.
  - vm_compute. reflexivity.
Defined.

(** X5: A stream timer always belongs to the registry entry stored under
    the very value the stream was started with, and that entry holds the
    timer's id; so a registry key never has two timers, and a stream with a
    string name that is not active has no timer left.  (Keys are compared
    as the [Map] does: two arrays with equal contents are two keys.) *)
Theorem stream_timer_belongs_to_active_stream
    (st : State) (id id' : nat) (t t' : Timer.t) (s : Name) (c c' : nat) :
  reachable st →
  timers st !! id = Some t → Timer.task t = StreamTick s c →
  (∃ a, activeStreams st !! s = Some a ∧ Stream.intervalId a = id)
  ∧ (timers st !! id' = Some t' → Timer.task t' = StreamTick s c' → id' = id).
Proof.
  intros Hreach Hid Htask.
  destruct (reachable_consistent st Hreach) as (_ & [_ H2] & _).
  destruct (H2 id t s c Hid Htask) as (a & Ha & Hi).
  split; [by exists a|]. intros Hid' Htask'.
  destruct (H2 id' t' s c' Hid' Htask') as (a' & Ha' & Hi'). congruence.
Qed.

Lemma stream_timer_belongs_to_active_stream_witness :
  ∃ a, activeStreams (run arrayStartedTwice init).1 !! NObject 5 "block"
       = Some a
       ∧ Stream.intervalId a = 5%nat.
Proof.
  apply (stream_timer_belongs_to_active_stream (run arrayStartedTwice init).1
           5%nat 5%nat
           {| Timer.task := StreamTick (NObject 5 "block") 5;
              Timer.delay := 12000; Timer.repeat := true;
              Timer.armed := 200 |}
           {| Timer.task := StreamTick (NObject 5 "block") 5;
              Timer.delay := 12000; Timer.repeat := true;
              Timer.armed := 200 |}
           (NObject 5 "block") 5%nat 5%nat).
  - apply reachable_run, reachable_init.
  - vm_compute. reflexivity.
  - reflexivity.
Defined.

(** ** Starting and stopping *)

(** X6: Starting an inactive stream under a string name and stopping it
    again leaves the registry, the timers and the cache exactly as they
    were: no timer leaks.  (A request queued by the start stays queued.) *)
Theorem start_then_stop_restores_registry
    (now now' : Z) (s : string) (ws ws' : nat) (st : State) :
  reachable st → activeStreams st !! NString s = None →
  let st1 := (step now (Message ws (start_stream (JString s))) st).1 in
  let st2 := (step now' (Message ws' (stop_stream (JString s))) st1).1 in
  activeStreams st2 = activeStreams st
  ∧ timers st2 = timers st
  ∧ cache st2 = cache st.
Proof.
  intros Hreach Ha. cbv zeta. cbn [step handleClientMessage streamValue].
  destruct (reachable_fresh st Hreach (nextId st)) as [Hn _]; [lia|].
  unfold startStream. cbn [keyOf].
  destruct (getProp apiMethods s) as [cfg| |].
  3:{ cbn [fst]. unfold stopStream. by rewrite Ha. }
  all: rewrite Ha;
    match goal with
    | |- context [fetchAndBroadcastOptimized ?n ?s ?c ?x] =>
        destruct (fetch_frame n s c x) as (Ht & Hact & _);
        pose proof (cache_fetchAndBroadcastOptimized n s c x) as Hc;
        destruct (fetchAndBroadcastOptimized n s c x) as [st' out];
        cbn [fst] in *
    end;
    unfold stopStream; rewrite Hact; cbn [activeStreams set_activeStreams];
    rewrite lookup_insert_eq; cbn;
    rewrite Hact, Ht, Hc; cbn;
    by rewrite delete_insert_id, delete_insert_id.
Qed.

Lemma start_then_stop_restores_registry_witness :
  let st1 :=
    (step 100 (Message 0%nat (start_stream (JString "block"))) afterConnect).1 in
  let st2 := (step 200 (Message 0%nat (stop_stream (JString "block"))) st1).1 in
  activeStreams st2 = activeStreams afterConnect
  ∧ timers st2 = timers afterConnect
  ∧ cache st2 = cache afterConnect.
Proof.
  apply (start_then_stop_restores_registry 100 200 "block" 0%nat 0%nat
           afterConnect).
  - apply reachable_run, reachable_init.
  - vm_compute. reflexivity.
Defined.

(** X7: [stop_stream] for a stream that is not active does nothing and sends
    nothing: after any [stop_stream], a second one for the same stream, from
    any client, leaves the state unchanged and gets no reply. *)
Theorem second_stop_is_silent
    (now now' : Z) (s : Json) (ws ws' : nat) (st : State) :
  let st1 := (step now (Message ws (stop_stream s)) st).1 in
  step now' (Message ws' (stop_stream s)) st1 = (st1, []).
Proof.
  cbv zeta. cbn [step handleClientMessage].
  assert (streamValue s (stopStream (streamValue s st) ws st).1
          = streamValue s st) as ->.
  { destruct s; try done. cbn [streamValue]. unfold stopStream.
    by destruct (activeStreams st !! _). }
  generalize (streamValue s st). clear s. intros s.
  unfold stopStream.
  destruct (activeStreams st !! s) as [a|] eqn:Ha; cbn [fst].
  - cbn [activeStreams set_activeStreams clearInterval set_timers].
    by rewrite lookup_delete_eq.
  - by rewrite Ha.
Qed.

(** ** The cache only fills *)

Lemma cache_resumeFetch_keeps clk r s' c now st s e :
  cache st !! s = Some e →
  ∃ e', cache (resumeFetch clk r s' c now st).1 !! s = Some e'
        ∧ Cache.ttl e' = Cache.ttl e
        ∧ (is_Some (Cache.data e) → is_Some (Cache.data e')).
Proof.
  intros He. destruct (decide (keyOf s' = s)) as [<-|Hne].
  2:{ rewrite cache_resumeFetch_other by done. by exists e. }
  unfold resumeFetch, catchFetch.
  destruct r as [response|m]; [|by exists e].
  destruct (Response.result response) as [result|];
    [|destruct (Response.error response); by exists e].
  destruct (Config.processor _) as [f|]; [|by exists e].
  destruct (runProcessor_fields f result st) as (_ & _ & _ & Hc & _).
  destruct (runProcessor f result st) as [d x]. cbn [fst snd] in *.
  unfold getProp. rewrite Hc, He.
  destruct (activeStreams _ !! s'); cbn; rewrite lookup_insert_eq;
    eexists; (split; [done|]); cbn; eauto.
Qed.

Lemma cache_step_keeps now ev st s e :
  cache st !! s = Some e →
  ∃ e', cache (step now ev st).1 !! s = Some e'
        ∧ Cache.ttl e' = Cache.ttl e
        ∧ (is_Some (Cache.data e) → is_Some (Cache.data e')).
Proof.
  intros He. destruct (completesFetch s ev st) eqn:Hq.
  2:{ rewrite (cache_step_other now ev st s Hq). by exists e. }
  unfold completesFetch in Hq. destruct ev as [| | | | | |o]; try discriminate.
  destruct (calling st) as [request|] eqn:Hc; [|discriminate].
  destruct (awaiters st !! Request.handle request) as [k|] eqn:Hk;
    [|discriminate].
  destruct k as [|s' c n| |]; try discriminate.
  cbn [step]. rewrite (onSettled_resume _ _ _ _ _ Hc Hk). cbn [resume].
  apply cache_resumeFetch_keeps. cbn. by rewrite cache_noteCall.
Qed.

(** X9: Cache entries are never removed, their TTL never changes, and an entry
    that holds a value never goes back to empty, along any run from any
    state. *)
Theorem cache_entries_persist
    (tr : list (Z * Event)) (st : State) (s : string) (e : Cache.t) :
  cache st !! s = Some e →
  ∃ e', cache (run tr st).1 !! s = Some e'
        ∧ Cache.ttl e' = Cache.ttl e
        ∧ (is_Some (Cache.data e) → is_Some (Cache.data e')).
Proof.
  revert st e. induction tr as [|[now ev] tr IH]; intros st e He.
  { by exists e. }
  cbn [run]. destruct (cache_step_keeps now ev st s e He) as (e1 & He1 & Ht1 & Hd1).
  destruct (step now ev st) as [st1 out]. cbn [fst] in *.
  destruct (IH st1 e1 He1) as (e2 & He2 & Ht2 & Hd2).
  destruct (run tr st1) as [st2 log]. cbn [fst] in *.
  exists e2. split; [done|]. split; [congruence|]. eauto.
Qed.

Lemma cache_entries_persist_witness :
  ∃ e', cache (run (stopThenOthers ++ [(4000, Close 0%nat); (4100, Close 1%nat)])
                 warmState).1 !! "dynamic_global_properties" = Some e'
        ∧ Cache.ttl e' = Some 5000
        ∧ (is_Some (Some samplePayload) → is_Some (Cache.data e')).
Proof.
  apply (cache_entries_persist
           (stopThenOthers ++ [(4000, Close 0%nat); (4100, Close 1%nat)])
           warmState "dynamic_global_properties"
           {| Cache.data := Some samplePayload; Cache.timestamp := 100;
              Cache.ttl := Some 5000 |}).
  vm_compute. reflexivity.
Defined.

(** ** What is pushed *)

Lemma broadcast_message data st ws m :
  Send ws m ∈ broadcast data st → m = data.
Proof.
  rewrite broadcast_sends. intros Hin.
  apply list_elem_of_fmap in Hin as (ws' & Heq & _). by injection Heq.
Qed.

Lemma fetch_messages now s c st ws m :
  Send ws m ∈ (fetchAndBroadcastOptimized now s c st).2 →
  (∃ e d ttl, cache st !! keyOf s = Some e ∧ Cache.data e = Some d
              ∧ Cache.ttl e = Some ttl ∧ now - Cache.timestamp e < ttl
              ∧ m = LiveData s d true (Some (now - Cache.timestamp e)) now)
  ∨ ∃ msg, m = FetchError s msg now.
Proof.
  unfold fetchAndBroadcastOptimized, catchFetch, getProp, cacheHit.
  destruct (cache st !! keyOf s) as [e|] eqn:He.
  - destruct (Cache.data e) as [d|] eqn:Hd;
      [destruct (Cache.ttl e) as [ttl|] eqn:Httl;
       [case_bool_decide as Hlt|]|].
    + cbn [snd]. intros Hin. apply broadcast_message in Hin. left.
      by exists e, d, ttl.
    + repeat case_match; cbn [snd]; intros Hin; by apply elem_of_nil in Hin.
    + repeat case_match; cbn [snd]; intros Hin; by apply elem_of_nil in Hin.
    + repeat case_match; cbn [snd]; intros Hin; by apply elem_of_nil in Hin.
  - case_bool_decide.
    + repeat case_match; cbn [snd]; intros Hin; by apply elem_of_nil in Hin.
    + cbn [snd]. intros Hin. apply broadcast_message in Hin. right. eauto.
Qed.

Lemma resumeFetch_messages clk r s c now st ws m :
  Send ws m ∈ (resumeFetch clk r s c now st).2 →
  (∃ response d e, r = Resolved response ∧ Response.result response = Some d
       ∧ m = LiveData s d false None clk
       ∧ cache (resumeFetch clk r s c now st).1 !! keyOf s = Some e
       ∧ Cache.data e = Some d ∧ Cache.timestamp e = now)
  ∨ (∃ msg, m = FetchError s msg clk)
  ∨ (∃ response e, r = Resolved response ∧ Response.error response = Some e
       ∧ m = StreamError s e clk).
Proof.
  unfold resumeFetch, catchFetch.
  destruct r as [response|msg].
  2:{ cbn [snd]. intros Hin. apply broadcast_message in Hin. right. left. eauto. }
  destruct (Response.result response) as [result|] eqn:Hres.
  2:{ destruct (Response.error response) as [e|] eqn:Herr; cbn [snd]; intros Hin.
      - apply broadcast_message in Hin. right. right. by exists response, e.
      - by apply elem_of_nil in Hin. }
  destruct (Config.processor _) as [f|].
  2:{ cbn [snd]. intros Hin. apply broadcast_message in Hin. right. left. eauto. }
  destruct (runProcessor_fields f result st) as (Hd & _).
  destruct (runProcessor f result st) as [d x]. cbn [fst snd] in *. subst d.
  destruct (getProp (cache x) (keyOf s)).
  3:{ cbn [snd]. intros Hin. apply broadcast_message in Hin. right. left. eauto. }
  all: destruct (activeStreams _ !! s); cbn [fst snd]; intros Hin;
    apply broadcast_message in Hin; left;
    eexists response, result, _; cbn; rewrite lookup_insert_eq; done.
Qed.

Lemma resume_messages clk o k st ws m :
  Send ws m ∈ (resume clk (makeAPICall o) k st).2 →
  (∃ s c now d e, k = AwaitFetch s c now ∧ o = JsonBody (Some d) None
       ∧ m = LiveData s d false None clk
       ∧ cache (resume clk (makeAPICall o) k st).1 !! keyOf s = Some e
       ∧ Cache.data e = Some d ∧ Cache.timestamp e = now)
  ∨ (∃ s msg, awaitsStream s k = true ∧ m = FetchError s msg clk).
Proof.
  destruct k as [s c n|s c n| |]; cbn [resume].
  - unfold resumeGlobalProps, catchFetch. destruct (makeAPICall o);
      cbn [snd]; intros Hin; [by apply elem_of_nil in Hin|].
    apply broadcast_message in Hin. right. exists s. eexists.
    split; [cbn; by rewrite bool_decide_eq_true_2|done].
  - intros Hin. apply resumeFetch_messages in Hin
      as [(response & d & e & Hr & Hres & -> & He & Hd & Ht)
         |[(msg & ->)|(response & e & Hr & Herr & _)]].
    + left. exists s, c, n, d, e. split; [done|]. split; [|done].
      destruct o as [res [err|]| | |]; cbn in Hr; try discriminate.
      injection Hr as <-. cbn in Hres. by subst res.
    + right. exists s. eexists.
      split; [cbn; by rewrite bool_decide_eq_true_2|done].
    + rewrite (makeAPICall_resolved_no_error o response Hr) in Herr.
      discriminate.
  - intros Hin. repeat case_match; by apply elem_of_nil in Hin.
  - intros Hin. repeat case_match; by apply elem_of_nil in Hin.
Qed.

(** Every message a step writes is a reply, a cached value that is still
    fresh, a fetch error, or the result of the call that just settled. *)
Lemma step_messages now ev st ws m :
  Send ws m ∈ (step now ev st).2 →
  isReply m = true
  ∨ (∃ s e d ttl, cache st !! keyOf s = Some e ∧ Cache.data e = Some d
        ∧ Cache.ttl e = Some ttl ∧ now - Cache.timestamp e < ttl
        ∧ m = LiveData s d true (Some (now - Cache.timestamp e)) now)
  ∨ (∃ s msg, m = FetchError s msg now)
  ∨ (∃ s d e, ev = Settle (JsonBody (Some d) None)
        ∧ m = LiveData s d false None now
        ∧ cache (step now ev st).1 !! keyOf s = Some e
        ∧ Cache.data e = Some d).
Proof.
  assert (∀ s c x, cache x = cache st →
            Send ws m ∈ (fetchAndBroadcastOptimized now s c x).2 →
            (∃ s e d ttl, cache st !! keyOf s = Some e ∧ Cache.data e = Some d
               ∧ Cache.ttl e = Some ttl ∧ now - Cache.timestamp e < ttl
               ∧ m = LiveData s d true (Some (now - Cache.timestamp e)) now)
            ∨ (∃ s msg, m = FetchError s msg now)) as Hfetch.
  { intros s c x Hc Hin. apply fetch_messages in Hin as [(e & d & ttl & H)|[msg ->]].
    - left. exists s, e, d, ttl. by rewrite <- Hc.
    - right. eauto. }
  destruct ev as [ws'|ws' cm|ws'|ws'|ws'|id|o]; cbn [step]; intros Hin.
  - apply list_elem_of_singleton in Hin. injection Hin as _ ->. by left.
  - destruct cm; cbn [handleClientMessage] in Hin; stream_name.
    + unfold startStream in Hin. destruct (getProp apiMethods (keyOf name)).
      1,2: destruct (activeStreams st !! name);
        [apply list_elem_of_singleton in Hin; injection Hin as _ ->; by left|];
        match type of Hin with
        | context [fetchAndBroadcastOptimized ?n ?s ?c ?x] =>
            pose proof (Hfetch s c x eq_refl) as Hp;
            destruct (fetchAndBroadcastOptimized n s c x) as [st' out];
            cbn [fst snd] in *
        end;
        (apply elem_of_app in Hin as [Hin|Hin];
         [destruct (Hp Hin) as [H|H]; [right; by left|right; right; by left]
         |apply list_elem_of_singleton in Hin; injection Hin as _ ->; by left]).
      apply list_elem_of_singleton in Hin. injection Hin as _ ->. by left.
    + unfold stopStream in Hin. destruct (activeStreams st !! name);
        [|by apply elem_of_nil in Hin].
      apply list_elem_of_singleton in Hin. injection Hin as _ ->. by left.
    + apply list_elem_of_singleton in Hin. injection Hin as _ ->. by left.
    + apply list_elem_of_singleton in Hin. injection Hin as _ ->. by left.
    + apply list_elem_of_singleton in Hin. injection Hin as _ ->. by left.
    + apply list_elem_of_singleton in Hin. injection Hin as _ ->. by left.
  - by apply elem_of_nil in Hin.
  - unfold onClose in Hin. case_decide; by apply elem_of_nil in Hin.
  - by apply elem_of_nil in Hin.
  - unfold onTimer in Hin. destruct (timers st !! id) as [t|];
      [|by apply elem_of_nil in Hin].
    set (st0 := if Timer.repeat t then _ else _) in Hin.
    assert (cache st0 = cache st) as Hc0
      by (unfold st0; by destruct (Timer.repeat t)).
    clearbody st0. destruct (Timer.task t);
      try (by apply elem_of_nil in Hin).
    + destruct (Hfetch _ _ _ Hc0 Hin) as [H|H];
        [right; by left|right; right; by left].
    + unfold processRequestQueue in Hin.
      case_match; [by apply elem_of_nil in Hin|].
      match type of Hin with
      | _ ∈ (drainLoop ?n ?x).2 =>
          destruct (drainLoop_shape n x)
            as (_ & _ & _ & [(_ & Ho & _)|[(r' & rest & _ & Ho & _)
                                          |(r' & rest & _ & Ho & _)]])
      end; rewrite Ho in Hin;
        [by apply elem_of_nil in Hin|by apply elem_of_nil in Hin|].
      apply list_elem_of_singleton in Hin. discriminate.
    + apply list_elem_of_singleton in Hin. discriminate.
    + destruct (drainLoop_shape now st0)
        as (_ & _ & _ & [(_ & Ho & _)|[(r' & rest & _ & Ho & _)
                                      |(r' & rest & _ & Ho & _)]]);
        rewrite Ho in Hin;
        [by apply elem_of_nil in Hin|by apply elem_of_nil in Hin|].
      apply list_elem_of_singleton in Hin. discriminate.
  - unfold onSettled in *.
    destruct (calling st) as [request|]; [|by apply elem_of_nil in Hin].
    unfold settle in *.
    destruct (awaiters _ !! Request.handle request) as [k|];
      [|by apply elem_of_nil in Hin].
    apply resume_messages in Hin
      as [(s & c & n & d & e & -> & -> & -> & He & Hd & _)|(s & msg & _ & ->)].
    + right. right. right. by exists s, d, e.
    + right. right. left. eauto.
Qed.

(** X10: A value flagged [cached: true] is never stale: whenever a step sends
    one, the stream's cache entry holds exactly that value, the clock is
    within the entry's TTL, and [cache_age] is the entry's age. *)
Theorem cached_push_is_within_ttl
    (now : Z) (ev : Event) (st : State) (ws : nat) (s : Name)
    (d : Payload) (age : option Z) (t : Z) :
  Send ws (LiveData s d true age t) ∈ (step now ev st).2 →
  ∃ e ttl, cache st !! keyOf s = Some e ∧ Cache.data e = Some d
           ∧ Cache.ttl e = Some ttl
           ∧ age = Some (now - Cache.timestamp e)
           ∧ now - Cache.timestamp e < ttl
           ∧ t = now.
Proof.
  intros Hin. apply step_messages in Hin
    as [Hr|[(s' & e & d' & ttl & He & Hd & Ht & Hlt & Hm)
           |[(s' & msg & Hm)|(s' & d' & e & _ & Hm & _)]]];
    try discriminate.
  injection Hm as -> -> -> ->. by exists e, ttl.
Qed.

Lemma cached_push_is_within_ttl_witness :
  ∃ e ttl, cache warmState !! "dynamic_global_properties" = Some e
           ∧ Cache.data e = Some samplePayload
           ∧ Cache.ttl e = Some ttl
           ∧ Some 3900 = Some (4000 - Cache.timestamp e)
           ∧ 4000 - Cache.timestamp e < ttl
           ∧ 4000 = 4000.
Proof.
  apply (cached_push_is_within_ttl 4000 (Fire 3%nat) warmState 0%nat
           (NString "dynamic_global_properties") samplePayload (Some 3900)
           4000).
  replace (step 4000 (Fire 3%nat) warmState).2
    with [Send 0%nat (LiveData (NString "dynamic_global_properties") samplePayload true
                        (Some 3900) 4000)] by (vm_compute; reflexivity).
  apply list_elem_of_singleton. reflexivity.
Defined.

(** X11: A value flagged [cached: false] is the result of the upstream call that
    settled in this very step, and it is in the cache before it is sent. *)
Theorem fresh_push_follows_cache_write
    (now : Z) (ev : Event) (st : State) (ws : nat) (s : Name)
    (d : Payload) (age : option Z) (t : Z) :
  Send ws (LiveData s d false age t) ∈ (step now ev st).2 →
  ev = Settle (JsonBody (Some d) None) ∧ age = None ∧ t = now
  ∧ ∃ e, cache (step now ev st).1 !! keyOf s = Some e ∧ Cache.data e = Some d.
Proof.
  intros Hin. apply step_messages in Hin
    as [Hr|[(s' & e & d' & ttl & He & Hd & Ht & Hlt & Hm)
           |[(s' & msg & Hm)|(s' & d' & e & Hev & Hm & He & Hd)]]];
    try discriminate.
  injection Hm as -> -> -> ->. repeat split; try done. by exists e.
Qed.

Lemma fresh_push_follows_cache_write_witness :
  ∃ e, cache (step 1300 answer (run fetchIssued init).1).1
         !! "dynamic_global_properties" = Some e
       ∧ Cache.data e = Some samplePayload.
Proof.
  destruct (fresh_push_follows_cache_write 1300 answer (run fetchIssued init).1
              0%nat (NString "dynamic_global_properties") samplePayload None
              1300)
    as (_ & _ & _ & H); [|exact H].
  replace (step 1300 answer (run fetchIssued init).1).2
    with [Send 0%nat (LiveData (NString "dynamic_global_properties") samplePayload false
                        None 1300)] by (vm_compute; reflexivity).
  apply list_elem_of_singleton. reflexivity.
Defined.

(** X12: The stream-scoped message of type [error] is never sent: the branch
    that would send it needs a resolved response with an [error] field, and
    [makeAPICall] rejects every such response. *)
Theorem stream_error_is_never_sent
    (now : Z) (ev : Event) (st : State) (ws : nat) (m : Msg)
    (s : Name) (e : string) (t : Z) :
  Send ws m ∈ (step now ev st).2 → m ≠ StreamError s e t.
Proof.
  intros Hin ->. apply step_messages in Hin
    as [Hr|[(s' & e' & d' & ttl & _ & _ & _ & _ & Hm)
           |[(s' & msg & Hm)|(s' & d' & e' & _ & Hm & _)]]];
    discriminate.
Qed.

Lemma stream_error_is_never_sent_witness :
  FetchError (NString "block") "API Error: Internal Error" 1700
  ≠ StreamError (NString "block") "Internal Error" 1700.
Proof.
  apply (stream_error_is_never_sent 1700
           (Settle (JsonBody None (Some "Internal Error")))
           (run blockSeedIssued init).1 0%nat).
  replace (step 1700 (Settle (JsonBody None (Some "Internal Error")))
             (run blockSeedIssued init).1).2
    with [Send 0%nat (FetchError (NString "block") "API Error: Internal Error" 1700);
          Send 1%nat (FetchError (NString "block") "API Error: Internal Error" 1700)]
    by (vm_compute; reflexivity).
  apply list_elem_of_here.
Defined.

(** X13: No socket is listed twice among the connected clients, so a broadcast
    reaches each socket at most once. *)
Theorem broadcast_sends_once_per_socket (data : Msg) (st : State) :
  reachable st → NoDup (broadcast data st).
Proof.
  intros Hreach. destruct (reachable_consistent st Hreach) as (_ & _ & _ & Hnd).
  rewrite broadcast_sends. apply NoDup_fmap_2.
  - intros x y Heq. by injection Heq.
  - by apply NoDup_filter.
Qed.

Lemma broadcast_sends_once_per_socket_witness :
  NoDup (broadcast InvalidJson
           (run (twoClientsJoin ++ [(300, Connect 1%nat); (400, Connect 0%nat)])
              init).1).
Proof.
  apply broadcast_sends_once_per_socket. apply reachable_run, reachable_init.
Defined.

(** ** The chain head *)

Lemma currentBlock_fetch now s c st :
  currentBlock (fetchAndBroadcastOptimized now s c st).1 = currentBlock st.
Proof.
  unfold fetchAndBroadcastOptimized, catchFetch, requestStream.
  by repeat case_match.
Qed.

Lemma currentBlock_resume clk o k st :
  currentBlock (resume clk (makeAPICall o) k st).1 ≠ currentBlock st →
  ∃ p, o = JsonBody (Some p) None
       ∧ currentBlock (resume clk (makeAPICall o) k st).1 = head_block_number p.
Proof.
  destruct o as [[p|] [e|]| | |]; cbn [makeAPICall].
  all: try (destruct k; cbn; unfold resumeGlobalProps, resumeFetch, catchFetch;
            cbn; done).
  intros Hne. exists p. split; [done|]. revert Hne.
  destruct k as [s c n|s c n| |]; cbn [resume].
  - done.
  - unfold resumeFetch, catchFetch. cbn [Response.result].
    destruct (Config.processor _) as [f|]; [|done].
    destruct f; cbn [runProcessor];
      (destruct (getProp _ (keyOf s)); cbn [fst];
       try (destruct (activeStreams _ !! s)); done).
  - cbn. by destruct (truthyNumber _).
  - done.
Qed.

(** X14: [currentBlock] changes only when an upstream answer with a result
    arrives, and then it becomes that result's [head_block_number]; client
    messages, socket events and timers never change it. *)
Theorem chain_head_follows_upstream_answers
    (now : Z) (ev : Event) (st : State) :
  currentBlock (step now ev st).1 ≠ currentBlock st →
  ∃ p, ev = Settle (JsonBody (Some p) None)
       ∧ currentBlock (step now ev st).1 = head_block_number p.
Proof.
  destruct ev as [ws|ws cm|ws|ws|ws|id|o]; cbn [step]; intros Hne.
  - done.
  - destruct cm; cbn [handleClientMessage] in Hne; try done; stream_name.
    + unfold startStream in Hne.
      destruct (getProp apiMethods (keyOf name)); [| |done];
        (destruct (activeStreams st !! name); [done|]);
        match type of Hne with
        | context [fetchAndBroadcastOptimized ?n ?s ?c ?x] =>
            pose proof (currentBlock_fetch n s c x) as Hc;
            destruct (fetchAndBroadcastOptimized n s c x) as [st' out];
            cbn [fst] in *; by destruct Hne
        end.
    + unfold stopStream in Hne. by destruct (activeStreams st !! name).
  - done.
  - unfold onClose in Hne. by case_decide.
  - done.
  - unfold onTimer in Hne. destruct (timers st !! id) as [t|]; [|done].
    set (st0 := if Timer.repeat t then _ else _) in Hne.
    assert (currentBlock st0 = currentBlock st) as Hc0
      by (unfold st0; by destruct (Timer.repeat t)).
    clearbody st0. rewrite <- Hc0 in Hne. destruct (Timer.task t); try done.
    + by rewrite currentBlock_fetch in Hne.
    + unfold processRequestQueue, drainLoop, dispatch in Hne.
      by repeat case_match.
    + unfold drainLoop, dispatch in Hne. by repeat case_match.
  - unfold onSettled in *. destruct (calling st) as [request|]; [|done].
    unfold settle in *.
    destruct (awaiters _ !! Request.handle request) as [k|].
    + match type of Hne with
      | currentBlock (resume ?c ?r ?k ?x).1 ≠ _ =>
          assert (currentBlock x = currentBlock st) as Hx
            by (cbn; by destruct (makeAPICall o));
          rewrite <- Hx in Hne
      end.
      apply currentBlock_resume in Hne as (p & -> & Hp). by exists p.
    + destruct Hne. cbn. by destruct (makeAPICall o).
Qed.

Lemma chain_head_follows_upstream_answers_witness :
  currentBlock (step 1300 answer (run fetchIssued init).1).1 = Some 90000000.
Proof.
  destruct (chain_head_follows_upstream_answers 1300 answer
              (run fetchIssued init).1) as (p & Hev & Hp).
  - vm_compute. discriminate.
  - injection Hev as <-. exact Hp.
Defined.

(** X15: When the answer to the seeding call arrives, the chain head becomes its
    [head_block_number] and the stream's own request is queued right away
    with that block number as its single parameter, still carrying the
    [now] of the cycle that began before the seeding call. *)
Theorem seeded_head_goes_into_block_request
    (clk : Z) (p : Payload) (request : Request.t) (s : Name) (c : nat)
    (now : Z) (st : State) :
  calling st = Some request →
  awaiters st !! Request.handle request = Some (AwaitGlobalProps s c now) →
  let st' := (step clk (Settle (JsonBody (Some p) None)) st).1 in
  currentBlock st' = head_block_number p
  ∧ requestQueue st' =
    requestQueue st
    ++ [ {| Request.method := Config.method (lookupConfig st c);
            Request.params := Some [head_block_number p];
            Request.handle := S (nextId st) |} ]
  ∧ awaiters st' !! S (nextId st) = Some (AwaitFetch s c now)
  ∧ (step clk (Settle (JsonBody (Some p) None)) st).2 = [].
Proof.
  intros Hc Hk. cbv zeta. cbn [step].
  rewrite (onSettled_resume _ _ _ _ _ Hc Hk).
  cbn [makeAPICall resume resumeGlobalProps Response.result].
  unfold requestStream, setBlockParams, lookupConfig, queueAPICall.
  cbn. rewrite lookup_insert_eq. cbn. rewrite lookup_insert_eq. done.
Qed.

Lemma seeded_head_goes_into_block_request_witness :
  let st' := (step 1300 answer (run blockSeedIssued init).1).1 in
  currentBlock st' = Some 90000000
  ∧ requestQueue st' =
    [ {| Request.method := Some "condenser_api.get_block";
         Request.params := Some [Some 90000000];
         Request.handle := 6 |} ].
Proof.
  destruct (seeded_head_goes_into_block_request 1300 samplePayload
    {| Request.method := Some "condenser_api.get_dynamic_global_properties";
       Request.params := Some []; Request.handle := 4 |}
    (NString "block") 3%nat 100 (run blockSeedIssued init).1)
    as (Hhead & Hq & _).
  - vm_compute. reflexivity.
  - vm_compute. reflexivity.
  - cbv zeta. unfold answer. split; [exact Hhead|]. rewrite Hq.
    vm_compute. reflexivity.
Defined.

(** ** Config copies and the keys of the cache *)

Lemma configsOK_general st st' :
  (nextId st ≤ nextId st')%nat →
  (∀ c, (c < nextId st)%nat →
        Config.processor (lookupConfig st' c) = Config.processor (lookupConfig st c)) →
  (∀ s c, refersTo st' s c → refersTo st s c ∨ configHeld st' s c) →
  configsOK st → configsOK st'.
Proof.
  intros Hn Hcfg Href Hok s c Hr. destruct (Href s c Hr) as [Hold|Hnew]; [|done].
  destruct (Hok s c Hold) as [Hlt Hp]. split; [lia|]. by rewrite Hcfg.
Qed.

Lemma configHeld_mono st st' s c :
  (nextId st ≤ nextId st')%nat →
  (∀ c, (c < nextId st)%nat →
        Config.processor (lookupConfig st' c) = Config.processor (lookupConfig st c)) →
  configHeld st s c → configHeld st' s c.
Proof. intros Hn Hcfg [Hlt Hp]. split; [lia|]. by rewrite Hcfg. Qed.

Lemma processor_setBlockParams c c' st :
  Config.processor (lookupConfig (setBlockParams c st) c')
  = Config.processor (lookupConfig st c').
Proof.
  unfold lookupConfig, setBlockParams. cbn. rewrite lookup_insert.
  case_decide; [subst c'|]; done.
Qed.

Lemma refersTo_queueAPICall m p k st s c :
  refersTo (queueAPICall m p k st) s c →
  refersTo st s c
  ∨ (∃ n, k = AwaitFetch s c n ∨ k = AwaitGlobalProps s c n).
Proof.
  intros [(h & n & Hh)|Ht]; [|left; by right]. cbn in Hh.
  rewrite lookup_insert in Hh. case_decide.
  - right. exists n. destruct Hh as [Hh|Hh]; simplify_eq; eauto.
  - left. left. by exists h, n.
Qed.

Lemma configsOK_queueAPICall m p k st :
  (∀ s c n, k = AwaitFetch s c n ∨ k = AwaitGlobalProps s c n →
            configHeld st s c) →
  configsOK st → configsOK (queueAPICall m p k st).
Proof.
  intros Hk. apply configsOK_general; [cbn; lia|done|].
  intros s c Hr. apply refersTo_queueAPICall in Hr as [Hr|(n & Hn)]; [by left|].
  right. destruct (Hk s c n Hn) as [Hlt Hp]. split; [cbn; lia|done].
Qed.

Lemma configsOK_fetch now s c st :
  configHeld st s c → configsOK st →
  configsOK (fetchAndBroadcastOptimized now s c st).1.
Proof.
  intros Hheld Hok. unfold fetchAndBroadcastOptimized, catchFetch, requestStream.
  assert (configsOK (setBlockParams c st)) as Hok'.
  { revert Hok. apply configsOK_general; [done| |by left].
    intros c' _. apply processor_setBlockParams. }
  assert (configHeld (setBlockParams c st) s c) as Hheld'.
  { revert Hheld. apply configHeld_mono; [done|].
    intros c' _. apply processor_setBlockParams. }
  repeat case_match; cbn [fst]; try done;
    apply configsOK_queueAPICall; try done;
    intros s' c' n [Hk|Hk]; simplify_eq; done.
Qed.

Lemma configsOK_shrink st st' :
  (nextId st ≤ nextId st')%nat → configs st' = configs st →
  (∀ s c, refersTo st' s c → refersTo st s c) →
  configsOK st → configsOK st'.
Proof.
  intros Hn Hc Hr. apply configsOK_general; [done| |intros s c H; left; by apply Hr].
  intros c _. unfold lookupConfig. by rewrite Hc.
Qed.

Lemma configsOK_fewer st st' :
  (nextId st ≤ nextId st')%nat → configs st' = configs st →
  (∀ h k, awaiters st' !! h = Some k → awaiters st !! h = Some k) →
  (∀ id t s c, timers st' !! id = Some t → Timer.task t = StreamTick s c →
     ∃ t0, timers st !! id = Some t0 ∧ Timer.task t0 = StreamTick s c) →
  configsOK st → configsOK st'.
Proof.
  intros Hn Hc Ha Ht. apply configsOK_shrink; [done|done|].
  intros s c [(h & n & [Hh|Hh])|(id & t & Hid & Htask)].
  - left. exists h, n. left. by apply Ha.
  - left. exists h, n. right. by apply Ha.
  - right. destruct (Ht id t s c Hid Htask) as (t0 & H0 & Ht0). by exists id, t0.
Qed.

Lemma stream_timers_insert_other (tm : gmap nat Timer.t) id0 t0 id t s c :
  (∀ s c, Timer.task t0 ≠ StreamTick s c) →
  <[id0:=t0]> tm !! id = Some t → Timer.task t = StreamTick s c →
  ∃ t1, tm !! id = Some t1 ∧ Timer.task t1 = StreamTick s c.
Proof.
  intros Hno Hid Htask. rewrite lookup_insert in Hid. case_decide.
  - injection Hid as <-. by destruct (Hno s c).
  - by exists t.
Qed.

Lemma configsOK_drainLoop now st : configsOK st → configsOK (drainLoop now st).1.
Proof.
  unfold drainLoop, dispatch.
  destruct (requestQueue st) as [|r rest]; [|case_bool_decide]; cbn [fst];
    apply configsOK_fewer; try done; try (cbn; lia);
    intros id t s c; cbn; try (by eauto);
    by apply stream_timers_insert_other.
Qed.

Lemma configsOK_processRequestQueue now st :
  configsOK st → configsOK (processRequestQueue now st).1.
Proof.
  intros Hok. unfold processRequestQueue. case_match.
  - revert Hok. apply configsOK_fewer; try done; try (cbn; lia).
    intros id t s c; cbn. by apply stream_timers_insert_other.
  - by apply configsOK_drainLoop.
Qed.

Lemma configs_resumeFetch clk r s c now st :
  configs (resumeFetch clk r s c now st).1 = configs st.
Proof.
  unfold resumeFetch, catchFetch.
  destruct r as [response|m]; [|done].
  destruct (Response.result response) as [result|];
    [|by destruct (Response.error response)].
  destruct (Config.processor _) as [f|]; [|done].
  destruct f; cbn [runProcessor];
    (destruct (getProp _ (keyOf s)); cbn [fst];
     try (destruct (activeStreams _ !! s)); done).
Qed.

Lemma configsOK_resume clk r k st :
  (∀ s c n, k = AwaitGlobalProps s c n → configHeld st s c) →
  configsOK st → configsOK (resume clk r k st).1.
Proof.
  intros Hk Hok. destruct k as [s c n|s c n| |]; cbn [resume].
  - unfold resumeGlobalProps, catchFetch, requestStream.
    destruct r as [response|m]; [|done]. cbn [fst].
    specialize (Hk s c n eq_refl).
    match goal with
    | |- configsOK (queueAPICall _ _ _ (setBlockParams c ?x)) =>
        assert (configsOK x ∧ configHeld x s c) as [Hx Hhx]
          by (destruct (Response.result response); done)
    end.
    apply configsOK_queueAPICall.
    + intros s' c' n' [Heq|Heq]; simplify_eq.
      revert Hhx. apply configHeld_mono; [done|].
      intros c0 _. apply processor_setBlockParams.
    + revert Hx. apply configsOK_general; [done| |by left].
      intros c0 _. apply processor_setBlockParams.
  - destruct (resumeFetch_frame clk r s c n st)
      as (Ht & _ & _ & _ & _ & _ & Hn & Ha & _).
    revert Hok. apply configsOK_fewer.
    + by rewrite Hn.
    + apply configs_resumeFetch.
    + by rewrite Ha.
    + rewrite Ht. eauto.
  - destruct r as [response|m].
    + destruct (Response.result response) as [p|]; [|done].
      destruct (truthyNumber _); [|done]. cbn [fst].
      revert Hok. apply configsOK_fewer; try done; try (cbn; lia).
      intros id t s c; cbn. by apply stream_timers_insert_other.
    + cbn [fst]. revert Hok. apply configsOK_fewer; try done; try (cbn; lia).
      intros id t s c; cbn. by apply stream_timers_insert_other.
  - destruct r as [response|m]; [|done].
    by destruct (Response.result response).
Qed.

Lemma configsOK_onSettled clk o st : configsOK st → configsOK (onSettled clk o st).1.
Proof.
  intros Hok. unfold onSettled. destruct (calling st) as [request|]; [|done].
  unfold settle. cbn [awaiters setTimer set_nextId set_timers].
  rewrite awaiters_noteCall. cbn [awaiters set_calling].
  assert (∀ x, nextId x = S (nextId st) → configs x = configs st →
            (∀ h k, awaiters x !! h = Some k → awaiters st !! h = Some k) →
            timers x = <[nextId st :=
              {| Timer.task := QueueGap; Timer.delay := 200;
                 Timer.repeat := false; Timer.armed := clk |}]> (timers st) →
            configsOK x) as Hgap.
  { intros x Hn Hc Ha Ht. revert Hok. apply configsOK_fewer; try done; [lia|].
    intros id t s c. rewrite Ht. by apply stream_timers_insert_other. }
  destruct (awaiters st !! Request.handle request) as [k|] eqn:Hk.
  - apply configsOK_resume.
    + intros s c n ->.
      destruct (Hok s c) as [Hlt Hp]; [left; exists (Request.handle request), n; by right|].
      split; [cbn; destruct (makeAPICall o); cbn; lia|].
      unfold lookupConfig. cbn. by destruct (makeAPICall o).
    + apply Hgap; try (by destruct (makeAPICall o)).
      intros h k'. cbn. rewrite awaiters_noteCall. cbn.
      intros H. by apply lookup_delete_Some in H as [_ ?].
  - apply Hgap; by destruct (makeAPICall o).
Qed.

Lemma configsOK_startStream now s ws st :
  fresh st → configsOK st → configsOK (startStream now s ws st).1.
Proof.
  intros Hf Hok. unfold startStream.
  assert (∀ cfg, Config.processor cfg
                 = Config.processor (catalogueConfig (keyOf s)) →
    configsOK
      (fetchAndBroadcastOptimized now s (nextId st)
         (set_activeStreams
            (insert s {| Stream.intervalId := nextId st;
                         Stream.config := nextId st; Stream.startTime := now;
                         Stream.requestCount := 0 |})
            (set_configs (insert (nextId st) cfg)
               (setTimer (StreamTick s (nextId st))
                  (timerDelay (Config.interval cfg)) true now st)))).1) as Hgo.
  { intros cfg Hcfg. apply configsOK_fetch.
    - split; [cbn; lia|]. unfold lookupConfig. cbn. by rewrite lookup_insert_eq.
    - revert Hok. apply configsOK_general; [cbn; lia| |].
      + intros c Hc. unfold lookupConfig. cbn.
        rewrite lookup_insert_ne by lia. done.
      + intros s' c' [Ha|(id & t & Hid & Htask)]; [left; by left|].
        cbn in Hid. rewrite lookup_insert in Hid. case_decide.
        * injection Hid as <-. cbn in Htask. injection Htask as <- <-.
          right. split; [cbn; lia|]. unfold lookupConfig. cbn.
          by rewrite lookup_insert_eq.
        * left. right. by exists id, t. }
  destruct (getProp apiMethods (keyOf s)) as [cfg| |] eqn:Hg; [| |done];
    (destruct (activeStreams st !! s); [done|]);
    specialize (Hgo (match getProp apiMethods (keyOf s) with
                     | Own c => c | _ => Config.empty end));
    rewrite Hg in Hgo;
    match goal with
    | |- context [fetchAndBroadcastOptimized ?n ?s ?c ?x] =>
        destruct (fetchAndBroadcastOptimized n s c x) as [st' out]
    end; cbn [fst] in *; apply Hgo; unfold catalogueConfig; by rewrite Hg.
Qed.

Lemma configsOK_onTimer now id st : configsOK st → configsOK (onTimer now id st).1.
Proof.
  intros Hok. unfold onTimer.
  destruct (timers st !! id) as [t|] eqn:Hid; [|done].
  set (st0 := if Timer.repeat t then _ else _).
  assert (configsOK st0 ∧ nextId st0 = nextId st ∧ configs st0 = configs st)
    as (Hok0 & Hn0 & Hc0).
  { subst st0. destruct (Timer.repeat t); (split; [|done]);
      revert Hok; apply configsOK_fewer; try done; intros id' t' s c; cbn.
    - rewrite lookup_insert. case_decide; [|by eauto].
      intros [= <-] Htask. subst id'. by exists t.
    - intros H' Htask. apply lookup_delete_Some in H' as [_ H']. by exists t'. }
  destruct (Timer.task t) eqn:Htask.
  - apply configsOK_fetch; [|done].
    destruct (Hok streamName config) as [Hlt Hp];
      [right; by exists id, t|].
    split; [by rewrite Hn0|]. unfold lookupConfig. by rewrite Hc0.
  - done.
  - apply configsOK_queueAPICall; [|done]. intros s c n [H|H]; discriminate.
  - apply configsOK_queueAPICall; [|done]. intros s c n [H|H]; discriminate.
  - by apply configsOK_processRequestQueue.
  - done.
  - by apply configsOK_drainLoop.
Qed.

Lemma configsOK_step now ev st :
  fresh st → configsOK st → configsOK (step now ev st).1.
Proof.
  intros Hf Hok. destruct ev as [ws|ws cm|ws|ws|ws|id|o]; cbn [step].
  - done.
  - destruct cm; cbn [handleClientMessage]; try done; stream_name.
    + by apply configsOK_startStream.
    + unfold stopStream. destruct (activeStreams st !! stream) as [a|]; [|done].
      revert Hok. apply configsOK_fewer; try done.
      intros id t s c Hl Htask. cbn in Hl.
      apply lookup_delete_Some in Hl as [_ Hl]. by exists t.
  - done.
  - unfold onClose. case_decide; [|done].
    revert Hok. apply configsOK_fewer; try done.
    intros id t s c Hl Htask. cbn in Hl.
    apply foldr_delete_Some in Hl as [Hl _]. by exists t.
  - done.
  - by apply configsOK_onTimer.
  - by apply configsOK_onSettled.
Qed.

Lemma reachable_configsOK st : reachable st → configsOK st.
Proof.
  induction 1 as [|now ev st Hreach IH].
  - intros s c [(h & n & [H|H])|(id & t & Hid & Htask)]; [done|done|].
    exfalso. cbn in Hid.
    repeat (rewrite lookup_insert in Hid; case_decide;
      [injection Hid as <-; discriminate|]). done.
  - apply configsOK_step; [by apply reachable_fresh|done].
Qed.

(** ** The keys of the cache *)

Lemma catalogue_processor s f :
  Config.processor (catalogueConfig s) = Some f → s ∈ apiMethodKeys.
Proof.
  unfold catalogueConfig, getProp, apiMethods, apiMethodKeys.
  repeat (rewrite lookup_insert; case_decide;
    [subst; intros _; rewrite !elem_of_cons; tauto|]).
  rewrite lookup_empty. by repeat case_match.
Qed.

Lemma cache_resumeFetch_dom clk r s c now st k :
  Config.processor (lookupConfig st c)
  = Config.processor (catalogueConfig (keyOf s)) →
  (∀ s, s ∈ apiMethodKeys → is_Some (cache st !! s)) →
  is_Some (cache (resumeFetch clk r s c now st).1 !! k) →
  is_Some (cache st !! k).
Proof.
  intros Hp Hkeys. destruct (decide (keyOf s = k)) as [<-|Hne].
  2:{ by rewrite cache_resumeFetch_other. }
  destruct (Config.processor (catalogueConfig (keyOf s))) as [f|] eqn:Hf.
  { intros _. by apply Hkeys, (catalogue_processor (keyOf s) f). }
  unfold resumeFetch, catchFetch. rewrite Hp.
  destruct r as [response|m]; [|done].
  destruct (Response.result response) as [result|]; [done|].
  by destruct (Response.error response).
Qed.

Lemma cache_step_dom now ev st k :
  configsOK st →
  (∀ s, s ∈ apiMethodKeys → is_Some (cache st !! s)) →
  is_Some (cache (step now ev st).1 !! k) → is_Some (cache st !! k).
Proof.
  intros Hok Hkeys. destruct (completesFetch k ev st) eqn:Hq.
  2:{ by rewrite (cache_step_other now ev st k Hq). }
  unfold completesFetch in Hq. destruct ev as [| | | | | |o]; try discriminate.
  destruct (calling st) as [request|] eqn:Hc; [|discriminate].
  destruct (awaiters st !! Request.handle request) as [a|] eqn:Hk;
    [|discriminate].
  destruct a as [|s' c n| |]; try discriminate.
  cbn [step]. rewrite (onSettled_resume _ _ _ _ _ Hc Hk). cbn [resume].
  intros Hin. apply cache_resumeFetch_dom in Hin.
  - revert Hin. cbn. by rewrite cache_noteCall.
  - destruct (Hok s' c) as [_ Hp];
      [left; exists (Request.handle request), n; by left|].
    rewrite <- Hp. unfold lookupConfig. cbn. by destruct (makeAPICall o).
  - intros s Hs. cbn. rewrite cache_noteCall. by apply Hkeys.
Qed.

(** X16: The cache holds an entry for each of the three catalogue names and for
    no other key, in every state the bridge reaches: a refresh under a name
    outside the catalogue has no processor, so it fails before the write. *)
Theorem cache_keys_are_the_catalogue (st : State) (k : string) :
  reachable st → is_Some (cache st !! k) ↔ k ∈ apiMethodKeys.
Proof.
  intros Hreach. revert k.
  induction Hreach as [|now ev st Hreach IH]; intros k.
  - cbn. unfold initialCache, apiMethodKeys.
    repeat (rewrite lookup_insert; case_decide;
      [subst; split; [intros _; rewrite !elem_of_cons; tauto|by eauto]|]).
    rewrite lookup_empty, !elem_of_cons, elem_of_nil.
    split; [by intros [? ?]|]. intros [?|[?|[?|[]]]]; by subst.
  - split.
    + intros Hin. apply IH. revert Hin. apply cache_step_dom.
      * by apply reachable_configsOK.
      * intros s. apply IH.
    + intros Hk. apply IH in Hk as [e He].
      destruct (cache_step_keeps now ev st k e He) as (e' & He' & _). eauto.
Qed.

Lemma cache_keys_are_the_catalogue_witness :
  is_Some (cache warmState !! "toString") ↔ "toString" ∈ apiMethodKeys.
Proof.
  apply cache_keys_are_the_catalogue. apply reachable_run, reachable_init.
Defined.

(** ** The start-up chain *)

Lemma quiet_refl st : quiet st st.
Proof. split; [intros id t H _; by exists t|done]. Qed.

Lemma quiet_trans a b c : quiet a b → quiet b c → quiet a c.
Proof.
  intros [Ht1 Ha1] [Ht2 Ha2]. split.
  - intros id t Hid Hs. destruct (Ht2 id t Hid Hs) as (t1 & H1 & Hk1 & Hr1).
    destruct (Ht1 id t1 H1) as (t0 & H0 & Hk0 & Hr0); [congruence|].
    exists t0. split; [done|]. split; congruence.
  - intros h k Hh Hs. apply Ha1; [|done]. by apply Ha2.
Qed.

Lemma quiet_by st st' :
  (timers st' = timers st
   ∨ ∃ id t, timers st' = <[id:=t]> (timers st)
             ∧ isStartupTask (Timer.task t) = false) →
  (awaiters st' = awaiters st
   ∨ ∃ h a, awaiters st' = <[h:=a]> (awaiters st) ∧ isTestAwaiter a = false) →
  quiet st st'.
Proof.
  intros Ht Ha. split.
  - intros id t Hid Hs. destruct Ht as [Ht|(id0 & t0 & Ht & Hno)]; rewrite Ht in Hid.
    + by exists t.
    + rewrite lookup_insert in Hid. case_decide; [|by exists t].
      injection Hid as <-. congruence.
  - intros h a Hh Hs. destruct Ha as [Ha|(h0 & a0 & Ha & Hno)]; rewrite Ha in Hh.
    + done.
    + rewrite lookup_insert in Hh. case_decide; [|done].
      injection Hh as <-. congruence.
Qed.

Lemma quiet_sub st st' :
  (∀ id t, timers st' !! id = Some t → timers st !! id = Some t) →
  (∀ h a, awaiters st' !! h = Some a → awaiters st !! h = Some a) →
  quiet st st'.
Proof.
  intros Ht Ha. split.
  - intros id t Hid _. exists t. split; [by apply Ht|done].
  - intros h a Hh _. by apply Ha.
Qed.

Lemma quiet_rearm id t now st :
  timers st !! id = Some t →
  quiet st (set_timers (insert id (Timer.rearm now t)) st).
Proof.
  intros Hid. split; [|done]. intros id' t' H' _. cbn in H'.
  rewrite lookup_insert in H'. case_decide; [|by exists t'].
  injection H' as <-. subst id'. by exists t.
Qed.

Lemma quiet_fetch now s c st : quiet st (fetchAndBroadcastOptimized now s c st).1.
Proof.
  unfold fetchAndBroadcastOptimized, catchFetch, requestStream.
  destruct (getProp (cache st) (keyOf s)) as [e| |]; cbn [fst];
    try apply quiet_refl;
    (destruct (cacheHit now _) as [[d age]|]; [apply quiet_refl|]);
    repeat case_match; cbn [fst];
    (apply quiet_by; [by left|right; eexists _, _; split; [reflexivity|done]]).
Qed.

Lemma quiet_resume clk r k st :
  isTestAwaiter k = false → quiet st (resume clk r k st).1.
Proof.
  intros Hk. destruct k as [s c n|s c n| |]; [| | done|]; cbn [resume].
  - unfold resumeGlobalProps, catchFetch, requestStream.
    destruct r as [response|m]; [|apply quiet_refl]. cbn [fst].
    apply quiet_by; [left; by destruct (Response.result response)|].
    right. exists (nextId st), (AwaitFetch s c n). split; [|done].
    by destruct (Response.result response).
  - destruct (resumeFetch_frame clk r s c n st)
      as (Ht & _ & _ & _ & _ & _ & _ & Ha & _).
    apply quiet_by; by left.
  - destruct r as [response|m]; [|apply quiet_refl].
    destruct (Response.result response); [|apply quiet_refl].
    apply quiet_by; by left.
Qed.

Lemma quiet_drainLoop now st : quiet st (drainLoop now st).1.
Proof.
  unfold drainLoop, dispatch.
  destruct (requestQueue st) as [|r rest]; [|case_bool_decide]; cbn [fst];
    (apply quiet_by; [|by left]);
    first [by left | right; eexists _, _; split; [reflexivity|done]].
Qed.

Lemma quiet_processRequestQueue now st : quiet st (processRequestQueue now st).1.
Proof.
  unfold processRequestQueue. case_match.
  - apply quiet_by; [|by left]. right. eexists _, _. split; [reflexivity|done].
  - apply (quiet_trans _ (set_isProcessingQueue (λ _, true) st));
      [by apply quiet_by; left|apply quiet_drainLoop].
Qed.

Lemma quiet_startStream now s ws st : quiet st (startStream now s ws st).1.
Proof.
  unfold startStream.
  destruct (getProp apiMethods (keyOf s)) as [cfg| |]; [| |apply quiet_refl];
    (destruct (activeStreams st !! s); [apply quiet_refl|]);
    match goal with
    | |- context [fetchAndBroadcastOptimized ?n ?s ?c ?x] =>
        pose proof (quiet_fetch n s c x) as Hq;
        destruct (fetchAndBroadcastOptimized n s c x) as [st' out]
    end; cbn [fst] in *;
    (eapply quiet_trans; [|exact Hq]);
    (apply quiet_by; [|by left]);
    right; eexists _, _; (split; [reflexivity|done]).
Qed.

Lemma quiet_handleClientMessage now ws cm st :
  quiet st (handleClientMessage now ws cm st).1.
Proof.
  destruct cm; cbn [handleClientMessage]; try apply quiet_refl; stream_name.
  - apply quiet_startStream.
  - unfold stopStream. destruct (activeStreams st !! stream) as [a|];
      [|apply quiet_refl].
    apply quiet_sub; [|done]. intros id t Hid. cbn in Hid.
    by apply lookup_delete_Some in Hid as [_ ?].
Qed.

Lemma quiet_onClose ws st : quiet st (onClose ws st).1.
Proof.
  unfold onClose. case_decide; [|by apply quiet_by; left].
  apply quiet_sub; [|done]. intros id t Hid. cbn in Hid.
  by apply foldr_delete_Some in Hid as [? _].
Qed.

Lemma startup_quiet st st' x : quiet st st' → startup st' x → startup st x.
Proof.
  intros [Ht Ha]. destruct x as [id|h]; cbn.
  - intros (t & Hid & Hs). destruct (Ht id t Hid Hs) as (t0 & H0 & Hk & _).
    exists t0. split; [done|congruence].
  - intros (a & Hh & Hs). exists a. split; [by apply Ha|done].
Qed.

Lemma testsOneShot_quiet st st' : quiet st st' → testsOneShot st → testsOneShot st'.
Proof.
  intros [Ht _] Hone id t Hid Htask.
  destruct (Ht id t Hid) as (t0 & H0 & Hk & Hr); [by rewrite Htask|].
  rewrite <- Hr. apply (Hone id t0); congruence.
Qed.

(** One callback either adds nothing to the chain, or replaces one of its
    links by a new one. *)
Lemma startup_step now ev st :
  testsOneShot st →
  quiet st (step now ev st).1
  ∨ (∃ old new, startup st old ∧ testsOneShot (step now ev st).1
       ∧ ∀ x, startup (step now ev st).1 x →
              x = new ∨ (x ≠ old ∧ startup st x)).
Proof.
  intros Hone. destruct ev as [ws|ws cm|ws|ws|ws|id|o]; cbn [step].
  - left. by apply quiet_by; left.
  - left. apply quiet_handleClientMessage.
  - left. by apply quiet_by; left.
  - left. apply quiet_onClose.
  - left. by apply quiet_by; left.
  - unfold onTimer. destruct (timers st !! id) as [t|] eqn:Hid;
      [|left; apply quiet_refl].
    set (st0 := if Timer.repeat t then _ else _).
    assert (quiet st st0) as Hq0.
    { unfold st0. destruct (Timer.repeat t); [by apply quiet_rearm|].
      apply quiet_sub; [|done]. intros id' t' H'. cbn in H'.
      by apply lookup_delete_Some in H' as [_ ?]. }
    destruct (Timer.task t) eqn:Htask.
    + left. eapply quiet_trans; [exact Hq0|apply quiet_fetch].
    + left. eapply quiet_trans; [exact Hq0|]. by apply quiet_by; left.
    + left. eapply quiet_trans; [exact Hq0|].
      apply quiet_by; [by left|]. right. eexists _, _. split; [reflexivity|done].
    + right. exists (inl id), (inr (nextId st)).
      assert (Timer.repeat t = false) as Hrep by by apply (Hone id t).
      unfold st0. rewrite Hrep. split; [|split].
      * exists t. split; [done|by rewrite Htask].
      * intros id' t' H' Htask'. cbn in H'.
        apply lookup_delete_Some in H' as [_ H']. by apply (Hone id' t').
      * intros [id'|h]; cbn.
        -- intros (t' & H' & Hs). right.
           apply lookup_delete_Some in H' as [Hne H'].
           split; [congruence|]. by exists t'.
        -- intros (a & Hh & Hs). rewrite lookup_insert in Hh. case_decide.
           ++ left. by subst h.
           ++ right. split; [done|]. by exists a.
    + left. eapply quiet_trans; [exact Hq0|apply quiet_processRequestQueue].
    + left. eapply quiet_trans; [exact Hq0|]. by apply quiet_by; left.
    + left. eapply quiet_trans; [exact Hq0|apply quiet_drainLoop].
  - destruct (calling st) as [request|] eqn:Hc;
      [|left; unfold onSettled; rewrite Hc; apply quiet_refl].
    destruct (awaiters st !! Request.handle request) as [k|] eqn:Hk.
    2:{ left. unfold onSettled, settle. rewrite Hc.
        cbn [awaiters setTimer set_nextId set_timers].
        rewrite awaiters_noteCall. cbn [awaiters set_calling]. rewrite Hk.
        cbn [fst]. apply quiet_by; [|left; by destruct (makeAPICall o)].
        right. exists (nextId st),
          {| Timer.task := QueueGap; Timer.delay := 200;
             Timer.repeat := false; Timer.armed := now |}.
        split; [by destruct (makeAPICall o)|done]. }
    rewrite (onSettled_resume _ _ _ _ _ Hc Hk).
    set (X := set_awaiters _ _).
    assert (timers X =
              <[nextId st := {| Timer.task := QueueGap; Timer.delay := 200;
                                Timer.repeat := false; Timer.armed := now |}]>
                (timers st)
            ∧ awaiters X = delete (Request.handle request) (awaiters st)
            ∧ nextId X = S (nextId st)) as (HtX & HaX & HnX).
    { unfold X. by destruct (makeAPICall o). }
    assert (quiet st X) as HqX.
    { split.
      - intros id t Hid Hs. rewrite HtX in Hid.
        rewrite lookup_insert in Hid. case_decide; [|by exists t].
        by injection Hid as <-.
      - intros h a Hh _. rewrite HaX in Hh.
        by apply lookup_delete_Some in Hh as [_ ?]. }
    clearbody X.
    destruct (isTestAwaiter k) eqn:Hkt.
    2:{ left. eapply quiet_trans; [exact HqX|by apply quiet_resume]. }
    destruct k; try discriminate. cbn [resume].
    assert (∀ task d rep,
      isStartupTask task = true → (task = TestConnection → rep = false) →
      ∃ old new, startup st old
        ∧ testsOneShot (setTimer task d rep now X)
        ∧ ∀ x, startup (setTimer task d rep now X) x →
               x = new ∨ (x ≠ old ∧ startup st x)) as Hmove.
    { intros task d rep Hs Hrep.
      exists (inr (Request.handle request)), (inl (S (nextId st))).
      split; [by exists AwaitTest|]. split.
      - intros id t Hid Htask. cbn in Hid. rewrite HnX, HtX in Hid.
        rewrite lookup_insert in Hid. case_decide.
        { injection Hid as <-. by apply Hrep. }
        rewrite lookup_insert in Hid. case_decide.
        { by injection Hid as <-. }
        by apply (Hone id t).
      - intros [id|h]; cbn.
        + rewrite HnX, HtX. intros (t & Hid & Hst).
          rewrite lookup_insert in Hid. case_decide; [left; by subst|].
          rewrite lookup_insert in Hid. case_decide.
          { injection Hid as <-. discriminate. }
          right. split; [done|]. by exists t.
        + rewrite HaX. intros (a & Hh & Hst).
          apply lookup_delete_Some in Hh as [Hne Hh].
          right. split; [congruence|]. by exists a. }
    destruct (makeAPICall o) as [testCall|m].
    + destruct (Response.result testCall) as [p|]; [|by left].
      destruct (truthyNumber _); [|by left].
      right. destruct (Hmove AutoFetch 10000 true) as (old & new & H1 & H2 & H3);
        [done|done|].
      exists old, new. split; [done|]. split.
      * intros id t Hid. apply (H2 id t). exact Hid.
      * intros x Hx. apply H3. exact Hx.
    + right. destruct (Hmove TestConnection 30000 false) as (old & new & H1 & H2 & H3);
        [done|done|].
      exists old, new. split; [done|]. split.
      * intros id t Hid. apply (H2 id t). exact Hid.
      * intros x Hx. apply H3. exact Hx.
Qed.

Lemma startupInv_step now ev st : startupInv st → startupInv (step now ev st).1.
Proof.
  intros [Hone Huniq].
  destruct (startup_step now ev st Hone)
    as [Hq|(old & new & Hold & Hone' & Hnew)].
  - split; [by apply (testsOneShot_quiet st)|].
    intros x y Hx Hy. apply Huniq; by apply (startup_quiet st (step now ev st).1).
  - split; [done|]. intros x y Hx Hy.
    destruct (Hnew x Hx) as [->|[Hne Hsx]].
    + destruct (Hnew y Hy) as [->|[Hne Hsy]]; [done|].
      destruct Hne. by apply Huniq.
    + destruct Hne. by apply Huniq.
Qed.

Lemma startupInv_init : startupInv init.
Proof.
  assert (∀ id t, timers init !! id = Some t →
            isStartupTask (Timer.task t) = true →
            id = 2%nat ∧ Timer.repeat t = false) as Hinit.
  { intros id t Hid Hs. cbn in Hid.
    rewrite lookup_insert in Hid. case_decide.
    { injection Hid as <-. by subst. }
    repeat (rewrite lookup_insert in Hid; case_decide;
      [injection Hid as <-; discriminate|]). done. }
  split.
  - intros id t Hid Htask. apply (Hinit id t Hid). by rewrite Htask.
  - intros [i|h] [j|k]; cbn; try (by intros _ (a & ? & _));
      try (by intros (a & ? & _)).
    intros (t & Hi & Hsi) (u & Hj & Hsj).
    destruct (Hinit i t Hi Hsi) as [-> _].
    by destruct (Hinit j u Hj Hsj) as [-> _].
Qed.

Lemma reachable_startupInv st : reachable st → startupInv st.
Proof.
  induction 1; [apply startupInv_init|by apply startupInv_step].
Qed.

Lemma startupOver_spec st : startupOver st = true ↔ ∀ x, ¬ startup st x.
Proof.
  unfold startupOver. rewrite andb_true_iff, !forallb_forall. split.
  - intros [Ht Ha] [id|h]; cbn.
    + intros (t & Hid & Hs). apply elem_of_map_to_list in Hid.
      apply list_elem_of_In in Hid. apply Ht in Hid. cbn in Hid.
      by rewrite Hs in Hid.
    + intros (a & Hh & Hs). apply elem_of_map_to_list in Hh.
      apply list_elem_of_In in Hh. apply Ha in Hh. cbn in Hh.
      by rewrite Hs in Hh.
  - intros Hno. split; intros [i v] Hin; apply list_elem_of_In in Hin;
      apply elem_of_map_to_list in Hin; cbn.
    + destruct (isStartupTask (Timer.task v)) eqn:Hs; [|done].
      destruct (Hno (inl i)). by exists v.
    + destruct (isTestAwaiter v) eqn:Hs; [|done].
      destruct (Hno (inr i)). by exists v.
Qed.

Lemma startupOver_step now ev st :
  startupOver st = true → startupOver (step now ev st).1 = true.
Proof.
  rewrite !startupOver_spec. intros Hno x Hx.
  assert (testsOneShot st) as Hone.
  { intros id t Hid Htask. destruct (Hno (inl id)).
    exists t. split; [done|by rewrite Htask]. }
  destruct (startup_step now ev st Hone) as [Hq|(old & _ & Hold & _)].
  - apply (Hno x). by apply (startup_quiet st (step now ev st).1).
  - by apply (Hno old).
Qed.

(** X17: At most one link of the start-up chain exists in any state the bridge
    reaches: a scheduled connection test, a connection test awaiting its
    call, or the auto-fetch interval.  So the connection test never runs
    twice at once, and the auto-fetch interval is started at most once. *)
Theorem startup_chain_has_one_link (st : State) (x y : nat + nat) :
  reachable st → startup st x → startup st y → x = y.
Proof.
  intros Hreach. destruct (reachable_startupInv st Hreach) as [_ Huniq].
  apply Huniq.
Qed.

Lemma startup_chain_has_one_link_witness :
  (inl 7%nat : nat + nat) = inl 7%nat.
Proof.
  apply (startup_chain_has_one_link (run testPassed init).1).
  - apply reachable_run, reachable_init.
  - eexists. split; [vm_compute; reflexivity|reflexivity].
  - eexists. split; [vm_compute; reflexivity|reflexivity].
Defined.

(** X18: Once the start-up chain has ended (the connection test was answered
    without a head block number), nothing brings it back: no connection
    test is scheduled or awaited and no auto-fetch interval is started, in
    any run. *)
Theorem ended_startup_never_resumes (tr : list (Z * Event)) (st : State) :
  startupOver st = true → startupOver (run tr st).1 = true.
Proof.
  revert st. induction tr as [|[now ev] tr IH]; intros st Hover; [done|].
  cbn [run]. pose proof (startupOver_step now ev st Hover) as H1.
  destruct (step now ev st) as [st1 out]. cbn [fst] in *.
  specialize (IH st1 H1). by destruct (run tr st1).
Qed.

Lemma ended_startup_never_resumes_witness :
  startupOver
    (run (twoClientsJoin ++ [(4000, Fire 0%nat)]) (run testUnexpected init).1).1
  = true.
Proof.
  apply ended_startup_never_resumes. vm_compute. reflexivity.
Defined.

(** ** Intervals outside the stream registry *)

Lemma foldr_delete_keep {A B} (g : A → nat) (l : list A) (m : gmap nat B) i x :
  (∀ y, y ∈ l → g y ≠ i) → m !! i = Some x →
  foldr (λ y acc, delete (g y) acc) m l !! i = Some x.
Proof.
  intros Hl Hm. induction l as [|y l IH]; [done|]. cbn.
  rewrite lookup_delete_ne.
  - apply IH. intros z Hz. apply Hl. by right.
  - apply Hl. by left.
Qed.

Lemma timer_kept_by st st' i (t : Timer.t) :
  fresh st → timers st !! i = Some t →
  (timers st' = timers st
   ∨ ∃ u, timers st' = <[nextId st := u]> (timers st)) →
  timers st' !! i = Some t.
Proof.
  intros Hf Hi [->|(u & ->)]; [done|].
  rewrite lookup_insert_ne; [done|]. intros <-.
  destruct (Hf (nextId st)) as [Hnone _]; [lia|]. congruence.
Qed.

Lemma timer_kept_processRequestQueue now st i t :
  fresh st → timers st !! i = Some t →
  timers (processRequestQueue now st).1 !! i = Some t.
Proof.
  intros Hf Hi. unfold processRequestQueue. case_match.
  - apply (timer_kept_by st); [done|done|]. right. by eexists.
  - destruct (drainLoop_shape now (set_isProcessingQueue (λ _, true) st))
      as (_ & _ & _ & [(_ & _ & _ & _ & Ht)|[(r & rest & _ & _ & _ & _ & _ & Ht)
                       |(r & rest & _ & _ & _ & _ & _ & Ht)]]);
      apply (timer_kept_by st); try done; rewrite Ht;
      first [by left | right; by eexists].
Qed.

Lemma timer_kept_startStream now s ws st i t :
  fresh st → timers st !! i = Some t →
  timers (startStream now s ws st).1 !! i = Some t.
Proof.
  intros Hf Hi. unfold startStream.
  destruct (getProp apiMethods (keyOf s)) as [cfg| |]; [| |done];
    (destruct (activeStreams st !! s); [done|]);
    match goal with
    | |- context [fetchAndBroadcastOptimized ?n ?s ?c ?x] =>
        destruct (fetch_frame n s c x) as (Ht & _);
        destruct (fetchAndBroadcastOptimized n s c x) as [st' out]
    end; cbn [fst] in *; rewrite Ht;
    (apply (timer_kept_by st); [done|done|right; by eexists]).
Qed.

Lemma timer_kept_onTimer now id st i t :
  fresh st → timers st !! i = Some t → Timer.repeat t = true →
  timers (onTimer now id st).1 !! i = Some t
  ∨ (id = i ∧ timers (onTimer now id st).1 !! i = Some (Timer.rearm now t)).
Proof.
  intros Hf Hi Hrep.
  unfold onTimer. destruct (timers st !! id) as [u|] eqn:Hid; [|by left].
  set (st0 := if Timer.repeat u then _ else _).
  assert (fresh st0) as Hf0.
  { unfold st0. destruct (Timer.repeat u);
      [by apply fresh_rearm|by apply fresh_delete_timer]. }
  assert (nextId st0 = nextId st) as Hn0
    by (unfold st0; by destruct (Timer.repeat u)).
  assert (∃ t0, timers st0 !! i = Some t0
                ∧ (t0 = t ∨ (id = i ∧ t0 = Timer.rearm now t)))
    as (t0 & Hi0 & Hcase).
  { destruct (decide (id = i)) as [->|Hne].
    - assert (u = t) as -> by congruence. unfold st0. rewrite Hrep. cbn.
      rewrite lookup_insert_eq. eexists. split; [done|]. by right.
    - exists t. split; [|by left]. unfold st0.
      destruct (Timer.repeat u); cbn;
        [by rewrite lookup_insert_ne|by rewrite lookup_delete_ne]. }
  assert (timers (match Timer.task u with
                  | StreamTick streamName config =>
                      fetchAndBroadcastOptimized now streamName config st0
                  | ResetCounter => (set_requestCount (λ _, 0) st0, [])
                  | AutoFetch =>
                      (queueAPICall (Some globalPropsMethod) (Some [])
                         AwaitAuto st0, [])
                  | TestConnection =>
                      (queueAPICall (Some globalPropsMethod) (Some [])
                         AwaitTest st0, [])
                  | ProcessQueue => processRequestQueue now st0
                  | QueueDelay request => dispatch request st0
                  | QueueGap => drainLoop now st0
                  end).1 !! i = Some t0) as Hkept.
  { destruct (Timer.task u); try done.
    - destruct (fetch_frame now streamName config st0) as (Ht & _).
      by rewrite Ht.
    - by apply timer_kept_processRequestQueue.
    - destruct (drainLoop_shape now st0)
        as (_ & _ & _ & [(_ & _ & _ & _ & Ht)
                        |[(r & rest & _ & _ & _ & _ & _ & Ht)
                         |(r & rest & _ & _ & _ & _ & _ & Ht)]]);
        apply (timer_kept_by st0); try done; rewrite Ht;
        first [by left | right; by eexists]. }
  destruct Hcase as [->|[-> ->]]; [by left|by right].
Qed.

Lemma timer_kept_onSettled now o st i t :
  fresh st → timers st !! i = Some t →
  timers (onSettled now o st).1 !! i = Some t.
Proof.
  intros Hf Hi. destruct (calling st) as [request|] eqn:Hc;
    [|unfold onSettled; by rewrite Hc].
  assert (∀ X, fresh X → timers X !! i = Some t →
            ∀ k, timers (resume now (makeAPICall o) k X).1 !! i = Some t)
    as Hres.
  { intros X HfX HiX k.
    destruct (resume_shape now (makeAPICall o) k X)
      as (_ & _ & _ & _ & [Ht|(u & Ht & _)] & _);
      apply (timer_kept_by X); try done; [by left|right; by exists u]. }
  unfold onSettled, settle. rewrite Hc.
  cbn [awaiters setTimer set_nextId set_timers].
  rewrite awaiters_noteCall. cbn [awaiters set_calling].
  assert (fresh (setTimer QueueGap 200 false now
                   (noteCall now (makeAPICall o) (set_calling (λ _, None) st))))
    as HfG.
  { apply fresh_setTimer. unfold noteCall. by case_match. }
  assert (timers (setTimer QueueGap 200 false now
                   (noteCall now (makeAPICall o) (set_calling (λ _, None) st)))
            !! i = Some t) as HiG.
  { apply (timer_kept_by st); [done|done|].
    right. eexists. by destruct (makeAPICall o). }
  destruct (awaiters st !! Request.handle request) as [k|]; [|done].
  apply Hres; [by apply fresh_delete_awaiter|done].
Qed.

Lemma timer_kept_step now ev st i t :
  consistent st → timers st !! i = Some t →
  (∀ s c, Timer.task t ≠ StreamTick s c) → Timer.repeat t = true →
  timers (step now ev st).1 !! i = Some t
  ∨ (ev = Fire i ∧ timers (step now ev st).1 !! i = Some (Timer.rearm now t)).
Proof.
  intros (Hf & [Hreg _] & _ & _) Hi Hns Hrep.
  destruct ev as [ws|ws cm|ws|ws|ws|id|o]; cbn [step].
  - by left.
  - left. destruct cm; cbn [handleClientMessage]; try done; stream_name.
    + by apply timer_kept_startStream.
    + unfold stopStream. destruct (activeStreams st !! stream) as [a|] eqn:Ha;
        [|done].
      cbn. rewrite lookup_delete_ne; [done|]. intros Heq.
      destruct (Hreg stream a Ha) as (t0 & Ht0 & Htask & _).
      rewrite Heq, Hi in Ht0. injection Ht0 as <-. by destruct (Hns _ _ Htask).
  - by left.
  - left. unfold onClose. case_decide; [|done]. cbn.
    apply foldr_delete_keep; [|done].
    intros [s a] Hin Heq. apply elem_of_map_to_list in Hin. cbn in *.
    destruct (Hreg s a Hin) as (t0 & Ht0 & Htask & _).
    rewrite Heq, Hi in Ht0. injection Ht0 as <-. by destruct (Hns _ _ Htask).
  - by left.
  - destruct (timer_kept_onTimer now id st i t Hf Hi Hrep) as [H|[-> H]];
      [by left|by right].
  - left. by apply timer_kept_onSettled.
Qed.

(** X19: A repeating timer that is not a stream timer is never cleared: the
    per-minute counter reset and the auto-fetch interval keep running
    whatever clients, streams and upstream answers do (also after the last
    client has left and every stream was stopped). *)
Theorem intervals_outlive_streams
    (tr : list (Z * Event)) (st : State) (i : nat) (t : Timer.t) :
  reachable st → timers st !! i = Some t →
  (∀ s c, Timer.task t ≠ StreamTick s c) → Timer.repeat t = true →
  ∃ t', timers (run tr st).1 !! i = Some t'
        ∧ Timer.task t' = Timer.task t ∧ Timer.delay t' = Timer.delay t
        ∧ Timer.repeat t' = true.
Proof.
  revert st t. induction tr as [|[now ev] tr IH]; intros st t Hreach Hi Hns Hrep.
  { by exists t. }
  cbn [run].
  pose proof (timer_kept_step now ev st i t
                (reachable_consistent st Hreach) Hi Hns Hrep) as Hstep.
  pose proof (reachable_step now ev st Hreach) as Hreach1.
  destruct (step now ev st) as [st1 out]. cbn [fst] in *.
  assert (∃ t1, timers st1 !! i = Some t1 ∧ Timer.task t1 = Timer.task t
                ∧ Timer.delay t1 = Timer.delay t ∧ Timer.repeat t1 = true)
    as (t1 & Hi1 & Hk1 & Hd1 & Hr1).
  { destruct Hstep as [H1|[_ H1]]; eexists; (split; [exact H1|done]). }
  destruct (IH st1 t1 Hreach1 Hi1) as (t' & Hi' & Hk' & Hd' & Hr');
    [by rewrite Hk1|done|].
  destruct (run tr st1) as [st2 log]. cbn [fst] in *.
  exists t'. split; [done|]. split; [congruence|]. split; [congruence|done].
Qed.

Lemma intervals_outlive_streams_witness :
  ∃ t', timers (run (twoClientsJoin ++ [(4000, Close 0%nat); (4100, Close 1%nat)])
                  (run testPassed init).1).1 !! 7%nat = Some t'
        ∧ Timer.task t' = AutoFetch ∧ Timer.delay t' = 10000
        ∧ Timer.repeat t' = true.
Proof.
  apply (intervals_outlive_streams
           (twoClientsJoin ++ [(4000, Close 0%nat); (4100, Close 1%nat)])
           (run testPassed init).1 7%nat
           {| Timer.task := AutoFetch; Timer.delay := 10000;
              Timer.repeat := true; Timer.armed := 3300 |}).
  - apply reachable_run, reachable_init.
  - vm_compute. reflexivity.
  - intros s c. discriminate.
  - reflexivity.
Defined.

(** ** Where a pending refresh cycle comes from *)

Lemma pendingCycle_frame st st' s c n :
  awaiters st' = awaiters st → pendingCycle st' s c n → pendingCycle st s c n.
Proof. intros Ha [h H]. exists h. by rewrite <- Ha. Qed.

Lemma pendingCycle_sub st st' s c n :
  (∀ h k, awaiters st' !! h = Some k → awaiters st !! h = Some k) →
  pendingCycle st' s c n → pendingCycle st s c n.
Proof. intros Ha [h [H|H]]; exists h; [left|right]; by apply Ha. Qed.

Lemma pendingCycle_queueAPICall m p k st s c n :
  pendingCycle (queueAPICall m p k st) s c n →
  pendingCycle st s c n ∨ k = AwaitFetch s c n ∨ k = AwaitGlobalProps s c n.
Proof.
  intros [h H]. cbn in H. rewrite lookup_insert in H. case_decide.
  - right. destruct H as [H|H]; injection H as ->; [by left|by right].
  - left. by exists h.
Qed.

Lemma pendingCycle_fetch now s c st s' c' n :
  pendingCycle (fetchAndBroadcastOptimized now s c st).1 s' c' n →
  pendingCycle st s' c' n ∨ (s' = s ∧ c' = c ∧ n = now).
Proof.
  unfold fetchAndBroadcastOptimized, catchFetch, requestStream.
  destruct (getProp (cache st) (keyOf s)); cbn [fst]; try (by left);
    (destruct (cacheHit now _) as [[d age]|]; [by left|]);
    repeat case_match; cbn [fst]; intros Hp;
    apply pendingCycle_queueAPICall in Hp as [Hp|[Hp|Hp]];
    try (left; revert Hp; by apply pendingCycle_frame);
    try discriminate; injection Hp as <- <- <-; by right.
Qed.

Lemma pendingCycle_resume clk r k st s c n :
  pendingCycle (resume clk r k st).1 s c n →
  pendingCycle st s c n ∨ k = AwaitGlobalProps s c n.
Proof.
  destruct k as [s' c' n'|s' c' n'| |]; cbn [resume].
  - unfold resumeGlobalProps, catchFetch, requestStream.
    destruct r as [response|m]; [|by left]. cbn [fst]. intros H.
    apply pendingCycle_queueAPICall in H as [H|[H|H]]; try discriminate.
    + left. revert H. apply pendingCycle_frame.
      by destruct (Response.result response).
    + injection H as <- <- <-. by right.
  - destruct (resumeFetch_frame clk r s' c' n' st)
      as (_ & _ & _ & _ & _ & _ & _ & Ha & _).
    intros H. left. revert H. by apply pendingCycle_frame.
  - intros H. left. revert H. apply pendingCycle_frame.
    destruct r as [response|m]; [|done].
    destruct (Response.result response); [|done].
    by destruct (truthyNumber _).
  - intros H. left. revert H. apply pendingCycle_frame.
    destruct r as [response|m]; [|done].
    by destruct (Response.result response).
Qed.

Lemma pendingCycle_drainLoop now st s c n :
  pendingCycle (drainLoop now st).1 s c n → pendingCycle st s c n.
Proof.
  apply pendingCycle_frame. unfold drainLoop, dispatch.
  destruct (requestQueue st); [done|]. by case_bool_decide.
Qed.

Lemma pendingCycle_step now ev st s c n :
  pendingCycle (step now ev st).1 s c n →
  pendingCycle st s c n ∨ (n = now ∧ beginsCycle ev st s c = true).
Proof.
  destruct ev as [ws|ws cm|ws|ws|ws|id|o]; cbn [step].
  - by left.
  - destruct cm; cbn [handleClientMessage beginsCycle]; try (by left).
    + unfold startStream, truthyProp.
      set (name := streamValue stream st).
      destruct (getProp apiMethods (keyOf name)) as [cfg| |] eqn:Hg;
        [| |by left];
        (destruct (activeStreams st !! name) eqn:Ha; [by left|]);
        match goal with
        | |- context [fetchAndBroadcastOptimized ?n ?s ?c ?x] =>
            pose proof (pendingCycle_fetch n s c x) as Hp;
            destruct (fetchAndBroadcastOptimized n s c x) as [st' out]
        end; cbn [fst] in *; intros H;
        (destruct (Hp _ _ _ H) as [H'|(-> & -> & ->)];
         [left; revert H'; by apply pendingCycle_frame|]);
        right; (split; [done|]);
        by rewrite Hg, Ha, !bool_decide_eq_true_2.
    + intros H. left. revert H. apply pendingCycle_frame.
      unfold stopStream. by destruct (activeStreams st !! _).
  - by left.
  - intros H. left. revert H. apply pendingCycle_frame.
    unfold onClose. by case_decide.
  - by left.
  - unfold onTimer, beginsCycle.
    destruct (timers st !! id) as [t|] eqn:Hid; [|by left].
    set (st0 := if Timer.repeat t then _ else _).
    assert (awaiters st0 = awaiters st) as Ha0
      by (unfold st0; by destruct (Timer.repeat t)).
    clearbody st0. cbn [fmap option_fmap option_map].
    destruct (Timer.task t) as [s' c'| | | | |r|]; intros H.
    + apply pendingCycle_fetch in H as [H|(-> & -> & ->)].
      * left. revert H. by apply pendingCycle_frame.
      * right. by rewrite !bool_decide_eq_true_2.
    + left. revert H. by apply pendingCycle_frame.
    + apply pendingCycle_queueAPICall in H as [H|[H|H]]; try discriminate.
      left. revert H. by apply pendingCycle_frame.
    + apply pendingCycle_queueAPICall in H as [H|[H|H]]; try discriminate.
      left. revert H. by apply pendingCycle_frame.
    + left. revert H. unfold processRequestQueue. case_match.
      * by apply pendingCycle_frame.
      * intros Hp. apply pendingCycle_drainLoop in Hp. revert Hp.
        by apply pendingCycle_frame.
    + left. revert H. by apply pendingCycle_frame.
    + left. apply pendingCycle_drainLoop in H. revert H.
      by apply pendingCycle_frame.
  - intros H. left. unfold onSettled in H.
    destruct (calling st) as [request|]; [|done].
    unfold settle in H. cbn [awaiters setTimer set_nextId set_timers] in H.
    rewrite awaiters_noteCall in H. cbn [awaiters set_calling] in H.
    destruct (awaiters st !! Request.handle request) as [k|] eqn:Hk.
    + apply pendingCycle_resume in H as [H| ->].
      * revert H. apply pendingCycle_sub. intros h k'. cbn.
        rewrite awaiters_noteCall. cbn. intros H.
        by apply lookup_delete_Some in H as [_ ?].
      * exists (Request.handle request). by right.
    + revert H. apply pendingCycle_frame. cbn. by rewrite awaiters_noteCall.
Qed.

Lemma pendingCycle_run tr st s c n :
  pendingCycle (run tr st).1 s c n →
  pendingCycle st s c n ∨ cycleBegan n s c tr st = true.
Proof.
  revert st. induction tr as [|[now ev] tr IH]; intros st; [by left|].
  cbn [run cycleBegan]. specialize (IH (step now ev st).1).
  destruct (step now ev st) as [st1 out] eqn:Hstep. cbn [fst] in *.
  destruct (run tr st1) as [st2 log]. cbn [fst] in *.
  intros H. destruct (IH H) as [H1|H1].
  - replace st1 with (step now ev st).1 in H1 by (by rewrite Hstep).
    apply pendingCycle_step in H1 as [H1|[-> H1]]; [by left|].
    right. by rewrite H1, bool_decide_eq_true_2.
  - right. rewrite H1. by rewrite orb_true_r.
Qed.

(** Clocks along an execution. *)
Lemma execution_cycleBegan clk tr st t s c :
  execution clk tr st = true → cycleBegan t s c tr st = true →
  clk <= t <= lastClock clk tr.
Proof.
  assert (∀ tr clk st, execution clk tr st = true → clk <= lastClock clk tr)
    as Hlast.
  { clear. induction tr as [|[now ev] tr IH]; intros clk st; [cbn; lia|].
    cbn [execution lastClock foldl fst]. rewrite !andb_true_iff.
    intros [[[Hle _] _] Hrest]. apply bool_decide_eq_true_1 in Hle.
    specialize (IH now _ Hrest). unfold lastClock in IH. lia. }
  revert clk st. induction tr as [|[now ev] tr IH]; intros clk st; [done|].
  cbn [execution cycleBegan lastClock foldl fst]. rewrite !andb_true_iff.
  intros [[[Hle _] _] Hrest] Hb. apply bool_decide_eq_true_1 in Hle.
  apply orb_true_iff in Hb as [Hb|Hb].
  - apply andb_true_iff in Hb as [Hb _]. apply bool_decide_eq_true_1 in Hb.
    subst t. specialize (Hlast tr now _ Hrest). unfold lastClock in Hlast. lia.
  - specialize (IH now _ Hrest Hb). unfold lastClock in IH. lia.
Qed.

Lemma execution_snoc clk tr st now ev :
  execution clk (tr ++ [(now, ev)]) st = true →
  execution clk tr st = true ∧ lastClock clk tr <= now.
Proof.
  revert clk st. induction tr as [|[t e] tr IH]; intros clk st.
  - cbn. rewrite !andb_true_iff. intros [[[Hle _] _] _].
    apply bool_decide_eq_true_1 in Hle. done.
  - cbn [app execution lastClock foldl fst]. rewrite !andb_true_iff.
    intros [Hhead Hrest]. destruct (IH t _ Hrest) as [H1 H2]. done.
Qed.

(** C7 (amended): the cache entry written when a fetch completes is stamped
    with the clock value of the callback that began its refresh cycle (the
    tick of the stream's timer or the [start_stream] that started the
    stream): that callback is an event of the run, it called
    [fetchAndBroadcastOptimized] for this stream with this config copy, and
    its clock value is the timestamp written.  Right after the write the
    entry's age is the time the fetch took, [clk - now], which is not
    negative. *)
Theorem cache_write_stamps_cycle_start
    (tr : list (Z * Event)) (clk : Z) (result : Payload)
    (request : Request.t) (s : Name) (c : nat) (now : Z) (f : Processor)
    (e : Cache.t) :
  let st := (run tr init).1 in
  let reply := Settle (JsonBody (Some result) None) in
  execution 0 (tr ++ [(clk, reply)]) init = true →
  calling st = Some request →
  awaiters st !! Request.handle request = Some (AwaitFetch s c now) →
  Config.processor (lookupConfig st c) = Some f →
  cache st !! keyOf s = Some e →
  cycleBegan now s c tr init = true
  ∧ now <= clk
  ∧ ∃ entry,
      cache (step clk reply st).1 !! keyOf s = Some entry
      ∧ Cache.data entry = Some result
      ∧ Cache.timestamp entry = now
      ∧ clk - Cache.timestamp entry = clk - now.
Proof.
  intros st reply Hexec Hc Hk Hf He.
  assert (cycleBegan now s c tr init = true) as Hbegan.
  { destruct (pendingCycle_run tr init s c now) as [[h [H|H]]|H]; try done.
    exists (Request.handle request). by left. }
  split; [done|]. split.
  { apply execution_snoc in Hexec as [Hexec Hlast].
    pose proof (execution_cycleBegan 0 tr init now s c Hexec Hbegan). lia. }
  subst reply. cbn [step].
  destruct (onSettled_fetch_result clk result request s c now f e st Hc Hk Hf He)
    as [Hcache _].
  rewrite Hcache, lookup_insert_eq. eexists. split; [done|]. done.
Qed.

Lemma cache_write_stamps_cycle_start_witness :
  cycleBegan 100 (NString "dynamic_global_properties") 3 fetchIssued init = true
  ∧ 100 <= 1300
  ∧ ∃ entry,
      cache (step 1300 answer (run fetchIssued init).1).1
        !! "dynamic_global_properties" = Some entry
      ∧ Cache.data entry = Some samplePayload
      ∧ Cache.timestamp entry = 100
      ∧ 1300 - Cache.timestamp entry = 1300 - 100.
Proof.
  apply (cache_write_stamps_cycle_start fetchIssued 1300 samplePayload
    {| Request.method := Some "condenser_api.get_dynamic_global_properties";
       Request.params := Some []; Request.handle := 4 |}
    (NString "dynamic_global_properties") 3%nat 100
    processDynamicGlobalProperties
    {| Cache.data := None; Cache.timestamp := 0; Cache.ttl := Some 5000 |}).
  - vm_compute. reflexivity.
  - vm_compute. reflexivity.
  - vm_compute. reflexivity.
  - vm_compute. reflexivity.
  - vm_compute. reflexivity.
Defined.

(** C7 (as stated, refuted): the cycle begins at 100, its answer arrives and
    is written at 1300; the entry written carries timestamp 100, so its age
    at the moment of the write is 1200 ms, not zero. *)
Lemma cache_write_age_is_not_zero :
  execution 0 (fetchIssued ++ [(1300, answer)]) init = true
  ∧ (let before := (run fetchIssued init).1 in
     let after := (step 1300 answer before).1 in
     cache before !! "dynamic_global_properties" =
       Some {| Cache.data := None; Cache.timestamp := 0;
               Cache.ttl := Some 5000 |}
     ∧ cache after !! "dynamic_global_properties" =
       Some {| Cache.data := Some samplePayload; Cache.timestamp := 100;
               Cache.ttl := Some 5000 |}
     ∧ (λ e, 1300 - Cache.timestamp e)
         <$> cache after !! "dynamic_global_properties" = Some 1200).
Proof.
  split; [by vm_compute|]. cbv zeta.
  split; [by vm_compute|]. split; by vm_compute.
Qed.

(** ** How the registry and the stream timers change *)

Lemma activeStreams_onTimer now id st :
  activeStreams (onTimer now id st).1 = activeStreams st.
Proof.
  unfold onTimer. destruct (timers st !! id) as [t|]; [|done].
  set (st0 := if Timer.repeat t then _ else _).
  assert (activeStreams st0 = activeStreams st) as <-
    by (unfold st0; by destruct (Timer.repeat t)).
  clearbody st0. destruct (Timer.task t); try done.
  - by destruct (fetch_frame now streamName config st0) as (_ & -> & _).
  - unfold processRequestQueue. case_match; [done|].
    by destruct (drainLoop_shape now (set_isProcessingQueue (λ _, true) st0))
      as (-> & _).
  - by destruct (drainLoop_shape now st0) as (-> & _).
Qed.

Lemma activeStreams_onSettled clk o st :
  activeStreams (onSettled clk o st).1 = activeStreams st
  ∨ ∃ s, activeStreams (onSettled clk o st).1
         = alter Stream.bump s (activeStreams st).
Proof.
  unfold onSettled. destruct (calling st) as [request|]; [|by left].
  unfold settle. cbn [awaiters setTimer set_nextId set_timers].
  rewrite awaiters_noteCall. cbn [awaiters set_calling].
  destruct (awaiters st !! Request.handle request) as [k|].
  - match goal with
    | |- context [resume ?c ?r ?k ?x] =>
        destruct (resume_shape c r k x) as (_ & _ & _ & _ & _ & [Ha|[s Ha]]);
        rewrite Ha
    end.
    + left. cbn. by destruct (makeAPICall o).
    + right. exists s. cbn. by destruct (makeAPICall o).
  - left. cbn. by destruct (makeAPICall o).
Qed.

Lemma activeStreams_startStream now s ws st :
  activeStreams (startStream now s ws st).1 = activeStreams st
  ∨ (activeStreams st !! s = None
     ∧ (nextId st < nextId (startStream now s ws st).1)%nat
     ∧ activeStreams (startStream now s ws st).1
       = <[s := {| Stream.intervalId := nextId st; Stream.config := nextId st;
                   Stream.startTime := now; Stream.requestCount := 0 |}]>
           (activeStreams st)).
Proof.
  unfold startStream.
  destruct (getProp apiMethods (keyOf s)) as [cfg| |]; [| |by left];
    (destruct (activeStreams st !! s) eqn:Ha; [by left|]);
    match goal with
    | |- context [fetchAndBroadcastOptimized ?n ?s ?c ?x] =>
        destruct (fetch_frame n s c x) as (_ & Hact & _);
        destruct (appendOnly_fetch n s c x) as (Hn & _);
        destruct (fetchAndBroadcastOptimized n s c x) as [st' out]
    end; cbn [fst] in *; right;
    (split; [done|]); (split; [cbn in Hn; lia|]); by rewrite Hact.
Qed.

Lemma nextId_step now ev st :
  fresh st → (nextId st ≤ nextId (step now ev st).1)%nat.
Proof.
  intros Hf. destruct ev as [ws|ws cm|ws|ws|ws|id|o]; cbn [step].
  - done.
  - destruct cm; cbn [handleClientMessage]; try done.
    + by destruct (appendOnly_startStream now (streamValue stream st) ws st Hf).
    + unfold stopStream. by destruct (activeStreams st !! _).
  - done.
  - unfold onClose. by case_decide.
  - done.
  - unfold onTimer. destruct (timers st !! id) as [t|]; [|done].
    set (st0 := if Timer.repeat t then _ else _).
    assert (nextId st0 = nextId st) as <-
      by (unfold st0; by destruct (Timer.repeat t)).
    clearbody st0. destruct (Timer.task t); try done; try (cbn; lia).
    + by destruct (appendOnly_fetch now streamName config st0).
    + unfold processRequestQueue, drainLoop, dispatch.
      repeat case_match; cbn; lia.
    + unfold drainLoop, dispatch. repeat case_match; cbn; lia.
  - by destruct (appendOnly_onSettled now o st Hf).
Qed.

Lemma registry_origin now ev st n :
  fresh st → is_Some (activeStreams (step now ev st).1 !! n) →
  is_Some (activeStreams st !! n)
  ∨ (∃ ws v, ev = Message ws (start_stream v) ∧ n = streamValue v st
             ∧ (nextId st < nextId (step now ev st).1)%nat).
Proof.
  intros Hf. destruct ev as [ws|ws cm|ws|ws|ws|id|o]; cbn [step].
  - by left.
  - destruct cm; cbn [handleClientMessage]; try (by left).
    + destruct (activeStreams_startStream now (streamValue stream st) ws st)
        as [->|(Ha & Hn & ->)]; [by left|].
      rewrite lookup_insert. case_decide as Heq; [|by left].
      intros _. right. by exists ws, stream.
    + unfold stopStream. destruct (activeStreams st !! _); [|by left].
      cbn. intros [x Hx]. apply lookup_delete_Some in Hx as [_ Hx]. left. eauto.
  - by left.
  - unfold onClose. case_decide; [|by left]. cbn. by intros [x Hx].
  - by left.
  - rewrite activeStreams_onTimer. by left.
  - destruct (activeStreams_onSettled now o st) as [->|[s ->]]; [by left|].
    rewrite lookup_alter. case_decide; [subst|by left].
    intros [x Hx]. left. by destruct (activeStreams st !! n).
Qed.

Lemma refsOK_step now ev st : fresh st → refsOK st → refsOK (step now ev st).1.
Proof.
  intros Hf Hok ref key a Ha.
  pose proof (nextId_step now ev st Hf) as Hn.
  destruct (registry_origin now ev st (NObject ref key) Hf) as [[a0 H0]|H0];
    [by eexists| |].
  - specialize (Hok ref key a0 H0). lia.
  - destruct H0 as (ws & v & _ & Hv & Hlt). destruct v; try discriminate.
    cbn in Hv. injection Hv as -> _. done.
Qed.

Lemma reachable_refsOK st : reachable st → refsOK st.
Proof.
  induction 1 as [|now ev st Hreach IH]; [done|].
  apply refsOK_step; [by apply reachable_fresh|done].
Qed.

(** An array or object that has just been parsed is in no registry. *)
Lemma parsed_object_is_new st key :
  reachable st → activeStreams st !! streamValue (JObject key) st = None.
Proof.
  intros Hreach. cbn. destruct (activeStreams st !! _) as [a|] eqn:Ha; [|done].
  apply (reachable_refsOK st Hreach) in Ha. lia.
Qed.

(** An active stream and its timer stay, with the same timer id, unless the
    stream is named by a [stop_stream] or the last socket closes. *)
Lemma stream_kept_step now ev st n a :
  consistent st → activeStreams st !! n = Some a →
  ((∃ a', activeStreams (step now ev st).1 !! n = Some a'
          ∧ Stream.intervalId a' = Stream.intervalId a)
   ∧ is_Some (timers (step now ev st).1 !! Stream.intervalId a))
  ∨ (∃ ws v, ev = Message ws (stop_stream v) ∧ streamValue v st = n)
  ∨ (∃ ws, ev = Close ws ∧ deleteClient ws (clients st) = []).
Proof.
  intros (Hf & [Hreg _] & _ & _) Ha.
  destruct (Hreg n a Ha) as (t & Hi & Htask & Hrep & _).
  destruct ev as [ws|ws cm|ws|ws|ws|id|o]; cbn [step].
  - left. split; [by exists a|by exists t].
  - destruct cm; cbn [handleClientMessage];
      try (left; split; [by exists a|by exists t]).
    + left. split.
      * destruct (activeStreams_startStream now (streamValue stream st) ws st)
          as [->|(Hnone & _ & ->)]; [by exists a|].
        exists a. split; [|done]. rewrite lookup_insert_ne; [done|].
        intros Heq. congruence.
      * exists t. by apply timer_kept_startStream.
    + destruct (decide (streamValue stream st = n)) as [Heq|Hne].
      { right. left. by exists ws, stream. }
      left. unfold stopStream.
      destruct (activeStreams st !! streamValue stream st) as [a0|] eqn:Ha0;
        [|split; [by exists a|by exists t]].
      cbn. split.
      * exists a. by rewrite lookup_delete_ne.
      * exists t. rewrite lookup_delete_ne; [done|]. intros Heq.
        destruct (Hreg _ a0 Ha0) as (t0 & Hi0 & Htask0 & _).
        rewrite Heq in Hi0. congruence.
  - left. split; [by exists a|by exists t].
  - unfold onClose. cbn [clients set_openSockets set_clients].
    case_decide as Hlast.
    + right. right. exists ws. split; [done|].
      by apply length_zero_iff_nil.
    + left. split; [by exists a|by exists t].
  - left. split; [by exists a|by exists t].
  - left. rewrite activeStreams_onTimer. split; [by exists a|].
    destruct (timer_kept_onTimer now id st _ t Hf Hi Hrep) as [H|[_ H]];
      by eexists.
  - left. split.
    + destruct (activeStreams_onSettled now o st) as [->|[s ->]];
        [by exists a|].
      rewrite lookup_alter. case_decide; [subst|by exists a].
      rewrite Ha. by exists (Stream.bump a).
    + exists t. by apply timer_kept_onSettled.
Qed.

(** A [stop_stream] that names the stream, or the close of the last socket,
    removes the registry entry and clears the timer. *)
Lemma stopped_when now ev st n a :
  activeStreams st !! n = Some a →
  (∃ ws v, ev = Message ws (stop_stream v) ∧ streamValue v st = n)
  ∨ (∃ ws, ev = Close ws ∧ deleteClient ws (clients st) = []) →
  activeStreams (step now ev st).1 !! n = None
  ∧ timers (step now ev st).1 !! Stream.intervalId a = None.
Proof.
  intros Ha [(ws & v & -> & Hv)|(ws & -> & Hlast)]; cbn [step].
  - cbn [handleClientMessage]. rewrite Hv. unfold stopStream. rewrite Ha.
    cbn. split; apply lookup_delete_eq.
  - unfold onClose. cbn [clients set_openSockets set_clients].
    rewrite decide_True by (by rewrite Hlast). cbn. split; [done|].
    apply (foldr_delete_elem (λ kv : Name * Stream.t, Stream.intervalId kv.2)
             _ _ (n, a)).
    by apply elem_of_map_to_list.
Qed.

(** C4 (amended): the engine tracks connected sockets, not subscribers per
    stream.  An active stream loses its registry entry and its timer when a
    [stop_stream] names it, whoever sends it and whoever else asked for the
    stream, and when the last connected socket closes; in every other
    callback the entry stays and the timer stays armed under the same id.
    In particular a close that leaves some socket connected changes neither
    the registry nor any timer.  A stream started with an array or object
    as its name cannot be named by any [stop_stream]. *)
Theorem deactivation_follows_connections
    (now : Z) (ev : Event) (st : State) (n : Name) (a : Stream.t) :
  reachable st → activeStreams st !! n = Some a →
  let st' := (step now ev st).1 in
  let named := ∃ ws v, ev = Message ws (stop_stream v) ∧ streamValue v st = n in
  let lastClosed := ∃ ws, ev = Close ws ∧ deleteClient ws (clients st) = [] in
  (named ∨ lastClosed →
     activeStreams st' !! n = None ∧ timers st' !! Stream.intervalId a = None)
  ∧ (activeStreams st' !! n = None ∨ timers st' !! Stream.intervalId a = None →
     named ∨ lastClosed)
  ∧ (∀ ws, ev = Close ws → deleteClient ws (clients st) ≠ [] →
     activeStreams st' = activeStreams st ∧ timers st' = timers st)
  ∧ (∀ ref key, n = NObject ref key → ¬ named).
Proof.
  intros Hreach Ha st' named lastClosed.
  split; [|split; [|split]].
  - intros Hstop. by apply stopped_when.
  - intros Hgone.
    destruct (stream_kept_step now ev st n a (reachable_consistent st Hreach) Ha)
      as [[(a' & Ha' & _) [t Ht]]|[H|H]]; [|by left|by right].
    subst st'. destruct Hgone; congruence.
  - intros ws -> Hrest. subst st'. cbn [step]. unfold onClose.
    cbn [clients set_openSockets set_clients].
    case_decide as H; [|done]. by apply length_zero_iff_nil in H.
  - intros ref key -> (ws & v & _ & Hv).
    destruct v; try discriminate. cbn in Hv. injection Hv as <- _.
    apply (reachable_refsOK st Hreach) in Ha. lia.
Qed.

Lemma deactivation_follows_connections_witness :
  let st := (run twoClientsJoin init).1 in
  let st' := (step 300 (Message 0%nat (stop_stream (JString "block"))) st).1 in
  activeStreams st' !! NString "block" = None ∧ timers st' !! 3%nat = None.
Proof.
  cbv zeta.
  destruct (deactivation_follows_connections 300
              (Message 0%nat (stop_stream (JString "block")))
              (run twoClientsJoin init).1 (NString "block")
              {| Stream.intervalId := 3; Stream.config := 3;
                 Stream.startTime := 100; Stream.requestCount := 0 |})
    as (Hwhen & _).
  - apply reachable_run, reachable_init.
  - vm_compute. reflexivity.
  - apply Hwhen. left. exists 0%nat, (JString "block"). split; reflexivity.
Defined.

(** C4 (as stated, refuted): client 1 is still subscribed to [block] when
    client 0 sends [stop_stream]; the stream's registry entry and its timer
    are removed all the same, so client 1 receives no further update. *)
Lemma stop_stream_ignores_other_subscriber :
  execution 0 firstClientStops init = true
  ∧ subscribers (JString "block") firstClientStops = [1%nat]
  ∧ (let before := (run twoClientsJoin init).1 in
     let after := (run firstClientStops init).1 in
     is_Some (activeStreams before !! NString "block")
     ∧ is_Some (timers before !! 3%nat)
     ∧ activeStreams after !! NString "block" = None
     ∧ timers after !! 3%nat = None).
Proof.
  split; [by vm_compute|]. split; [by vm_compute|]. cbv zeta.
  split; [by vm_compute; eexists|]. split; [by vm_compute; eexists|].
  split; by vm_compute.
Qed.

(** ** A call in progress outlives everything but its own answer *)






Lemma run_cons_fst now ev tr st :
  (run ((now, ev) :: tr) st).1 = (run tr (step now ev st).1).1.
Proof.
  cbn [run]. destruct (step now ev st) as [st1 out]. cbn [fst].
  by destruct (run tr st1).
Qed.





(** ** Streams named by an array or an object *)

(** X20: A [stream] value that is an array or an object never matches a
    registry key.  [stop_stream] with such a value does nothing and gets no
    reply; [start_stream] with such a value, if its string form passes the
    guard, always starts a further stream (a new registry entry and a new
    repeating timer) and leaves every existing entry as it is. *)
Theorem object_name_never_matches
    (now : Z) (ws : nat) (key : string) (st : State) :
  reachable st →
  step now (Message ws (stop_stream (JObject key))) st = (st, [])
  ∧ (truthyProp (getProp apiMethods key) = true →
     let st' := (step now (Message ws (start_stream (JObject key))) st).1 in
     activeStreams st' !! NObject (nextId st) key =
       Some {| Stream.intervalId := nextId st; Stream.config := nextId st;
               Stream.startTime := now; Stream.requestCount := 0 |}
     ∧ timers st' !! nextId st =
       Some {| Timer.task := StreamTick (NObject (nextId st) key) (nextId st);
               Timer.delay :=
                 timerDelay (Config.interval (catalogueConfig key));
               Timer.repeat := true; Timer.armed := now |}
     ∧ ∀ n a, activeStreams st !! n = Some a →
              activeStreams st' !! n = Some a).
Proof.
  intros Hreach. pose proof (parsed_object_is_new st key Hreach) as Hnew.
  cbn [step handleClientMessage]. split.
  { unfold stopStream. by rewrite Hnew. }
  intros Hguard. cbv zeta. unfold startStream, catalogueConfig.
  cbn [streamValue keyOf] in *.
  destruct (getProp apiMethods key) as [cfg| |]; [| |done]; rewrite Hnew;
    match goal with
    | |- context [fetchAndBroadcastOptimized ?n ?s ?c ?x] =>
        destruct (fetch_frame n s c x) as (Ht & Hact & _);
        destruct (fetchAndBroadcastOptimized n s c x) as [st' out]
    end; cbn [fst] in *; rewrite Ht, Hact; cbn;
    (split; [by rewrite lookup_insert_eq|]);
    (split; [by rewrite lookup_insert_eq|]);
    intros n a Ha; (rewrite lookup_insert_ne; [done|]); congruence.
Qed.

Lemma object_name_never_matches_witness :
  step 300 (Message 0%nat (stop_stream blockArray))
    (run arrayStartedOnce init).1
  = ((run arrayStartedOnce init).1, []).
Proof.
  apply (object_name_never_matches 300 0%nat "block"
           (run arrayStartedOnce init).1).
  apply reachable_run, reachable_init.
Defined.

(** X21: A stream started with an array or an object as its name cannot be
    stopped by any client message: its registry entry and its timer stay,
    under the same timer id, along every run in which the last connected
    socket does not close. *)
Theorem object_named_stream_cannot_be_stopped
    (tr : list (Z * Event)) (st : State) (ref : nat) (key : string)
    (a : Stream.t) :
  reachable st → activeStreams st !! NObject ref key = Some a →
  someoneStays tr st = true →
  ∃ a', activeStreams (run tr st).1 !! NObject ref key = Some a'
        ∧ Stream.intervalId a' = Stream.intervalId a
        ∧ is_Some (timers (run tr st).1 !! Stream.intervalId a).
Proof.
  revert st a. induction tr as [|[now ev] tr IH]; intros st a Hreach Ha Hstay.
  { exists a. split; [done|]. split; [done|].
    destruct (reachable_consistent st Hreach) as (_ & [Hreg _] & _).
    destruct (Hreg _ a Ha) as (t & Ht & _). by exists t. }
  cbn [someoneStays] in Hstay. apply andb_true_iff in Hstay as [Hev Hstay].
  rewrite run_cons_fst.
  destruct (stream_kept_step now ev st _ a (reachable_consistent st Hreach) Ha)
    as [[(a1 & Ha1 & Hi1) _]|[(ws & v & -> & Hv)|(ws & -> & Hlast)]].
  - destruct (IH _ a1 (reachable_step now ev st Hreach) Ha1 Hstay)
      as (a' & Ha' & Hi' & Ht').
    exists a'. split; [done|]. split; [congruence|]. by rewrite <- Hi1.
  - destruct v; try discriminate. cbn in Hv. injection Hv as <- _.
    apply (reachable_refsOK st Hreach) in Ha. lia.
  - apply negb_true_iff, bool_decide_eq_false_1 in Hev. done.
Qed.

Lemma object_named_stream_cannot_be_stopped_witness :
  ∃ a', activeStreams
          (run [ (300, Message 0%nat (stop_stream blockArray));
                 (310, Message 0%nat (stop_stream (JString "block")));
                 (320, Connect 1%nat); (330, Close 0%nat) ]
             (run arrayStartedOnce init).1).1 !! NObject 3 "block" = Some a'
        ∧ Stream.intervalId a' = 3%nat
        ∧ is_Some (timers
                     (run [ (300, Message 0%nat (stop_stream blockArray));
                            (310, Message 0%nat (stop_stream (JString "block")));
                            (320, Connect 1%nat); (330, Close 0%nat) ]
                        (run arrayStartedOnce init).1).1 !! 3%nat).
Proof.
  apply (object_named_stream_cannot_be_stopped
           [ (300, Message 0%nat (stop_stream blockArray));
             (310, Message 0%nat (stop_stream (JString "block")));
             (320, Connect 1%nat); (330, Close 0%nat) ]
           (run arrayStartedOnce init).1 3%nat "block"
           {| Stream.intervalId := 3; Stream.config := 3;
              Stream.startTime := 100; Stream.requestCount := 0 |}).
  - apply reachable_run, reachable_init.
  - vm_compute. reflexivity.
  - vm_compute. reflexivity.
Defined.
